(** * ESP32 ADS-B companion: track table and dirty-rectangle renderer

    A shallow embedding of the rendering core of the sketch (the main
    translation unit, together with the constants of [Config.h]):
    heading-to-sprite mapping, altitude colours, the screen-bounds test of
    the projection, the track table (lookup, allocation, expiry, upsert),
    the draw list with its altitude sort, the dirty-rectangle merge and
    the differential status line; further the render cycle and the loop
    around it, the sprite rasteriser, the backlight and touch-brightness
    handling, and the two-network Wi-Fi connection helper.

    C [int] values are modelled as [Z]; [uint32_t] arithmetic is written
    with its reduction modulo 2^32; C strings are lists of characters
    (the bytes before the terminating NUL); the track table and the
    index arrays are lists read and written by position. *)

From Stdlib Require Import ZArith Lia Bool Ascii String Sorting.Sorted.
From stdpp Require Import base numbers list strings sorting.

Local Open Scope Z_scope.

(** ** Machine integers *)

Definition UINT32_MAX : Z := 0xFFFFFFFF.

(** [uint32_t] results are reduced modulo 2^32. *)
Definition u32 (z : Z) : Z := z mod 2 ^ 32.

(** [a - b] on [uint32_t], as in [now - lastUpdateMs]. *)
Definition u32_sub (a b : Z) : Z := u32 (a - b).

(** A 32-bit [int] result, two's complement. *)
Definition i32 (z : Z) : Z := (z + 2 ^ 31) mod 2 ^ 32 - 2 ^ 31.

(** C's [%] on [int] truncates towards zero: the sign follows the dividend. *)
Definition c_mod (a b : Z) : Z := Z.rem a b.

(** C's [/] on [int] truncates towards zero. *)
Definition c_div (a b : Z) : Z := Z.quot a b.

(** ** Constants of the sketch *)

Definition MAX_TRACKS : nat := 200.
Definition MAX_DRAW : nat := 99.
(** [(uint32_t)(MAX_SEEN_POS_S * 1000.0)] with [MAX_SEEN_POS_S = 30.0]. *)
Definition MAX_SEEN_POS_MS : Z := 30000.
Definition TRACK_TTL_MS : Z := 15000.

Definition SW : Z := 480.
Definition SH : Z := 320.

(** Modelled from the spec: [plane32_w] and [plane32_h] come from
    [plane32_360.h], which is not among the sources; the icon is 32 by 32
    pixels (the spec's scenarios use 32x32 rectangles and the sketch
    comments [lineBuf32[PW]] with 32). *)
Definition PW : Z := 32.
Definition PH : Z := 32.

Definition SPRITE_CCW : bool := true.
Definition SPRITE_OFFSET_DEG : Z := 0.
Definition SPRITE_FLIP_180 : bool := false.

Definition ALT_L1_M : Z := 1000.
Definition ALT_L2_M : Z := 5000.
Definition ALT_L3_M : Z := 9000.

Definition LEGEND_H : Z := 18.
Definition BOTTOM_H : Z := 18.
Definition BOTTOM_LEFT_MARGIN : Z := 25.
Definition BOTTOM_TEXT_Y_OFFSET : Z := 2.

(** The colour constants of the display library that the sketch names;
    only their identity matters here. *)
Inductive tft_color : Set :=
  | TFT_BLACK | TFT_WHITE | TFT_DARKGREY | TFT_RED | TFT_GREEN
  | TFT_YELLOW | TFT_CYAN.

Global Instance tft_color_eq_dec : EqDecision tft_color.
Proof. solve_decision. Defined.

Definition ALT_COLOR_UNKNOWN : tft_color := TFT_DARKGREY.
Definition ALT_COLOR_L1 : tft_color := TFT_RED.
Definition ALT_COLOR_L2 : tft_color := TFT_GREEN.
Definition ALT_COLOR_L3 : tft_color := TFT_YELLOW.
Definition ALT_COLOR_L4 : tft_color := TFT_CYAN.

(** ** Altitude colour *)

Definition colorFromAltitudeM (alt_m : Z) : tft_color :=
  if alt_m <? 0 then ALT_COLOR_UNKNOWN
  else if alt_m <? ALT_L1_M then ALT_COLOR_L1
  else if alt_m <? ALT_L2_M then ALT_COLOR_L2
  else if alt_m <? ALT_L3_M then ALT_COLOR_L3
  else ALT_COLOR_L4.

(** The altitude of the data model: a signed number of metres, or unknown.
    The track table stores it in an [int], with [-1] for unknown. *)
Definition ALT_UNKNOWN_SENTINEL : Z := -1.

Definition encode_altitude (a : option Z) : Z :=
  match a with
  | Some m => m
  | None => ALT_UNKNOWN_SENTINEL
  end.

(** The colour bands as the specification words them: unknown, then
    [< 1000], [< 5000], [< 9000], otherwise. *)
Definition spec_altitude_color (a : option Z) : tft_color :=
  match a with
  | None => ALT_COLOR_UNKNOWN
  | Some m =>
      if m <? 1000 then ALT_COLOR_L1
      else if m <? 5000 then ALT_COLOR_L2
      else if m <? 9000 then ALT_COLOR_L3
      else ALT_COLOR_L4
  end.

(** ** Heading to sprite index *)

(** [mapHeadingToSprite] for an arbitrary orientation convention; every
    [int] operation is written with its 32-bit reduction. *)
Definition mapHeadingToSpriteWith (ccw : bool) (offset : Z) (flip180 : bool)
    (deg : Z) : Z :=
  let h := c_mod deg 360 in
  let h := if h <? 0 then i32 (h + 360) else h in
  let h := if ccw then c_mod (i32 (360 - h)) 360 else h in
  let h := c_mod (i32 (h + offset)) 360 in
  let h := if flip180 then c_mod (i32 (h + 180)) 360 else h in
  h.

Definition mapHeadingToSprite (deg : Z) : Z :=
  mapHeadingToSpriteWith SPRITE_CCW SPRITE_OFFSET_DEG SPRITE_FLIP_180 deg.

(** [deg %= 360; if (deg < 0) deg += 360;] *)
Definition wrap360 (deg : Z) : Z :=
  let h := c_mod deg 360 in
  if h <? 0 then i32 (h + 360) else h.

(** The index with which [planeMaskForHeading] reads [plane32_offset]. *)
Definition planeMaskIndex (deg : Z) : Z := wrap360 deg.

(** Reading an array at an [int] index: defined inside the array only. *)
Definition array_read {A : Type} (a : list A) (i : Z) : option A :=
  if 0 <=? i then a !! Z.to_nat i else None.

(** [planeMaskForHeading]: the offset of the mask inside [plane32_masks],
    read from the offset table; [None] stands for a read outside the table. *)
Definition planeMaskForHeading (plane32_offset : list Z) (deg : Z) : option Z :=
  array_read plane32_offset (planeMaskIndex deg).

(** ** Projection: the bounds test *)

(** The Mercator arithmetic of [latlon_to_global_pixels] is double
    precision and is not evaluated here: [rounded_px] stands for
    [(lround (gx - MAP_PX0), lround (gy - MAP_PY0))]. The function returns
    the flag together with the two output parameters [sx] and [sy]. *)
Definition latlon_to_screen_xy {geo : Type} (rounded_px : geo -> Z * Z)
    (p : geo) : bool * (Z * Z) :=
  let '(sx, sy) := rounded_px p in
  if (sx <? - PW) || (SW + PW <? sx) then (false, (sx, sy))
  else if (sy <? - PH) || (SH + PH <? sy) then (false, (sx, sy))
  else (true, (sx, sy)).

(** The rejection rule as the specification words it: further than half
    an icon outside the canvas, on any side. *)
Definition beyond_half_extent (sx sy : Z) : Prop :=
  sx < - (c_div PW 2) \/ SW + c_div PW 2 < sx \/
  sy < - (c_div PH 2) \/ SH + c_div PH 2 < sy.

(** The rejection rule with a whole icon of margin. *)
Definition beyond_full_extent (sx sy : Z) : Prop :=
  sx < - PW \/ SW + PW < sx \/ sy < - PH \/ SH + PH < sy.

(** ** Screen rectangles *)

Record Rect : Set := mkRect { rect_x : Z; rect_y : Z; rect_w : Z; rect_h : Z }.

Global Instance Rect_eq_dec : EqDecision Rect.
Proof. solve_decision. Defined.

Definition rectClampToScreen (r : Rect) : Rect :=
  let '(x, w) := if rect_x r <? 0 then (0, rect_w r + rect_x r)
                 else (rect_x r, rect_w r) in
  let '(y, h) := if rect_y r <? 0 then (0, rect_h r + rect_y r)
                 else (rect_y r, rect_h r) in
  let w := if SW <? x + w then SW - x else w in
  let h := if SH <? y + h then SH - y else h in
  let w := if w <? 0 then 0 else w in
  let h := if h <? 0 then 0 else h in
  mkRect x y w h.

Definition rectIntersects (a b : Rect) : bool :=
  negb ((rect_x a + rect_w a <=? rect_x b) || (rect_x b + rect_w b <=? rect_x a) ||
        (rect_y a + rect_h a <=? rect_y b) || (rect_y b + rect_h b <=? rect_y a)).

Definition rectUnion (a b : Rect) : Rect :=
  let x1 := Z.min (rect_x a) (rect_x b) in
  let y1 := Z.min (rect_y a) (rect_y b) in
  let x2 := Z.max (rect_x a + rect_w a) (rect_x b + rect_w b) in
  let y2 := Z.max (rect_y a + rect_h a) (rect_y b + rect_h b) in
  mkRect x1 y1 (x2 - x1) (y2 - y1).

(** A pixel lies inside a rectangle (left and top edges included, right
    and bottom edges excluded). *)
Definition in_rect (px py : Z) (r : Rect) : Prop :=
  rect_x r <= px < rect_x r + rect_w r /\ rect_y r <= py < rect_y r + rect_h r.

(** Two rectangles that touch along a vertical or a horizontal edge: one
    ends exactly where the other begins, and their extents along the edge
    overlap. *)
Definition touching_edge (a b : Rect) : Prop :=
  (rect_x a + rect_w a = rect_x b /\
   rect_y a < rect_y b + rect_h b /\ rect_y b < rect_y a + rect_h a) \/
  (rect_y a + rect_h a = rect_y b /\
   rect_x a < rect_x b + rect_w b /\ rect_x b < rect_x a + rect_w a).

(** ** Merging the dirty rectangles *)

(** [dirty[j] = dirty[nDirty - 1]; nDirty--]: the list is the live part
    of the array, of length [nDirty]. *)
Definition remove_at_swap_last (j : nat) (dirty : list Rect) : list Rect :=
  match last dirty with
  | Some r => take (length dirty - 1)%nat (<[j := r]> dirty)
  | None => dirty
  end.

(** The inner loop [for (j = i + 1; j < nDirty;)]. Every iteration either
    shortens the array or advances [j], so [nDirty - j] iterations are
    enough; [fuel] counts them. *)
Fixpoint merge_inner (fuel : nat) (i j : nat) (dirty : list Rect) : list Rect :=
  match fuel with
  | O => dirty
  | S fuel' =>
      if (j <? length dirty)%nat then
        match dirty !! i, dirty !! j with
        | Some ri, Some rj =>
            if rectIntersects ri rj then
              merge_inner fuel' i j
                (remove_at_swap_last j
                   (<[i := rectClampToScreen (rectUnion ri rj)]> dirty))
            else merge_inner fuel' i (S j) dirty
        | _, _ => dirty
        end
      else dirty
  end.

(** The outer loop [for (i = 0; i < nDirty; i++)]. *)
Fixpoint merge_outer (fuel : nat) (i : nat) (dirty : list Rect) : list Rect :=
  match fuel with
  | O => dirty
  | S fuel' =>
      if (i <? length dirty)%nat then
        merge_outer fuel' (S i)
          (merge_inner (length dirty - S i) i (S i) dirty)
      else dirty
  end.

Definition mergeDirty (dirty : list Rect) : list Rect :=
  merge_outer (length dirty) 0%nat dirty.

(** No two rectangles at different positions intersect. *)
Definition pairwise_disjoint (dirty : list Rect) : Prop :=
  forall (i j : nat) (a b : Rect),
    i <> j -> dirty !! i = Some a -> dirty !! j = Some b ->
    rectIntersects a b = false.

(** ** Display operations

    What the sketch sends to the display, kept as a log. *)

Definition cstr : Type := list ascii.

Definition NUL : ascii := Ascii.zero.

Inductive DisplayOp : Type :=
  (** [tft.pushImage (x, y, w, 1, row)] with the row read from the
      background image at [(x, y)]. *)
  | PushBgRow (x y w : Z)
  | FillRect (x y w h : Z) (c : tft_color)
  (** [drawPlaneAtTopLeft (x0, y0, spriteHeadingDeg, color)] *)
  | DrawPlane (x0 y0 sprite : Z) (c : tft_color)
  (** [setTextColor (fg, bg)] followed by [drawString (s, x, y)]. *)
  | DrawString (s : cstr) (x y : Z) (fg bg : tft_color).

(** The rows [0 .. h - 1] of a [for (int row = 0; row < h; row++)]. *)
Definition rows (h : Z) : list Z := seqZ 0 h.

(** [restoreBgRect32] and [restoreBgRectWide] differ in the line buffer
    only: clamp to the screen, then push the background row by row. *)
Definition restoreBgRect (x y w h : Z) : list DisplayOp :=
  let '(x, w) := if x <? 0 then (0, w + x) else (x, w) in
  let '(y, h) := if y <? 0 then (0, h + y) else (y, h) in
  let w := if SW <? x + w then SW - x else w in
  let h := if SH <? y + h then SH - y else h in
  if (w <=? 0) || (h <=? 0) then []
  else (fun row => PushBgRow x (y + row) w) <$> rows h.

Definition restoreBgRect32 := restoreBgRect.
Definition restoreBgRectWide := restoreBgRect.

(** The background was restored at pixel [(px, py)] by an operation. *)
Definition op_restores (px py : Z) (op : DisplayOp) : Prop :=
  match op with
  | PushBgRow x y w => y = py /\ x <= px < x + w
  | _ => False
  end.

Definition restored (px py : Z) (ops : list DisplayOp) : Prop :=
  Exists (op_restores px py) ops.

Definition on_screen (px py : Z) : Prop := 0 <= px < SW /\ 0 <= py < SH.

(** ** The track table *)

(** The geographic position (two doubles) is only read by the debug print
    and the nearest/farthest statistics and is left out. *)
Record Track : Type := mkTrack {
  used : bool;
  hex : cstr;          (* 6 hex chars *)
  flight : cstr;       (* up to 8 chars *)
  cx : Z;
  cy : Z;
  oldDrawX : Z;
  oldDrawY : Z;
  headingDeg : Z;
  altitude_m : Z;      (* metres, -1 = unknown *)
  color : tft_color;
  lastUpdateMs : Z;    (* uint32_t *)
  drawn : bool
}.

(** The member initialisers of [struct Track]. *)
Definition Track_init : Track :=
  mkTrack false [] [] 0 0 0 0 0 (-1) TFT_WHITE 0 false.

(** [static Track tracks[MAX_TRACKS]] at start-up. *)
Definition tracks_init : list Track := replicate MAX_TRACKS Track_init.

Definition set_used (b : bool) (t : Track) : Track :=
  mkTrack b (hex t) (flight t) (cx t) (cy t) (oldDrawX t) (oldDrawY t)
    (headingDeg t) (altitude_m t) (color t) (lastUpdateMs t) (drawn t).

Definition set_drawn (b : bool) (t : Track) : Track :=
  mkTrack (used t) (hex t) (flight t) (cx t) (cy t) (oldDrawX t) (oldDrawY t)
    (headingDeg t) (altitude_m t) (color t) (lastUpdateMs t) b.

(** [strncmp (a, b, n) == 0] on C strings: the first [n] characters agree. *)
Definition strncmp_eq (n : nat) (a b : cstr) : bool :=
  bool_decide (take n a = take n b).

(** [tracks[i].used && strncmp (tracks[i].hex, hex, 6) == 0] *)
Definition hex_matches (key : cstr) (t : Track) : bool :=
  used t && strncmp_eq 6 (hex t) key.

(** The first slot in use with this identity, or [None] for [-1]. *)
Definition findTrackByHex (key : cstr) (tracks : list Track) : option nat :=
  fst <$> list_find (fun t => hex_matches key t = true) tracks.

(** The second loop of [allocTrackSlot]: [i] is the position of the head
    of [ts] in the table, [oldest] and [idx] are the loop variables. *)
Fixpoint oldest_scan (ts : list Track) (i : nat) (oldest : Z) (idx : nat) : nat :=
  match ts with
  | [] => idx
  | t :: rest =>
      if lastUpdateMs t <? oldest
      then oldest_scan rest (S i) (lastUpdateMs t) i
      else oldest_scan rest (S i) oldest idx
  end.

Definition allocTrackSlot (tracks : list Track) : nat :=
  match list_find (fun t => used t = false) tracks with
  | Some (i, _) => i
  | None => oldest_scan tracks 0%nat UINT32_MAX 0%nat
  end.

Definition trackRectOld (t : Track) : Rect :=
  mkRect (oldDrawX t) (oldDrawY t) PW PH.

Definition trackRectCurrent (t : Track) : Rect :=
  mkRect (cx t - c_div PW 2) (cy t - c_div PH 2) PW PH.

Definition eraseTrackIfDrawn (t : Track) : Track * list DisplayOp :=
  if drawn t
  then (set_drawn false t, restoreBgRect32 (oldDrawX t) (oldDrawY t) PW PH)
  else (t, []).

(** The test of [expireOldTracks] on one slot. *)
Definition expired (now : Z) (t : Track) : bool :=
  used t && (TRACK_TTL_MS <? u32_sub now (lastUpdateMs t)).

(** One iteration of the loop of [expireOldTracks]. *)
Definition expire_slot (now : Z) (t : Track) : Track * list DisplayOp :=
  if expired now t
  then let '(t', ops) := eraseTrackIfDrawn t in (set_used false t', ops)
  else (t, []).

(** [expireOldTracks], with [now] the value of [millis ()]: the table
    after the loop and the display operations in the order issued. *)
Fixpoint expireOldTracks (now : Z) (tracks : list Track)
    : list Track * list DisplayOp :=
  match tracks with
  | [] => ([], [])
  | t :: rest =>
      let '(t', ops) := expire_slot now t in
      let '(rest', ops') := expireOldTracks now rest in
      (t' :: rest', ops ++ ops')
  end.

(** ** Upsert: the body of the loop of [fetchAndUpdateTracks]

    An observation that passed the feed filters and the projection.
    Rounding and unit conversion are double precision and happen before:
    [obs_track] is [lround (trk)], [obs_alt_m] is [lround (alt_ft * 0.3048)]
    when [alt_baro] is an integer and [None] otherwise; [obs_flight] is the
    callsign after [trimFlight]. *)
Record Observation : Type := mkObservation {
  obs_hex : cstr;
  obs_flight : cstr;
  obs_sx : Z;
  obs_sy : Z;
  obs_track : Z;
  obs_alt_m : option Z;
  obs_millis : Z       (* [millis ()] when the slot is written *)
}.

Definition upsert (o : Observation) (tracks : list Track)
    : list Track * list DisplayOp :=
  let idx := match findTrackByHex (obs_hex o) tracks with
             | Some i => i
             | None => allocTrackSlot tracks
             end in
  match tracks !! idx with
  | None => (tracks, [])
  | Some t =>
      let '(t1, ops) :=
        if used t && negb (strncmp_eq 6 (hex t) (obs_hex o))
        then eraseTrackIfDrawn t else (t, []) in
      let alt := encode_altitude (obs_alt_m o) in
      let t2 :=
        mkTrack true (take 6 (obs_hex o)) (take 8 (obs_flight o))
          (obs_sx o) (obs_sy o) (oldDrawX t1) (oldDrawY t1)
          (wrap360 (obs_track o)) alt (colorFromAltitudeM alt)
          (obs_millis o) (drawn t1) in
      (<[idx := t2]> tracks, ops)
  end.

(** A sequence of upserts, first observation first. *)
Definition upsert_all (obs : list Observation) (tracks : list Track) : list Track :=
  foldl (fun ts o => fst (upsert o ts)) tracks obs.

(** The number of slots in use that hold the identity [key]. *)
Definition live_count (key : cstr) (tracks : list Track) : nat :=
  length (filter (fun t => used t = true /\ hex t = key) tracks).

(** No two slots in use agree on the six characters of the identity. *)
Definition unique_live (tracks : list Track) : Prop :=
  forall i j ti tj,
    tracks !! i = Some ti -> tracks !! j = Some tj ->
    used ti = true -> used tj = true ->
    take 6 (hex ti) = take 6 (hex tj) -> i = j.

(** ** The draw list *)

(** The filters of step 1 of [buildDrawList] on one slot. *)
Definition drawable (now : Z) (t : Track) : bool :=
  let x0 := cx t - c_div PW 2 in
  let y0 := cy t - c_div PH 2 in
  used t
  && negb (MAX_SEEN_POS_MS <? u32_sub now (lastUpdateMs t))
  && negb (y0 <? LEGEND_H)
  && negb (SH - BOTTOM_H <? y0 + PH)
  && negb ((x0 <? - PW) || (SW <? x0))
  && negb ((y0 <? - PH) || (SH <? y0)).

(** Step 1: [for (i = 0; i < MAX_TRACKS && count < maxOut; i++)]; [i] is
    the position of the head of [ts], [out] the slots collected so far. *)
Fixpoint collect_drawable (now : Z) (maxOut : nat) (ts : list Track)
    (i : nat) (out : list nat) : list nat :=
  match ts with
  | [] => out
  | t :: rest =>
      if (length out <? maxOut)%nat
      then collect_drawable now maxOut rest (S i)
             (if drawable now t then out ++ [i] else out)
      else out
  end.

(** [if (a < 0) a = -1000000;]: unknown altitude goes first. *)
Definition sort_key (alt : Z) : Z := if alt <? 0 then -1000000 else alt.

(** [tracks[slot].altitude_m] *)
Definition track_altitude (tracks : list Track) (slot : nat) : Z :=
  from_option altitude_m (-1) (tracks !! slot).

Section AltitudeSort.
Variable alt : nat -> Z.

(** The body of the inner loop of step 2: compare positions [i] and [j]
    of [outIdx] and exchange them when out of order. *)
Definition sort_step (i j : nat) (outIdx : list nat) : list nat :=
  match outIdx !! i, outIdx !! j with
  | Some si, Some sj =>
      if sort_key (alt sj) <? sort_key (alt si)
      then <[j := si]> (<[i := sj]> outIdx)
      else outIdx
  | _, _ => outIdx
  end.

(** [for (j = ...; j < count; j++)], [n] iterations left. *)
Fixpoint sort_inner (n : nat) (i j : nat) (outIdx : list nat) : list nat :=
  match n with
  | O => outIdx
  | S n' => sort_inner n' i (S j) (sort_step i j outIdx)
  end.

(** [for (i = ...; i < count - 1; i++)], [n] iterations left. *)
Fixpoint sort_outer (n : nat) (i : nat) (outIdx : list nat) : list nat :=
  match n with
  | O => outIdx
  | S n' =>
      sort_outer n' (S i)
        (sort_inner (length outIdx - S i) i (S i) outIdx)
  end.

Definition sortByAltitude (outIdx : list nat) : list nat :=
  sort_outer (length outIdx - 1) 0%nat outIdx.
End AltitudeSort.

(** The inner loop of step 2, read on the list that follows position [i]:
    [x] is the current [outIdx[i]], [rest] the part of the array that
    [j] still has to visit. The result is the final [outIdx[i]] and the
    visited part. *)
Fixpoint carry_lowest (alt : nat -> Z) (x : nat) (rest : list nat) : nat * list nat :=
  match rest with
  | [] => (x, [])
  | y :: rest' =>
      if sort_key (alt y) <? sort_key (alt x)
      then let '(m, r) := carry_lowest alt y rest' in (m, x :: r)
      else let '(m, r) := carry_lowest alt x rest' in (m, y :: r)
  end.

(** The order on slots that the sort establishes. *)
Definition key_le (alt : nat -> Z) (a b : nat) : Prop :=
  sort_key (alt a) <= sort_key (alt b).

(** [buildDrawList (outIdx, maxOut)]: the filled part of [outIdx]. *)
Definition buildDrawList (now : Z) (maxOut : nat) (tracks : list Track) : list nat :=
  sortByAltitude (track_altitude tracks)
    (collect_drawable now maxOut tracks 0%nat []).

(** [a] may be drawn before [b]: [a] is unknown (negative), or both are
    known and [a] is not higher than [b]. *)
Definition altitude_before (a b : Z) : Prop :=
  a < 0 \/ (0 <= b /\ a <= b).

Definition isInDrawList (idx : nat) (drawIdx : list nat) : bool :=
  existsb (fun k => (k =? idx)%nat) drawIdx.

(** ** The render cycle: building the dirty set *)

(** First loop of [renderTracks]: slots drawn before and not in the draw
    list give their old rectangle and lose their drawn flag. *)
Fixpoint mark_removed (drawIdx : list nat) (ts : list Track) (i : nat)
    : list Track * list Rect :=
  match ts with
  | [] => ([], [])
  | t :: rest =>
      let '(rest', dirty) := mark_removed drawIdx rest (S i) in
      if used t && drawn t && negb (isInDrawList i drawIdx)
      then (set_drawn false t :: rest', trackRectOld t :: dirty)
      else (t :: rest', dirty)
  end.

(** Second loop: the old (when drawn) and the new rectangle of every
    slot of the draw list. *)
Definition draw_rects (tracks : list Track) (drawIdx : list nat) : list Rect :=
  slot ← drawIdx;
  match tracks !! slot with
  | Some t => (if drawn t then [trackRectOld t] else []) ++ [trackRectCurrent t]
  | None => []
  end.

(** Third loop: clamp to the screen and drop the empty rectangles. *)
Definition clamp_all (dirty : list Rect) : list Rect :=
  filter (fun r => 0 < rect_w r /\ 0 < rect_h r) (rectClampToScreen <$> dirty).

(** The dirty array of a cycle when the merge loop starts, given the
    table after expiry and the draw list. *)
Definition dirty_candidates (tracks : list Track) (drawIdx : list nat) : list Rect :=
  let '(tracks', removed) := mark_removed drawIdx tracks 0%nat in
  clamp_all (removed ++ draw_rects tracks' drawIdx).

(** One iteration of [redrawPlanesIntersecting]. *)
Definition redraw_slot (r : Rect) (st : list Track * list DisplayOp) (slot : nat)
    : list Track * list DisplayOp :=
  let '(tracks, ops) := st in
  match tracks !! slot with
  | Some t =>
      let cr := trackRectCurrent t in
      if rectIntersects r cr then
        (<[slot := mkTrack (used t) (hex t) (flight t) (cx t) (cy t)
                     (rect_x cr) (rect_y cr) (headingDeg t) (altitude_m t)
                     (color t) (lastUpdateMs t) true]> tracks,
         ops ++ [DrawPlane (rect_x cr) (rect_y cr)
                   (mapHeadingToSprite (headingDeg t)) (color t)])
      else st
  | None => st
  end.

(** The last loop: restore the background under a dirty rectangle, then
    redraw the planes of the draw list that intersect it. *)
Definition repaint_rect (drawIdx : list nat) (st : list Track * list DisplayOp)
    (r : Rect) : list Track * list DisplayOp :=
  let '(tracks, ops) := st in
  foldl (redraw_slot r)
    (tracks, ops ++ restoreBgRectWide (rect_x r) (rect_y r) (rect_w r) (rect_h r))
    drawIdx.

(** What a cycle of [renderTracks] leaves behind, the status bar apart
    (its text needs the double-precision distances): the table, the
    display log and the merged dirty set. [now] is the value of
    [millis ()], taken as the same for the whole cycle. *)
Record RenderResult : Type := mkRenderResult {
  render_tracks : list Track;
  render_ops : list DisplayOp;
  render_dirty : list Rect
}.

Definition renderTracks (now : Z) (tracks : list Track) : RenderResult :=
  let '(tracks1, ops1) := expireOldTracks now tracks in
  let drawIdx := buildDrawList now MAX_DRAW tracks1 in
  let '(tracks2, removed) := mark_removed drawIdx tracks1 0%nat in
  let dirty := mergeDirty (clamp_all (removed ++ draw_rects tracks2 drawIdx)) in
  let '(tracks3, ops3) := foldl (repaint_rect drawIdx) (tracks2, ops1) dirty in
  mkRenderResult tracks3 ops3 dirty.

(** ** The status line *)

Record StatusLine : Type := mkStatusLine {
  bottomPrev : cstr;
  bottomHasPrev : bool
}.

Definition StatusLine_init : StatusLine := mkStatusLine [] false.

(** The C string held by a buffer: the characters before the first NUL. *)
Fixpoint c_str (buf : list ascii) : cstr :=
  match buf with
  | [] => []
  | c :: rest => if decide (c = NUL) then [] else c :: c_str rest
  end.

(** [(i < strlen (s)) ? s[i] : '\0'] *)
Definition char_at (s : cstr) (i : nat) : ascii :=
  if (i <? length s)%nat then nth i s NUL else NUL.

Definition charW : Z := 6.
Definition bottom_y0 : Z := SH - BOTTOM_H.
Definition yText : Z := bottom_y0 + c_div (BOTTOM_H - 8) 2 + BOTTOM_TEXT_Y_OFFSET.
Definition xText : Z := BOTTOM_LEFT_MARGIN.

(** The left edge of the character cell [i]. *)
Definition cell_x (i : nat) : Z := xText + Z.of_nat i * charW.

(** One iteration of the loop over the character cells. *)
Definition diff_cell (prev cur : cstr) (i : nat) : list DisplayOp :=
  let oldc := char_at prev i in
  let newc := char_at cur i in
  if decide (oldc = newc) then []
  else
    (if decide (oldc = NUL) then []
     else [DrawString [oldc] (cell_x i) yText TFT_BLACK TFT_BLACK])
    ++
    (if decide (newc = NUL) then []
     else [DrawString [newc] (cell_x i) yText TFT_WHITE TFT_BLACK]).

(** [text] is the buffer passed in; [cur] is its copy, cut at 95
    characters. *)
Definition drawBottomBarTextDiff (text : list ascii) (st : StatusLine)
    : StatusLine * list DisplayOp :=
  let cur := take 95 (c_str text) in
  if negb (bottomHasPrev st) then
    (mkStatusLine cur true,
     [FillRect 0 bottom_y0 SW BOTTOM_H TFT_BLACK;
      DrawString cur xText yText TFT_WHITE TFT_BLACK])
  else
    let maxLen := Nat.max (length (bottomPrev st)) (length cur) in
    (mkStatusLine cur true,
     i ← seq 0 maxLen; diff_cell (bottomPrev st) cur i).

(** The string that a call leaves on the bar. *)
Definition rendered (text : list ascii) : cstr := take 95 (c_str text).



(** ** Tables used as concrete inputs *)

(** Three planes seen for the first time, none drawn before: the table of
    the failing cycle for the merge. *)
Definition plane (key : string) (x y alt : Z) : Track :=
  mkTrack true (list_ascii_of_string key) [] x y 0 0 0 alt
    (colorFromAltitudeM alt) 1000 false.

Definition three_planes : list Track :=
  [plane "4b1a01" 116 116 1000; plane "4b1a02" 148 115 2000;
   plane "4b1a03" 147 147 3000] ++ replicate 197 Track_init.

(** A table with one plane, drawn at (100,100) and last updated at 0. *)
Definition stale_drawn_plane : Track :=
  mkTrack true (list_ascii_of_string "4b1a01") [] 116 116 100 100 0 1000
    TFT_GREEN 0 true.

Definition stale_table : list Track :=
  stale_drawn_plane :: replicate 199 Track_init.

(** The same plane next to one updated at 19000. *)
Definition fresh_plane : Track :=
  mkTrack true (list_ascii_of_string "4b1a02") [] 300 200 284 184 90 2000
    TFT_GREEN 19000 true.

Definition stale_and_fresh_table : list Track :=
  stale_drawn_plane :: fresh_plane :: replicate 198 Track_init.

(** A table with every slot in use: slot [i] holds the identity made of
    the three decimal digits of [i] followed by "abc"; the slot updated
    longest ago is slot 193. *)
Definition slot_key (i : nat) : cstr :=
  [ascii_of_nat (48 + i / 100); ascii_of_nat (48 + (i / 10) mod 10);
   ascii_of_nat (48 + i mod 10); "a"%char; "b"%char; "c"%char].

Definition full_table : list Track :=
  (fun i => mkTrack true (slot_key i) [] 240 160 0 0 0 1000 TFT_GREEN
              (1000 + 10 * Z.of_nat ((i + 7) mod 200)) false) <$> seq 0 200.

Definition new_plane : Observation :=
  mkObservation (list_ascii_of_string "4b1a2c") (list_ascii_of_string "SWR123")
    240 160 90 (Some 3000) 5000.

(** The table of the specification's draw-order example: altitudes 5000 m,
    unknown and 1000 m in the slots 0, 1 and 2, all fresh and on screen. *)
Definition draw_order_table : list Track :=
  [plane "4b1a01" 100 100 5000; plane "4b1a02" 200 100 (-1);
   plane "4b1a03" 300 100 1000] ++ replicate 197 Track_init.

(** ** Rectangles on the screen *)

(** The rectangle lies on the canvas. *)
Definition inside_screen (r : Rect) : Prop :=
  0 <= rect_x r /\ 0 <= rect_y r /\
  rect_x r + rect_w r <= SW /\ rect_y r + rect_h r <= SH.

(** What the third loop of [renderTracks] keeps: a rectangle that is not
    empty and lies on the canvas. *)
Definition visible_rect (r : Rect) : Prop :=
  inside_screen r /\ 0 < rect_w r /\ 0 < rect_h r.

(** Some rectangle of the list holds the pixel. *)
Definition covered (px py : Z) (rects : list Rect) : Prop :=
  Exists (in_rect px py) rects.

(** A row pushed to the display stays on the canvas. *)
Definition op_on_screen (op : DisplayOp) : Prop :=
  match op with
  | PushBgRow x y w => 0 <= x /\ 0 < w /\ x + w <= SW /\ 0 <= y < SH
  | _ => True
  end.

(** The number of pixels of a pushed row. *)
Definition op_row_width (op : DisplayOp) : Z :=
  match op with
  | PushBgRow _ _ w => w
  | _ => 0
  end.

(** One merge of the inner loop: [dirty[i]] becomes the clamped union
    with [dirty[j]], and [dirty[j]] is replaced by the last rectangle. *)
Definition merge_step (i j : nat) (ri rj : Rect) (dirty : list Rect) : list Rect :=
  remove_at_swap_last j (<[i := rectClampToScreen (rectUnion ri rj)]> dirty).

(** ** More tables used as concrete inputs *)

(** A plane last updated 100 ms before [millis ()] wraps around. *)
Definition plane_before_rollover : Track :=
  mkTrack true (list_ascii_of_string "4b1a01") [] 116 116 100 100 0 1000
    TFT_GREEN (2 ^ 32 - 100) true.

(** The full table with its oldest slot drawn at (224,144). *)
Definition full_drawn_table : list Track :=
  <[193%nat := mkTrack true (slot_key 193) [] 240 160 224 144 0 1000 TFT_GREEN
                 1000 true]> full_table.

(** A table with two planes and 198 free slots. *)
Definition two_plane_table : list Track :=
  [plane "4b1a01" 116 116 1000; plane "3c6589" 300 200 2000]
  ++ replicate 198 Track_init.

(** A new sighting of the first of the two planes. *)
Definition seen_again : Observation :=
  mkObservation (list_ascii_of_string "4b1a01") (list_ascii_of_string "SWR123")
    120 118 (-90) (Some 1200) 4000.

(** The record written by an upsert into a slot that held [t]. *)
Definition upsert_record (o : Observation) (t : Track) : Track :=
  mkTrack true (take 6 (obs_hex o)) (take 8 (obs_flight o))
    (obs_sx o) (obs_sy o) (oldDrawX t) (oldDrawY t)
    (wrap360 (obs_track o)) (encode_altitude (obs_alt_m o))
    (colorFromAltitudeM (encode_altitude (obs_alt_m o)))
    (obs_millis o) (drawn t).

(** ** The render cycle: what a repaint changes *)

(** Two records of the same plane: they agree on everything but the
    record of where the plane was last drawn. *)
Definition same_plane (a b : Track) : Prop :=
  used a = used b /\ hex a = hex b /\ flight a = flight b /\
  cx a = cx b /\ cy a = cy b /\ headingDeg a = headingDeg b /\
  altitude_m a = altitude_m b /\ color a = color b /\
  lastUpdateMs a = lastUpdateMs b.

(** The plane is recorded as drawn where it is now. *)
Definition painted (t : Track) : Prop :=
  drawn t = true /\
  oldDrawX t = rect_x (trackRectCurrent t) /\
  oldDrawY t = rect_y (trackRectCurrent t).

(** What the redraw loops may do to a slot: leave it, or record the
    plane as drawn where it is now. *)
Definition repaint_rel (a b : Track) : Prop :=
  same_plane a b /\ (b = a \/ painted b).

(** The call [drawPlaneAtTopLeft] that paints the plane of a slot. *)
Definition plane_op (t : Track) : DisplayOp :=
  DrawPlane (rect_x (trackRectCurrent t)) (rect_y (trackRectCurrent t))
    (mapHeadingToSprite (headingDeg t)) (color t).

(** A later state of the redraw loops: the log has only grown, and the
    table has only been repainted. *)
Definition later (s s' : list Track * list DisplayOp) : Prop :=
  Forall2 repaint_rel (fst s) (fst s') /\
  exists extra, snd s' = snd s ++ extra.


(** The table after expiry and the draw list of a cycle. *)
Definition cycle_tracks (now : Z) (tracks : list Track) : list Track :=
  fst (expireOldTracks now tracks).

Definition cycle_draw_list (now : Z) (tracks : list Track) : list nat :=
  buildDrawList now MAX_DRAW (cycle_tracks now tracks).

(** One pass of [loop] in which the fetch succeeded: the observations
    are upserted, then the tracks are rendered at [now]. *)
Definition loop_pass (tracks : list Track) (pass : list Observation * Z) : list Track :=
  render_tracks (renderTracks (snd pass) (upsert_all (fst pass) tracks)).

(** The table after a sequence of such passes, starting from the table
    as it is at start-up. *)
Definition run_loop (passes : list (list Observation * Z)) : list Track :=
  foldl loop_pass tracks_init passes.

(** The fields that the upsert fills are consistent in a slot in use. *)
Definition plane_consistent (t : Track) : Prop :=
  used t = true ->
  0 <= headingDeg t < 360 /\ color t = colorFromAltitudeM (altitude_m t) /\
  (length (hex t) <= 6)%nat /\ (length (flight t) <= 8)%nat.


(** A table with one plane drawn at (100,100) that has moved to
    (110,100), and one plane drawn at (300,200) that is now too close to
    the legend strip to be drawn. *)
Definition moved_and_hidden_table : list Track :=
  [mkTrack true (list_ascii_of_string "4b1a01") [] 126 116 100 100 90 1000
     TFT_GREEN 1000 true;
   mkTrack true (list_ascii_of_string "3c6589") [] 316 20 300 200 0 2000
     TFT_GREEN 1000 true]
  ++ replicate 198 Track_init.

(** What a cycle may do to a slot: free it, or keep the plane it holds. *)
Definition kept (a b : Track) : Prop := used b = true -> same_plane a b.

(** ** Backlight ([HB9IIU_BacklightControl.h]) and brightness by touch *)

Definition u8 (z : Z) : Z := z mod 2 ^ 8.
Definition u16 (z : Z) : Z := z mod 2 ^ 16.

Definition BL_CH : Z := 0.
Definition BL_FREQ : Z := 500.
Definition BL_RES : Z := 10.
(** [HB9_BL_ACTIVE_HIGH] defaults to 1; a build may set it to 0. *)
Definition BL_ACTIVE_HIGH : bool := true.
Definition BL_SAVE_IDLE_MS : Z := 5000.

(** [(1u << BL_RES) - 1u] *)
Definition blMaxDuty : Z := u32 (Z.shiftl 1 BL_RES - 1).

Definition blPolarity (active_high : bool) (duty : Z) : Z :=
  let duty := if blMaxDuty <? duty then blMaxDuty else duty in
  if active_high then duty else u32 (blMaxDuty - duty).

(** What reaches the PWM driver and the preferences store. *)
Inductive HwOp : Type :=
  | LedcSetup (ch freq res : Z)
  | LedcAttachPin (ch : Z)
  | LedcWrite (ch duty : Z)
  | PrefsPutBl (v : Z).

(** [backlightInit], the pin apart. *)
Definition backlightInit (active_high : bool) : list HwOp :=
  [LedcSetup BL_CH BL_FREQ BL_RES; LedcAttachPin BL_CH;
   LedcWrite BL_CH (blPolarity active_high blMaxDuty)].

(** The duty cycle that [backlightSetPercent] computes for a [uint8_t]
    argument. *)
Definition backlight_duty (percent : Z) : Z :=
  let percent := if 100 <? percent then 100 else percent in
  Z.div (u32 (percent * blMaxDuty)) 100.

(** [backlightSetPercent (percent)]: [inited] is [bl_inited]; the result
    is the new [bl_inited] and the operations issued. The argument is
    converted to [uint8_t]. *)
Definition backlightSetPercent (active_high : bool) (percent : Z) (inited : bool)
    : bool * list HwOp :=
  let percent := u8 percent in
  (true,
   (if inited then [] else backlightInit active_high)
   ++ [LedcWrite BL_CH (blPolarity active_high (backlight_duty percent))]).

(** The globals of the brightness handling. *)
Record Brightness : Type := mkBrightness {
  gBl : Z;              (* uint8_t, current brightness *)
  gBlSaved : Z;         (* uint8_t, last saved value *)
  gBlDirty : bool;
  gLastTouchMs : Z;     (* uint32_t *)
  lastStepMs : Z;       (* uint32_t, static in the handler *)
  bl_inited : bool
}.

(** What one call of [handleTouchBrightnessAndSave] reads from outside:
    the touch point if the panel is touched, and the three readings of
    [millis ()] in the order they are taken. *)
Record TouchPoll : Type := mkTouchPoll {
  touch : option (Z * Z);
  ms_step : Z;
  ms_touch : Z;
  ms_save : Z
}.

(** The brightness after a step: up by 2 capped at 100 in the upper
    half of the screen, down by 2 floored at 0 in the lower half.
    [touchY] is the raw reading; the handler inverts it in 16 bits. *)
Definition brightness_step (bl touchY : Z) : Z :=
  let touchY := u16 (SH - touchY) in
  let step := 2 in
  if touchY <? c_div SH 2
  then u8 (if 100 <? bl + step then 100 else bl + step)
  else u8 (if bl <? step then 0 else bl - step).

(** The first part of the handler: the touch. *)
Definition handle_touch (p : TouchPoll) (b : Brightness) : Brightness * list HwOp :=
  match touch p with
  | None => (b, [])
  | Some (_, touchY) =>
      let now := ms_step p in
      if 180 <=? u32_sub now (lastStepMs b) then
        let new := brightness_step (gBl b) touchY in
        if negb (new =? gBl b) then
          let '(inited, ops) := backlightSetPercent BL_ACTIVE_HIGH new (bl_inited b) in
          (mkBrightness new (gBlSaved b) true (ms_touch p) now inited, ops)
        else
          (mkBrightness new (gBlSaved b) (gBlDirty b) (ms_touch p) now (bl_inited b), [])
      else
        (mkBrightness (gBl b) (gBlSaved b) (gBlDirty b) (ms_touch p) (lastStepMs b)
           (bl_inited b), [])
  end.

(** The second part: saving after five idle seconds. *)
Definition handle_save (p : TouchPoll) (b : Brightness) : Brightness * list HwOp :=
  if gBlDirty b then
    if BL_SAVE_IDLE_MS <=? u32_sub (ms_save p) (gLastTouchMs b) then
      if negb (gBl b =? gBlSaved b)
      then (mkBrightness (gBl b) (gBl b) false (gLastTouchMs b) (lastStepMs b)
              (bl_inited b), [PrefsPutBl (gBl b)])
      else (mkBrightness (gBl b) (gBlSaved b) false (gLastTouchMs b) (lastStepMs b)
              (bl_inited b), [])
    else (b, [])
  else (b, []).

Definition handleTouchBrightnessAndSave (p : TouchPoll) (b : Brightness)
    : Brightness * list HwOp :=
  let '(b1, ops1) := handle_touch p b in
  let '(b2, ops2) := handle_save p b1 in
  (b2, ops1 ++ ops2).

(** The globals after [setup]: the brightness read from the preferences
    is both the current and the saved value. *)
Definition Brightness_setup (stored : Z) : Brightness :=
  mkBrightness (u8 stored) (u8 stored) false 0 0 true.

(** The handler called again and again. *)
Definition run_touch (polls : list TouchPoll) (b : Brightness) : Brightness :=
  foldl (fun b p => fst (handleTouchBrightnessAndSave p b)) b polls.

(** A touch in the upper half of the screen, 200 ms after the previous
    step, then nothing for six seconds. *)
Definition touch_then_idle : list TouchPoll :=
  [mkTouchPoll (Some (240, 250)) 1000 1001 1002;
   mkTouchPoll None 7000 7000 7001].

(** ** The icon rasteriser *)

(** [tft.drawFastHLine (x, y, w, color)] *)
Inductive HLine : Type := DrawFastHLine (x y w : Z) (c : tft_color).

(** The pixel is painted by the line. *)
Definition hline_paints (px py : Z) (l : HLine) : Prop :=
  match l with
  | DrawFastHLine x y w _ => py = y /\ x <= px < x + w
  end.

Definition hline_width (l : HLine) : Z :=
  match l with DrawFastHLine _ _ w _ => w end.

(** The test of both scanning loops of [drawMask1bit_PROGMEM]: the bit of
    column [x] in row [y] of a mask of [stride] bytes a row, most
    significant bit first. [mask] gives the byte that [pgm_read_byte]
    reads at an offset from [maskProgmem]. *)
Definition mask_bit (mask : Z -> Z) (stride x y : Z) : bool :=
  let byteIndex := y * stride + Z.shiftr x 3 in
  let b := mask byteIndex in
  let bit := 7 - Z.land x 7 in
  negb (Z.land b (Z.shiftl 1 bit) =? 0).

(** [while (x < w) { if (on (x) == stop) break; x++; }]: at most [fuel]
    iterations; [w - x] are enough. *)
Fixpoint scan_until (fuel : nat) (on : Z -> bool) (stop : bool) (w x : Z) : Z :=
  match fuel with
  | O => x
  | S fuel' =>
      if x <? w
      then if Bool.eqb (on x) stop then x else scan_until fuel' on stop w (x + 1)
      else x
  end.

(** The loop [while (x < w)] over one row: the runs of set bits as pairs
    of a start column and a length. Every iteration moves [x] forward, so
    [w - x] iterations are enough. *)
Fixpoint row_runs (fuel : nat) (on : Z -> bool) (w x : Z) : list (Z * Z) :=
  match fuel with
  | O => []
  | S fuel' =>
      if x <? w then
        let x1 := scan_until (Z.to_nat (w - x)) on true w x in
        if w <=? x1 then []
        else
          let xStart := x1 in
          let x2 := scan_until (Z.to_nat (w - x1)) on false w x1 in
          (xStart, x2 - xStart) :: row_runs fuel' on w x2
      else []
  end.

Definition drawMask1bit_PROGMEM (x0 y0 : Z) (mask : Z -> Z) (w h stride : Z)
    (c : tft_color) : list HLine :=
  y ← seqZ 0 h;
  (fun run => DrawFastHLine (x0 + fst run) (y0 + y) (snd run) c)
    <$> row_runs (Z.to_nat w) (fun x => mask_bit mask stride x y) w 0.

(** [drawPlaneAtTopLeft]: the mask of the heading is found through the
    offset table; [plane32_masks] is the mask memory and [stride] the
    constant [plane32_stride] of the missing sprite header. [None] stands
    for a read outside the offset table. *)
Definition drawPlaneAtTopLeft (plane32_offset : list Z) (plane32_masks : Z -> Z)
    (stride : Z) (x0 y0 spriteHeadingDeg : Z) (c : tft_color) : option (list HLine) :=
  off ← planeMaskForHeading plane32_offset spriteHeadingDeg;
  Some (drawMask1bit_PROGMEM x0 y0 (fun k => plane32_masks (off + k)) PW PH stride c).

(** A 2-row mask of one byte a row: bits 0, 1 and 3 in the first row,
    bit 7 in the second. *)
Definition tiny_mask (k : Z) : Z :=
  if k =? 0 then 0xD0 else if k =? 1 then 0x01 else 0.

(** ** Wi-Fi connection ([HB9IIU_RobustWIfiConnection.h])

    The connection helper tries two configured networks.  A [const char*]
    is an optional C string ([None] is [nullptr]).  What the radio does is
    not in the code: the outcome of each connection attempt is read from
    [link], indexed by the number of attempts made before it, and the
    networks found by a scan are the list [nets] (SSID and RSSI of each
    entry, in scan order; a scan that fails or finds nothing is the empty
    list).  Serial output and delays are left out. *)
Definition WIFI_CYCLES : nat := 3.
Definition WIFI_MIN_RSSI_TO_TRY_DBM : Z := -95.

Record WifiCandidate : Type := mkWifiCandidate {
  ssid : option cstr;
  pass : option cstr;
  rssi : Z;
  present : bool
}.

Definition wifiIsEnabledSSID (s : option cstr) : bool :=
  match s with
  | Some (_ :: _) => true
  | _ => false
  end.

Definition wifiCandidateEnabled (c : WifiCandidate) : bool :=
  wifiIsEnabledSSID (ssid c).

(** The state the helper keeps: the global [g_connectedSSID], and the
    candidates handed to [WiFi.begin] so far, oldest first. *)
Record WifiState : Type := mkWifiState {
  g_connectedSSID : cstr;
  wifi_begun : list WifiCandidate
}.

(** [wifiTryConnectOne]: a disabled candidate is refused before the radio
    is touched; otherwise the attempt is made, and the polling loop ends
    either connected (the global is set) or at the timeout. *)
Definition wifiTryConnectOne (link : nat -> WifiCandidate -> bool)
    (c : WifiCandidate) (st : WifiState) : bool * WifiState :=
  if negb (wifiCandidateEnabled c) then (false, st)
  else
    let begun := wifi_begun st ++ [c] in
    if link (length (wifi_begun st)) c
    then (true, mkWifiState (default [] (ssid c)) begun)
    else (false, mkWifiState (g_connectedSSID st) begun).

(** The body of the inner scan loop for one candidate and one network. *)
Definition scan_mark (net : cstr * Z) (c : WifiCandidate) : WifiCandidate :=
  if negb (wifiCandidateEnabled c) then c
  else if bool_decide (ssid c = Some (fst net))
       then mkWifiCandidate (ssid c) (pass c) (snd net) true
       else c.

(** The scan loop over all networks found, for both candidates. *)
Definition scan_update (nets : list (cstr * Z))
    (cand : WifiCandidate * WifiCandidate) : WifiCandidate * WifiCandidate :=
  foldl (fun cd net => (scan_mark net (fst cd), scan_mark net (snd cd))) cand nets.

(** The [score] lambda. *)
Definition score (c : WifiCandidate) : Z :=
  if negb (wifiCandidateEnabled c) then -2000
  else if negb (present c) then -1000
  else rssi c.

(** The swap after the scan. *)
Definition order_candidates (cand : WifiCandidate * WifiCandidate)
    : WifiCandidate * WifiCandidate :=
  if score (snd cand) >? score (fst cand) then (snd cand, fst cand) else cand.

(** The inner loop of the connect cycles, over the candidates left in
    this cycle; [true] is the early [return true]. *)
Fixpoint try_each (link : nat -> WifiCandidate -> bool) (scanFirst : bool)
    (cs : list WifiCandidate) (st : WifiState) : bool * WifiState :=
  match cs with
  | [] => (false, st)
  | c :: cs' =>
      if negb (wifiCandidateEnabled c) then try_each link scanFirst cs' st
      else if scanFirst && present c && (rssi c <? WIFI_MIN_RSSI_TO_TRY_DBM)
      then try_each link scanFirst cs' st
      else
        let '(ok, st') := wifiTryConnectOne link c st in
        if ok then (true, st') else try_each link scanFirst cs' st'
  end.

(** The outer loop, with [cycles] cycles left. *)
Fixpoint connect_cycles (link : nat -> WifiCandidate -> bool) (scanFirst : bool)
    (cycles : nat) (cs : list WifiCandidate) (st : WifiState) : bool * WifiState :=
  match cycles with
  | O => (false, st)
  | S n =>
      let '(ok, st') := try_each link scanFirst cs st in
      if ok then (true, st') else connect_cycles link scanFirst n cs st'
  end.

(** [connectWiFiRobust], from the two configured networks. *)
Definition connectWiFiRobust (link : nat -> WifiCandidate -> bool)
    (nets : list (cstr * Z))
    (SSIDdefault PASSdefault SSIDalt PASSalt : option cstr)
    (scanFirst : bool) (st : WifiState) : bool * WifiState :=
  let st0 := mkWifiState [] (wifi_begun st) in
  let cand := (mkWifiCandidate SSIDdefault PASSdefault (-999) false,
               mkWifiCandidate SSIDalt PASSalt (-999) false) in
  if negb (wifiCandidateEnabled (fst cand)) && negb (wifiCandidateEnabled (snd cand))
  then (false, st0)
  else
    let cand := if scanFirst then order_candidates (scan_update nets cand) else cand in
    connect_cycles link scanFirst WIFI_CYCLES [fst cand; snd cand] st0.

Definition getConnectedSSID (st : WifiState) : cstr := g_connectedSSID st.

(** [HB9IIUWifiConnection]: the fast attempt, then the scan-based one if
    it failed.  The boolean is the local [ok] at the end. *)
Definition HB9IIUWifiConnection (link : nat -> WifiCandidate -> bool)
    (nets : list (cstr * Z))
    (SSIDdefault PASSdefault SSIDalt PASSalt : option cstr)
    (st : WifiState) : bool * WifiState :=
  let '(ok, st1) :=
    connectWiFiRobust link nets SSIDdefault PASSdefault SSIDalt PASSalt false st in
  if ok then (true, st1)
  else connectWiFiRobust link nets SSIDdefault PASSdefault SSIDalt PASSalt true st1.

(** The attempts a call added to the log. *)
Definition new_attempts (st st' : WifiState) : list WifiCandidate :=
  drop (length (wifi_begun st)) (wifi_begun st').

(** A candidate the connect cycles do not skip. *)
Definition eligible (scanFirst : bool) (c : WifiCandidate) : bool :=
  wifiCandidateEnabled c &&
  negb (scanFirst && present c && (rssi c <? WIFI_MIN_RSSI_TO_TRY_DBM)).

(** The candidates in the order [connectWiFiRobust] goes through them in
    each cycle. *)
Definition attempt_order (nets : list (cstr * Z))
    (SSIDdefault PASSdefault SSIDalt PASSalt : option cstr) (scanFirst : bool)
    : WifiCandidate * WifiCandidate :=
  let cand := (mkWifiCandidate SSIDdefault PASSdefault (-999) false,
               mkWifiCandidate SSIDalt PASSalt (-999) false) in
  if scanFirst then order_candidates (scan_update nets cand) else cand.

(** The candidates of the three cycles that are not skipped. *)
Definition attempt_schedule (scanFirst : bool) (cand : WifiCandidate * WifiCandidate)
    : list WifiCandidate :=
  filter (fun c => eligible scanFirst c = true)
    ([fst cand; snd cand] ++ [fst cand; snd cand] ++ [fst cand; snd cand]).

(** What a run through a schedule [sched] from state [st] with result [r]
    looks like: the attempts are a prefix of the schedule, every attempt
    but the last failed, the last one succeeded exactly when the result
    is [true], a failed run went through the whole schedule. *)
Definition tried_in_order (link : nat -> WifiCandidate -> bool)
    (sched : list WifiCandidate) (st : WifiState) (r : bool * WifiState) : Prop :=
  exists new,
    wifi_begun (snd r) = wifi_begun st ++ new /\
    new `prefix_of` sched /\
    (forall i c, new !! i = Some c ->
       link (length (wifi_begun st) + i)%nat c = fst r && bool_decide (S i = length new)) /\
    (fst r = false -> new = sched /\ g_connectedSSID (snd r) = g_connectedSSID st) /\
    (fst r = true -> exists c, last new = Some c /\ g_connectedSSID (snd r) = default [] (ssid c)).

(** The two networks of [Config.h], a scan that finds the alternative one
    twice, and a radio on which only the third attempt succeeds. *)
Definition config_default : option cstr := Some (list_ascii_of_string "NO WIFI FOR YOU!!!").
Definition config_alt : option cstr := Some (list_ascii_of_string "MESH").
Definition scan_two_mesh : list (cstr * Z) :=
  [(list_ascii_of_string "MESH", -50); (list_ascii_of_string "other", -40);
   (list_ascii_of_string "MESH", -80)].
Definition link_third (n : nat) (c : WifiCandidate) : bool := Nat.eqb n 2.
Definition wifi_start : WifiState := mkWifiState [] [].

(** A scan that finds both configured networks, the alternative one
    stronger; a radio on which no attempt succeeds. *)
Definition scan_both : list (cstr * Z) :=
  [(list_ascii_of_string "NO WIFI FOR YOU!!!", -70); (list_ascii_of_string "MESH", -60)].
Definition link_never (n : nat) (c : WifiCandidate) : bool := false.

(** ** The draw order as the specification words it *)

(** The order of the specification on the altitudes of the data model: an
    unknown altitude comes before every altitude, and known altitudes
    ascend. *)
Definition spec_altitude_before (a b : option Z) : Prop :=
  match a, b with
  | None, _ => True
  | Some _, None => False
  | Some x, Some y => x <= y
  end.

(** Two planes seen for the first time, the first 50 m below sea level,
    the second without an altitude; and two planes at 50 m and at 100 m
    below sea level. *)
Definition below_sea_then_unknown : list Observation :=
  [mkObservation (list_ascii_of_string "4b1a01") [] 100 100 0 (Some (-50)) 1000;
   mkObservation (list_ascii_of_string "4b1a02") [] 200 100 0 None 1000].

Definition below_sea_twice : list Observation :=
  [mkObservation (list_ascii_of_string "4b1a01") [] 100 100 0 (Some (-50)) 1000;
   mkObservation (list_ascii_of_string "4b1a02") [] 200 100 0 (Some (-100)) 1000].

(** ** Brightness: what reaches the preferences *)

(** The handler called again and again, with everything it sends to the
    backlight and to the preferences, in order. *)
Definition run_touch_log (polls : list TouchPoll) (b : Brightness)
    : Brightness * list HwOp :=
  foldl (fun s p =>
           (fst (handleTouchBrightnessAndSave p (fst s)),
            snd s ++ snd (handleTouchBrightnessAndSave p (fst s))))
        (b, []) polls.

(** What [prefs.getUChar (PREF_KEY_BL, HB9_BL_DEFAULT_PERCENT)] returns
    after a log: the [uint8_t] of the last [putUChar] of the log, or, when
    there is none, what it returned in [setup]. *)
Definition prefs_bl (stored : Z) (ops : list HwOp) : Z :=
  foldl (fun v op => match op with PrefsPutBl v' => u8 v' | _ => v end)
        (u8 stored) ops.

(** ** Rectangles in [int] arithmetic

    [rectClampToScreen] and [restoreBgRect] above take their sums in the
    integers. Here every [int] operation of the two functions is reduced
    to 32 bits; the two readings agree on the rectangles whose fields and
    corner sums are [int]s, which is where the C code does not overflow. *)
Definition in_int (z : Z) : Prop := - 2 ^ 31 <= z < 2 ^ 31.

Definition rect_fits (r : Rect) : Prop :=
  in_int (rect_x r) /\ in_int (rect_y r) /\ in_int (rect_w r) /\ in_int (rect_h r) /\
  in_int (rect_x r + rect_w r) /\ in_int (rect_y r + rect_h r).

Definition rectClampToScreen_int (r : Rect) : Rect :=
  let '(x, w) := if rect_x r <? 0 then (0, i32 (rect_w r + rect_x r))
                 else (rect_x r, rect_w r) in
  let '(y, h) := if rect_y r <? 0 then (0, i32 (rect_h r + rect_y r))
                 else (rect_y r, rect_h r) in
  let w := if SW <? i32 (x + w) then i32 (SW - x) else w in
  let h := if SH <? i32 (y + h) then i32 (SH - y) else h in
  let w := if w <? 0 then 0 else w in
  let h := if h <? 0 then 0 else h in
  mkRect x y w h.

(** The body that [restoreBgRect32] and [restoreBgRectWide] share. Each
    [PushBgRow x y w] stands for [memcpy_P (buf, src, w * sizeof
    (uint16_t))] into the line buffer of the function, followed by
    [pushImage (x, y, w, 1, buf)]: its width is the number of entries
    written to the buffer. *)
Definition restoreBgRect_int (x y w h : Z) : list DisplayOp :=
  let '(x, w) := if x <? 0 then (0, i32 (w + x)) else (x, w) in
  let '(y, h) := if y <? 0 then (0, i32 (h + y)) else (y, h) in
  let w := if SW <? i32 (x + w) then i32 (SW - x) else w in
  let h := if SH <? i32 (y + h) then i32 (SH - y) else h in
  if (w <=? 0) || (h <=? 0) then []
  else (fun row => PushBgRow x (i32 (y + row)) w) <$> rows h.

(** [lineBuf32[PW]] is the buffer of [restoreBgRect32], [lineBufWide[SW]]
    that of [restoreBgRectWide]. *)
Definition lineBuf32_len : Z := PW.
Definition lineBufWide_len : Z := SW.

(** The row does not write past the end of a line buffer of [len]
    entries. *)
Definition row_fits_buffer (len : Z) (op : DisplayOp) : Prop :=
  op_row_width op <= len.

(** ** The render cycle with its status bar *)

(** [updateBottomBar (drawIdx, nDraw)]: the line is formatted by
    [snprintf] from the counters of the last fetch and from distances in
    double precision; it is taken as given, [line], and handed to
    [drawBottomBarTextDiff]. *)
Definition updateBottomBar (line : list ascii) (bar : StatusLine)
    : StatusLine * list DisplayOp :=
  drawBottomBarTextDiff line bar.

(** The whole of [renderTracks]: the cycle modelled by [renderTracks]
    above, which stops before the status bar, followed by the call of
    [updateBottomBar]. [bar] is the state of the status line. *)
Definition renderTracks_bar (now : Z) (tracks : list Track) (line : list ascii)
    (bar : StatusLine) : RenderResult * StatusLine :=
  let r := renderTracks now tracks in
  let '(bar', ops) := updateBottomBar line bar in
  (mkRenderResult (render_tracks r) (render_ops r ++ ops) (render_dirty r), bar').




(** * Properties *)

(** ** Heading to sprite index *)

Lemma i32_small z : - 2 ^ 31 <= z < 2 ^ 31 -> i32 z = z.
Proof.
  intros Hz. unfold i32. rewrite Z.mod_small; lia.
Qed.

Lemma c_mod_360_bound z : -360 < c_mod z 360 < 360.
Proof.
  unfold c_mod. pose proof (Z.rem_bound_abs z 360). lia.
Qed.

Lemma c_mod_360_nonneg z : 0 <= z -> 0 <= c_mod z 360 < 360.
Proof.
  intros Hz. unfold c_mod. apply Z.rem_bound_pos; lia.
Qed.

Lemma wrap360_range deg : 0 <= wrap360 deg < 360.
Proof.
  unfold wrap360. pose proof (c_mod_360_bound deg) as Hb.
  destruct (Z.ltb_spec (c_mod deg 360) 0).
  - rewrite i32_small; lia.
  - lia.
Qed.

Lemma wrap360_id h : 0 <= h < 360 -> wrap360 h = h.
Proof.
  intros Hh. unfold wrap360, c_mod. rewrite Z.rem_small by lia.
  destruct (Z.ltb_spec h 0); [lia | reflexivity].
Qed.

(** Any orientation convention with a non-negative base offset keeps the
    index inside the table. *)
Lemma mapHeadingToSpriteWith_range ccw offset flip180 deg :
  0 <= offset < 2 ^ 31 - 360 ->
  0 <= mapHeadingToSpriteWith ccw offset flip180 deg < 360.
Proof.
  intros Hoff. unfold mapHeadingToSpriteWith.
  fold (wrap360 deg). pose proof (wrap360_range deg) as H0.
  set (h0 := wrap360 deg) in *.
  assert (H1 : 0 <= (if ccw then c_mod (i32 (360 - h0)) 360 else h0) < 360).
  { destruct ccw; [| exact H0].
    rewrite i32_small by lia. apply c_mod_360_nonneg. lia. }
  set (h1 := if ccw then _ else _) in *.
  assert (H2 : 0 <= c_mod (i32 (h1 + offset)) 360 < 360).
  { rewrite i32_small by lia. apply c_mod_360_nonneg. lia. }
  set (h2 := c_mod (i32 (h1 + offset)) 360) in *.
  destruct flip180; [| exact H2].
  rewrite i32_small by lia. apply c_mod_360_nonneg. lia.
Qed.

Lemma mapHeadingToSprite_range deg : 0 <= mapHeadingToSprite deg < 360.
Proof.
  apply mapHeadingToSpriteWith_range. unfold SPRITE_OFFSET_DEG. lia.
Qed.

Lemma array_read_in_bounds {A} (a : list A) (i : Z) :
  0 <= i < Z.of_nat (length a) -> is_Some (array_read a i).
Proof.
  intros Hi. unfold array_read.
  destruct (Z.leb_spec 0 i); [| lia].
  apply lookup_lt_is_Some. lia.
Qed.

(** C10: for every heading, of any sign and magnitude, the sprite index
    computed by [mapHeadingToSprite] lies in [0, 360); the normalisation
    of [planeMaskForHeading] leaves it as it is, and the read of the
    360-entry offset table is inside the table. *)
Theorem sprite_index_in_table (plane32_offset : list Z) (deg : Z) :
  length plane32_offset = 360%nat ->
  0 <= mapHeadingToSprite deg < 360 /\
  planeMaskIndex (mapHeadingToSprite deg) = mapHeadingToSprite deg /\
  is_Some (planeMaskForHeading plane32_offset (mapHeadingToSprite deg)).
Proof.
  intros Hlen. pose proof (mapHeadingToSprite_range deg) as Hr.
  split; [exact Hr |]. split.
  - unfold planeMaskIndex. apply wrap360_id, Hr.
  - unfold planeMaskForHeading. apply array_read_in_bounds.
    pose proof (wrap360_range (mapHeadingToSprite deg)).
    unfold planeMaskIndex. lia.
Qed.

Lemma sprite_index_in_table_witness :
  length (replicate 360 0) = 360%nat /\
  0 <= mapHeadingToSprite (-725) < 360 /\
  planeMaskIndex (mapHeadingToSprite (-725)) = mapHeadingToSprite (-725) /\
  is_Some (planeMaskForHeading (replicate 360 0) (mapHeadingToSprite (-725))).
Proof.
  split; [reflexivity |].
  apply (sprite_index_in_table (replicate 360 0) (-725)). reflexivity.
Defined.

Example mapHeadingToSprite_examples :
  mapHeadingToSprite 0 = 0 /\ mapHeadingToSprite 90 = 270 /\
  mapHeadingToSprite (-725) = 5 /\ mapHeadingToSprite (-2147483648) = 128.
Proof. repeat split; reflexivity. Qed.

(** ** Altitude colour *)

(** C4, as stated, fails: an altitude of 50 m below sea level is a known
    altitude, and the sketch colours it as unknown, not as the lowest band. *)
Lemma altitude_color_below_sea_level :
  colorFromAltitudeM (encode_altitude (Some (-50))) = ALT_COLOR_UNKNOWN /\
  spec_altitude_color (Some (-50)) = ALT_COLOR_L1 /\
  colorFromAltitudeM (encode_altitude (Some (-50))) <> spec_altitude_color (Some (-50)).
Proof. repeat split; try reflexivity. discriminate. Qed.

(** C4, amended: the colour is the step function of the stored value in
    which every negative value, the sentinel [-1] or any other, is the
    unknown colour, and the bands are [0, 1000), [1000, 5000),
    [5000, 9000) and [9000, ...). *)
Theorem altitude_color_bands (alt_m : Z) :
  (colorFromAltitudeM alt_m = ALT_COLOR_UNKNOWN <-> alt_m < 0) /\
  (colorFromAltitudeM alt_m = ALT_COLOR_L1 <-> 0 <= alt_m < 1000) /\
  (colorFromAltitudeM alt_m = ALT_COLOR_L2 <-> 1000 <= alt_m < 5000) /\
  (colorFromAltitudeM alt_m = ALT_COLOR_L3 <-> 5000 <= alt_m < 9000) /\
  (colorFromAltitudeM alt_m = ALT_COLOR_L4 <-> 9000 <= alt_m).
Proof.
  unfold colorFromAltitudeM, ALT_L1_M, ALT_L2_M, ALT_L3_M.
  destruct (Z.ltb_spec alt_m 0); [| destruct (Z.ltb_spec alt_m 1000);
    [| destruct (Z.ltb_spec alt_m 5000); [| destruct (Z.ltb_spec alt_m 9000)]]];
  repeat split; intros; try discriminate; try lia; reflexivity.
Qed.

(** On known altitudes that are not negative, the sketch and the
    specification agree. *)
Lemma altitude_color_agrees (a : option Z) :
  (forall m, a = Some m -> 0 <= m) ->
  colorFromAltitudeM (encode_altitude a) = spec_altitude_color a.
Proof.
  intros Hpos. destruct a as [m |]; [| reflexivity].
  specialize (Hpos m eq_refl). simpl. unfold colorFromAltitudeM.
  destruct (Z.ltb_spec m 0); [lia | reflexivity].
Qed.

(** ** Projection: the bounds test *)

(** C3, as stated, fails: a point 20 pixels left of the canvas is further
    out than half an icon (16 pixels) and is accepted. *)
Lemma half_extent_point_accepted :
  beyond_half_extent (-20) 100 /\
  latlon_to_screen_xy (fun p : Z * Z => p) (-20, 100) = (true, (-20, 100)).
Proof.
  split; [| reflexivity]. left. vm_compute. reflexivity.
Qed.

(** C3, amended: the projection hands back the rounded device-pixel
    coordinates, and reports out-of-bounds exactly when the point lies
    further than a whole icon (the icon width horizontally, the icon
    height vertically) outside the canvas on some side. *)
Theorem projection_bounds_full_extent {geo : Type} (rounded_px : geo -> Z * Z)
    (p : geo) :
  snd (latlon_to_screen_xy rounded_px p) = rounded_px p /\
  (fst (latlon_to_screen_xy rounded_px p) = false <->
   beyond_full_extent (fst (rounded_px p)) (snd (rounded_px p))).
Proof.
  unfold latlon_to_screen_xy, beyond_full_extent.
  destruct (rounded_px p) as [sx sy]. simpl.
  destruct (Z.ltb_spec sx (- PW)), (Z.ltb_spec (SW + PW) sx),
    (Z.ltb_spec sy (- PH)), (Z.ltb_spec (SH + PH) sy); simpl;
    (split; [reflexivity |]); split; intros; try discriminate;
    try reflexivity; try lia; auto.
Qed.

(** ** Rectangles and the merge loop *)

Lemma rectIntersects_true a b :
  rectIntersects a b = true <->
  rect_x b < rect_x a + rect_w a /\ rect_x a < rect_x b + rect_w b /\
  rect_y b < rect_y a + rect_h a /\ rect_y a < rect_y b + rect_h b.
Proof.
  unfold rectIntersects. rewrite negb_true_iff, !orb_false_iff, !Z.leb_gt. tauto.
Qed.

Lemma rectIntersects_sym a b : rectIntersects a b = rectIntersects b a.
Proof.
  apply eq_true_iff_eq. rewrite !rectIntersects_true. tauto.
Qed.

(** For rectangles that are not empty, as all those of the dirty set are,
    intersecting means sharing a pixel. *)
Lemma rectIntersects_pixel a b :
  0 < rect_w a -> 0 < rect_h a -> 0 < rect_w b -> 0 < rect_h b ->
  rectIntersects a b = true <-> exists px py, in_rect px py a /\ in_rect px py b.
Proof.
  intros Hwa Hha Hwb Hhb.
  rewrite rectIntersects_true. unfold in_rect. split.
  - intros H. exists (Z.max (rect_x a) (rect_x b)), (Z.max (rect_y a) (rect_y b)). lia.
  - intros (px & py & Ha & Hb). lia.
Qed.

Lemma touching_edge_disjoint a b :
  touching_edge a b -> rectIntersects a b = false.
Proof.
  intros Ht. apply not_true_is_false. rewrite rectIntersects_true.
  unfold touching_edge in Ht. lia.
Qed.

Lemma remove_at_swap_last_length j (dirty : list Rect) :
  length (remove_at_swap_last j dirty) = (length dirty - 1)%nat.
Proof.
  unfold remove_at_swap_last. destruct (last dirty) as [r |] eqn:Hl.
  - rewrite length_take, length_insert. lia.
  - apply last_None in Hl. subst dirty. reflexivity.
Qed.

(** Fuel beyond [nDirty - j] changes nothing: the inner loop is not cut
    short by the iteration count it is given. *)
Lemma merge_inner_fuel f1 : forall f2 i j (dirty : list Rect),
  (length dirty - j <= f1)%nat -> (length dirty - j <= f2)%nat ->
  merge_inner f1 i j dirty = merge_inner f2 i j dirty.
Proof.
  induction f1 as [| f1 IH]; intros f2 i j dirty H1 H2.
  - destruct f2 as [| f2]; [reflexivity |]. simpl.
    destruct (Nat.ltb_spec j (length dirty)); [lia | reflexivity].
  - destruct f2 as [| f2]; simpl.
    + destruct (Nat.ltb_spec j (length dirty)); [lia | reflexivity].
    + destruct (Nat.ltb_spec j (length dirty)); [| reflexivity].
      destruct (dirty !! i) as [ri |]; [| reflexivity].
      destruct (dirty !! j) as [rj |]; [| reflexivity].
      destruct (rectIntersects ri rj).
      * apply IH; rewrite remove_at_swap_last_length, length_insert; lia.
      * apply IH; lia.
Qed.

Lemma merge_inner_length fuel : forall i j (dirty : list Rect),
  (length (merge_inner fuel i j dirty) <= length dirty)%nat.
Proof.
  induction fuel as [| fuel IH]; intros i j dirty; simpl; [lia |].
  destruct (j <? length dirty)%nat; [| lia].
  destruct (dirty !! i) as [ri |]; [| lia].
  destruct (dirty !! j) as [rj |]; [| lia].
  destruct (rectIntersects ri rj).
  - etransitivity; [apply IH |].
    rewrite remove_at_swap_last_length, length_insert. lia.
  - apply IH.
Qed.

(** Likewise for the outer loop: [nDirty - i] iterations are enough. *)
Lemma merge_outer_fuel f1 : forall f2 i (dirty : list Rect),
  (length dirty - i <= f1)%nat -> (length dirty - i <= f2)%nat ->
  merge_outer f1 i dirty = merge_outer f2 i dirty.
Proof.
  induction f1 as [| f1 IH]; intros f2 i dirty H1 H2.
  - destruct f2 as [| f2]; [reflexivity |]. simpl.
    destruct (Nat.ltb_spec i (length dirty)); [lia | reflexivity].
  - destruct f2 as [| f2]; simpl.
    + destruct (Nat.ltb_spec i (length dirty)); [lia | reflexivity].
    + destruct (Nat.ltb_spec i (length dirty)); [| reflexivity].
      pose proof (merge_inner_length (length dirty - S i) i (S i) dirty).
      apply IH; lia.
Qed.

(** A pair that shares a pixel is replaced by its clamped bounding union. *)
Lemma mergeDirty_pair_intersecting a b :
  rectIntersects a b = true ->
  mergeDirty [a; b] = [rectClampToScreen (rectUnion a b)].
Proof.
  intros Hi. unfold mergeDirty. cbn. rewrite Hi. reflexivity.
Qed.

(** C2, as stated, fails: two 32x32 rectangles side by side, the second
    starting at the column where the first ends, are not intersecting
    for the sketch, and the merge step keeps both instead of their union. *)
Lemma touching_pair_not_merged :
  let a := mkRect 100 100 32 32 in
  let b := mkRect 132 100 32 32 in
  touching_edge a b /\
  rectIntersects a b = false /\
  mergeDirty [a; b] = [a; b] /\
  mergeDirty [a; b] <> [rectClampToScreen (rectUnion a b)].
Proof.
  cbv zeta. split; [| split; [| split]].
  - left. vm_compute. repeat split; reflexivity.
  - reflexivity.
  - reflexivity.
  - discriminate.
Qed.

(** C2, amended: a pair of rectangles that only touch along an edge (one
    ends exactly where the other begins) is not intersecting for the merge
    step, in either order, and the merge leaves both in the dirty set. *)
Theorem touching_edge_not_merged (a b : Rect) :
  touching_edge a b ->
  rectIntersects a b = false /\ rectIntersects b a = false /\
  mergeDirty [a; b] = [a; b] /\ mergeDirty [b; a] = [b; a].
Proof.
  intros Ht. pose proof (touching_edge_disjoint a b Ht) as Hab.
  assert (Hba : rectIntersects b a = false) by (rewrite rectIntersects_sym; exact Hab).
  repeat split; try assumption.
  - unfold mergeDirty. cbn. rewrite Hab. reflexivity.
  - unfold mergeDirty. cbn. rewrite Hba. reflexivity.
Qed.

Lemma touching_edge_not_merged_witness :
  touching_edge (mkRect 100 100 32 32) (mkRect 132 100 32 32) /\
  rectIntersects (mkRect 100 100 32 32) (mkRect 132 100 32 32) = false /\
  rectIntersects (mkRect 132 100 32 32) (mkRect 100 100 32 32) = false /\
  mergeDirty [mkRect 100 100 32 32; mkRect 132 100 32 32]
    = [mkRect 100 100 32 32; mkRect 132 100 32 32] /\
  mergeDirty [mkRect 132 100 32 32; mkRect 100 100 32 32]
    = [mkRect 132 100 32 32; mkRect 100 100 32 32].
Proof.
  assert (Ht : touching_edge (mkRect 100 100 32 32) (mkRect 132 100 32 32)).
  { left. simpl. lia. }
  split; [exact Ht |].
  exact (touching_edge_not_merged _ _ Ht).
Defined.

(** The scenario of the specification: a plane drawn at (100,100) that
    moved to (110,100) gives two rectangles that share pixels, and the
    merge leaves their union (100,100,42,32). *)
Example moved_plane_merges :
  mergeDirty [mkRect 100 100 32 32; mkRect 110 100 32 32] = [mkRect 100 100 42 32].
Proof. reflexivity. Qed.

(** C1 fails on the code: the merge loop makes one pass, and a rectangle
    that was compared with [dirty[i]] before [dirty[i]] grew is not
    compared again. With the three planes above the merged dirty set of
    the cycle is the union of the first and the third rectangle together
    with the second one, and these two intersect. *)
Theorem merge_leaves_intersecting_pair :
  length three_planes = MAX_TRACKS /\
  dirty_candidates three_planes (buildDrawList 1500 MAX_DRAW three_planes)
    = [mkRect 100 100 32 32; mkRect 132 99 32 32; mkRect 131 131 32 32] /\
  render_dirty (renderTracks 1500 three_planes)
    = [mkRect 100 100 63 63; mkRect 132 99 32 32] /\
  rectIntersects (mkRect 100 100 63 63) (mkRect 132 99 32 32) = true /\
  ~ pairwise_disjoint (render_dirty (renderTracks 1500 three_planes)).
Proof.
  assert (Hd : render_dirty (renderTracks 1500 three_planes)
               = [mkRect 100 100 63 63; mkRect 132 99 32 32])
    by (vm_compute; reflexivity).
  split; [reflexivity |]. split; [vm_compute; reflexivity |].
  split; [exact Hd |]. split; [reflexivity |].
  rewrite Hd. intros Hdis.
  specialize (Hdis 0%nat 1%nat _ _ ltac:(lia) eq_refl eq_refl).
  discriminate Hdis.
Qed.

(** ** The status line *)

Lemma c_str_no_NUL buf : NUL ∉ c_str buf.
Proof.
  induction buf as [| c rest IH]; simpl.
  - apply not_elem_of_nil.
  - destruct (decide (c = NUL)) as [| Hc]; [apply not_elem_of_nil |].
    apply not_elem_of_cons. split; [congruence | exact IH].
Qed.

Lemma rendered_no_NUL text : NUL ∉ rendered text.
Proof.
  unfold rendered. intros Hin. apply (c_str_no_NUL text).
  eapply subseteq_take, Hin.
Qed.

Lemma rendered_length text : (length (rendered text) <= 95)%nat.
Proof. unfold rendered. rewrite length_take. lia. Qed.

(** A text that fits the 96-byte buffer is rendered whole. *)
Lemma rendered_fits text :
  NUL ∉ text -> (length text <= 95)%nat -> rendered text = text.
Proof.
  intros Hn Hl. unfold rendered.
  assert (Hc : c_str text = text).
  { clear Hl. induction text as [| c rest IH]; simpl; [reflexivity |].
    apply not_elem_of_cons in Hn as [Hc Hrest].
    destruct (decide (c = NUL)); [congruence |]. f_equal. apply IH, Hrest. }
  rewrite Hc. apply take_ge. exact Hl.
Qed.







(** Whatever the state, a call leaves the rendered text as the previous
    string. *)
Lemma drawBottomBarTextDiff_state text st :
  fst (drawBottomBarTextDiff text st) = mkStatusLine (rendered text) true.
Proof.
  unfold drawBottomBarTextDiff. destruct (negb (bottomHasPrev st)); reflexivity.
Qed.

(** The first call paints the whole strip and the whole string. *)
Lemma drawBottomBarTextDiff_first text :
  snd (drawBottomBarTextDiff text StatusLine_init) =
  [FillRect 0 302 480 18 TFT_BLACK;
   DrawString (rendered text) 25 309 TFT_WHITE TFT_BLACK].
Proof. reflexivity. Qed.


(** The example of the specification: from "Tot 5 Pos 3" to "Tot 6 Pos 3"
    the cell of the fifth character is the only one painted. *)
Example status_line_tot5_tot6 :
  snd (drawBottomBarTextDiff (list_ascii_of_string "Tot 6 Pos 3")
         (fst (drawBottomBarTextDiff (list_ascii_of_string "Tot 5 Pos 3")
                 StatusLine_init))) =
  [DrawString ["5"%char] (cell_x 4) yText TFT_BLACK TFT_BLACK;
   DrawString ["6"%char] (cell_x 4) yText TFT_WHITE TFT_BLACK].
Proof. reflexivity. Qed.

(** A longer new string: the cells past the end of the old one are drawn
    without an erase; a shorter one: they are erased without a draw. *)
Example status_line_lengths :
  snd (drawBottomBarTextDiff (list_ascii_of_string "ab12")
         (mkStatusLine (list_ascii_of_string "ab") true)) =
  [DrawString ["1"%char] (cell_x 2) yText TFT_WHITE TFT_BLACK;
   DrawString ["2"%char] (cell_x 3) yText TFT_WHITE TFT_BLACK] /\
  snd (drawBottomBarTextDiff (list_ascii_of_string "ab")
         (mkStatusLine (list_ascii_of_string "ab12") true)) =
  [DrawString ["1"%char] (cell_x 2) yText TFT_BLACK TFT_BLACK;
   DrawString ["2"%char] (cell_x 3) yText TFT_BLACK TFT_BLACK].
Proof. split; reflexivity. Qed.

(** ** Expiry *)

Lemma expireOldTracks_fst now tracks :
  fst (expireOldTracks now tracks) = (fun t => fst (expire_slot now t)) <$> tracks.
Proof.
  induction tracks as [| t rest IH]; simpl; [reflexivity |].
  destruct (expire_slot now t) as [t' ops].
  destruct (expireOldTracks now rest) as [rest' ops']. simpl in *.
  rewrite IH. reflexivity.
Qed.

Lemma expireOldTracks_snd now tracks :
  snd (expireOldTracks now tracks) = t ← tracks; snd (expire_slot now t).
Proof.
  induction tracks as [| t rest IH]; simpl; [reflexivity |].
  destruct (expire_slot now t) as [t' ops].
  destruct (expireOldTracks now rest) as [rest' ops']. simpl in *.
  rewrite IH. reflexivity.
Qed.

Lemma expireOldTracks_length now tracks :
  length (fst (expireOldTracks now tracks)) = length tracks.
Proof. rewrite expireOldTracks_fst. apply length_fmap. Qed.

(** Every on-screen pixel of the rectangle is restored. *)
Lemma restoreBgRect_covers x y w h px py :
  on_screen px py -> in_rect px py (mkRect x y w h) ->
  restored px py (restoreBgRect x y w h).
Proof.
  unfold on_screen, in_rect, restored, restoreBgRect, SW, SH. simpl.
  intros [Hx Hy] [Hrx Hry].
  set (xw := if x <? 0 then (0, w + x) else (x, w)).
  assert (Hxw : fst xw <= px < fst xw + snd xw /\ 0 <= fst xw).
  { unfold xw. destruct (Z.ltb_spec x 0); simpl; lia. }
  destruct xw as [x' w1]. simpl in Hxw.
  set (yh := if y <? 0 then (0, h + y) else (y, h)).
  assert (Hyh : fst yh <= py < fst yh + snd yh /\ 0 <= fst yh).
  { unfold yh. destruct (Z.ltb_spec y 0); simpl; lia. }
  destruct yh as [y' h1]. simpl in Hyh.
  set (w2 := if 480 <? x' + w1 then 480 - x' else w1).
  assert (Hw2 : px < x' + w2) by (unfold w2; destruct (Z.ltb_spec 480 (x' + w1)); lia).
  set (h2 := if 320 <? y' + h1 then 320 - y' else h1).
  assert (Hh2 : py < y' + h2) by (unfold h2; destruct (Z.ltb_spec 320 (y' + h1)); lia).
  destruct (Z.leb_spec w2 0); [lia |].
  destruct (Z.leb_spec h2 0); [lia |]. simpl.
  apply Exists_exists. exists (PushBgRow x' (y' + (py - y')) w2). split.
  - apply list_elem_of_fmap. exists (py - y'). split; [reflexivity |].
    unfold rows. apply elem_of_seqZ. lia.
  - simpl. lia.
Qed.

Lemma expire_slot_kept now t :
  expired now t = false -> expire_slot now t = (t, []).
Proof. intros He. unfold expire_slot. rewrite He. reflexivity. Qed.

Lemma expire_slot_freed now t :
  expired now t = true ->
  used (fst (expire_slot now t)) = false /\
  drawn (fst (expire_slot now t)) = false /\
  (drawn t = true ->
   snd (expire_slot now t) = restoreBgRect32 (oldDrawX t) (oldDrawY t) PW PH).
Proof.
  intros He. unfold expire_slot, eraseTrackIfDrawn. rewrite He.
  destruct (drawn t) eqn:Hd; simpl; repeat split; try reflexivity; try assumption.
  discriminate.
Qed.

Lemma expired_iff now t :
  expired now t = true <->
  used t = true /\ TRACK_TTL_MS < u32_sub now (lastUpdateMs t).
Proof.
  unfold expired. rewrite andb_true_iff, Z.ltb_lt. tauto.
Qed.

(** C7, as stated, fails: the plane of [stale_table] is live, drawn and
    20 s old at the cycle that starts at 20000 ms; it is freed, its
    rectangle is restored on the display at once, and the dirty set of that
    cycle is empty: the rectangle is not in it. *)
Lemma expired_rect_not_in_dirty_set :
  stale_table !! 0%nat = Some stale_drawn_plane /\
  used stale_drawn_plane = true /\ drawn stale_drawn_plane = true /\
  TRACK_TTL_MS < u32_sub 20000 (lastUpdateMs stale_drawn_plane) /\
  (used <$> fst (expireOldTracks 20000 stale_table) !! 0%nat) = Some false /\
  dirty_candidates (fst (expireOldTracks 20000 stale_table))
    (buildDrawList 20000 MAX_DRAW (fst (expireOldTracks 20000 stale_table))) = [] /\
  render_dirty (renderTracks 20000 stale_table) = [] /\
  trackRectOld stale_drawn_plane ∉ render_dirty (renderTracks 20000 stale_table).
Proof.
  assert (Hd : render_dirty (renderTracks 20000 stale_table) = [])
    by (vm_compute; reflexivity).
  repeat split; try reflexivity; try (vm_compute; reflexivity).
  rewrite Hd. apply not_elem_of_nil.
Qed.

(** Slots not in use are left as they are. *)
Lemma expire_unused_unchanged now tracks i t :
  tracks !! i = Some t -> used t = false ->
  fst (expireOldTracks now tracks) !! i = Some t.
Proof.
  intros Hi Hu. rewrite expireOldTracks_fst, list_lookup_fmap, Hi. simpl.
  rewrite expire_slot_kept; [reflexivity |].
  unfold expired. rewrite Hu. reflexivity.
Qed.

(** On the two-plane table: the stale plane is freed and its 32 rows are
    restored, the fresh one is left alone. *)
Example expire_two_planes :
  fst (expireOldTracks 20000 stale_and_fresh_table) !! 0%nat
    = Some (set_used false (set_drawn false stale_drawn_plane)) /\
  fst (expireOldTracks 20000 stale_and_fresh_table) !! 1%nat = Some fresh_plane /\
  snd (expireOldTracks 20000 stale_and_fresh_table)
    = (fun row => PushBgRow 100 (100 + row) 32) <$> seqZ 0 32.
Proof. repeat split; vm_compute; reflexivity. Qed.

(** ** Slot allocation *)

(** The minimum scan: either no slot is older than [oldest] and the
    index is unchanged, or the result is the position of a slot that is
    older than [oldest] and not younger than any slot. *)
Lemma oldest_scan_spec ts : forall i oldest idx,
  (oldest_scan ts i oldest idx = idx /\
   Forall (fun t => oldest <= lastUpdateMs t) ts) \/
  (exists k t, oldest_scan ts i oldest idx = (i + k)%nat /\
               ts !! k = Some t /\ lastUpdateMs t < oldest /\
               Forall (fun t' => lastUpdateMs t <= lastUpdateMs t') ts).
Proof.
  induction ts as [| t rest IH]; intros i oldest idx; simpl.
  - left. split; [reflexivity | constructor].
  - destruct (Z.ltb_spec (lastUpdateMs t) oldest) as [Hlt | Hge].
    + right. destruct (IH (S i) (lastUpdateMs t) i) as [[Hr Hall] | (k & t' & Hr & Hk & Hlt' & Hall)].
      * exists 0%nat, t. rewrite Hr. split; [lia |]. split; [reflexivity |].
        split; [exact Hlt |]. constructor; [lia | exact Hall].
      * exists (S k), t'. rewrite Hr. split; [lia |]. split; [exact Hk |].
        split; [lia |]. constructor; [lia | exact Hall].
    + destruct (IH (S i) oldest idx) as [[Hr Hall] | (k & t' & Hr & Hk & Hlt' & Hall)].
      * left. split; [exact Hr |]. constructor; assumption.
      * right. exists (S k), t'. rewrite Hr. split; [lia |]. split; [exact Hk |].
        split; [exact Hlt' |]. constructor; [lia | exact Hall].
Qed.

(** With a free slot, the first free slot is taken. *)
Lemma allocTrackSlot_free tracks i t :
  tracks !! i = Some t -> used t = false ->
  (forall j t', tracks !! j = Some t' -> (j < i)%nat -> used t' = true) ->
  allocTrackSlot tracks = i.
Proof.
  intros Hi Hu Hfirst. unfold allocTrackSlot.
  assert (Hf : list_find (fun t => used t = false) tracks = Some (i, t)).
  { apply list_find_Some. split; [exact Hi |]. split; [exact Hu |].
    intros j t' Hj Hlt. rewrite (Hfirst j t' Hj Hlt). discriminate. }
  rewrite Hf. reflexivity.
Qed.

(** With every slot in use, the slot returned holds the smallest
    [lastUpdateMs] of the table. *)
Lemma allocTrackSlot_full tracks :
  tracks <> [] ->
  Forall (fun t => used t = true /\ 0 <= lastUpdateMs t <= UINT32_MAX) tracks ->
  exists victim,
    tracks !! allocTrackSlot tracks = Some victim /\
    Forall (fun t => lastUpdateMs victim <= lastUpdateMs t) tracks.
Proof.
  intros Hne Hall. unfold allocTrackSlot.
  assert (Hf : list_find (fun t => used t = false) tracks = None).
  { apply list_find_None. eapply Forall_impl; [exact Hall |].
    intros t [Hu _]. simpl. rewrite Hu. discriminate. }
  rewrite Hf.
  destruct (oldest_scan_spec tracks 0 UINT32_MAX 0)
    as [[Hr Hmin] | (k & t & Hr & Hk & _ & Hmin)]; rewrite Hr.
  - destruct tracks as [| t0 rest]; [congruence |].
    exists t0. split; [reflexivity |].
    apply Forall_forall. intros t Hin.
    rewrite Forall_forall in Hall, Hmin.
    pose proof (Hall t0 ltac:(left)) as [_ H0].
    pose proof (Hmin t Hin). lia.
  - exists t. split; [exact Hk | exact Hmin].
Qed.

Lemma hex_matches_stored key t :
  used t = true -> hex t = take 6 key -> hex_matches key t = true.
Proof.
  intros Hu Hh. unfold hex_matches, strncmp_eq. rewrite Hu, Hh, take_idemp.
  simpl. apply bool_decide_eq_true_2. reflexivity.
Qed.

(** C6: with every slot of the table in use and an identity that is not
    in the table, the upsert takes a slot whose [lastUpdateMs] is the
    smallest of the whole table and completes: the table keeps its size and
    differs in that slot only, which now holds the new identity, live, with
    the time of the update; the identity is found there afterwards. *)
Theorem upsert_full_table_recycles_oldest (o : Observation) (tracks : list Track) :
  length tracks = MAX_TRACKS ->
  Forall (fun t => used t = true /\ 0 <= lastUpdateMs t <= UINT32_MAX) tracks ->
  findTrackByHex (obs_hex o) tracks = None ->
  exists victim t',
    tracks !! allocTrackSlot tracks = Some victim /\
    Forall (fun t => lastUpdateMs victim <= lastUpdateMs t) tracks /\
    fst (upsert o tracks) = <[allocTrackSlot tracks := t']> tracks /\
    used t' = true /\ hex t' = take 6 (obs_hex o) /\
    lastUpdateMs t' = obs_millis o /\
    length (fst (upsert o tracks)) = MAX_TRACKS /\
    findTrackByHex (obs_hex o) (fst (upsert o tracks)) = Some (allocTrackSlot tracks).
Proof.
  intros Hlen Hall Hnone.
  assert (Hne : tracks <> []) by (intros ->; discriminate Hlen).
  destruct (allocTrackSlot_full tracks Hne Hall) as (victim & Hv & Hmin).
  set (idx := allocTrackSlot tracks) in *.
  unfold upsert. rewrite Hnone. fold idx. rewrite Hv.
  destruct (if used victim && negb (strncmp_eq 6 (hex victim) (obs_hex o))
            then eraseTrackIfDrawn victim else (victim, [])) as [t1 ops] eqn:He.
  simpl. eexists victim, _. split; [reflexivity |]. split; [exact Hmin |].
  split; [reflexivity |]. simpl. repeat split.
  - rewrite length_insert. exact Hlen.
  - unfold findTrackByHex in *.
    apply fmap_None in Hnone. apply list_find_None in Hnone.
    match goal with
    | |- context [ <[idx := ?t]> tracks ] => set (t2 := t)
    end.
    assert (Hf : list_find (fun t => hex_matches (obs_hex o) t = true)
                   (<[idx := t2]> tracks) = Some (idx, t2)).
    { apply list_find_Some. split; [| split].
      - apply list_lookup_insert_eq. eapply lookup_lt_Some, Hv.
      - apply hex_matches_stored; reflexivity.
      - intros j y Hj Hlt. rewrite list_lookup_insert_ne in Hj by lia.
        rewrite Forall_forall in Hnone. apply Hnone.
        eapply list_elem_of_lookup_2, Hj. }
    rewrite Hf. reflexivity.
Qed.

Lemma upsert_full_table_recycles_oldest_witness :
  allocTrackSlot full_table = 193%nat /\
  exists victim t',
    full_table !! allocTrackSlot full_table = Some victim /\
    Forall (fun t => lastUpdateMs victim <= lastUpdateMs t) full_table /\
    fst (upsert new_plane full_table) = <[allocTrackSlot full_table := t']> full_table /\
    used t' = true /\ hex t' = take 6 (obs_hex new_plane) /\
    lastUpdateMs t' = obs_millis new_plane /\
    length (fst (upsert new_plane full_table)) = MAX_TRACKS /\
    findTrackByHex (obs_hex new_plane) (fst (upsert new_plane full_table))
      = Some (allocTrackSlot full_table).
Proof.
  split; [vm_compute; reflexivity |].
  apply (upsert_full_table_recycles_oldest new_plane full_table).
  - reflexivity.
  - apply (bool_decide_unpack _). vm_compute. exact I.
  - vm_compute. reflexivity.
Defined.

(** ** One live slot per identity *)

Lemma hex_matches_true key t :
  hex_matches key t = true <-> used t = true /\ take 6 (hex t) = take 6 key.
Proof.
  unfold hex_matches, strncmp_eq.
  rewrite andb_true_iff, bool_decide_eq_true. tauto.
Qed.

Lemma unique_live_init : unique_live tracks_init.
Proof.
  intros i j ti tj Hi _ Hu _ _. unfold tracks_init in Hi.
  apply lookup_replicate in Hi as [-> _]. discriminate Hu.
Qed.

(** Writing identity [key] into slot [idx] keeps the table free of
    duplicates when no other live slot holds [key]. *)
Lemma unique_live_insert tracks idx key t2 :
  unique_live tracks ->
  hex t2 = take 6 key ->
  (forall j tj, j <> idx -> tracks !! j = Some tj -> hex_matches key tj = false) ->
  unique_live (<[idx := t2]> tracks).
Proof.
  intros Huniq Hhex Hother i j ti tj Hi Hj Hui Huj Heq.
  destruct (decide (i = idx)) as [-> | Hni], (decide (j = idx)) as [-> | Hnj];
    [reflexivity | | |].
  - exfalso. rewrite list_lookup_insert_ne in Hj by congruence.
    apply list_lookup_insert_Some in Hi as [(_ & -> & _) | (? & _)]; [| congruence].
    pose proof (Hother j tj Hnj Hj) as Hno.
    apply not_true_iff_false in Hno. apply Hno, hex_matches_true.
    split; [exact Huj |]. rewrite <- Heq, Hhex. apply take_idemp.
  - exfalso. rewrite list_lookup_insert_ne in Hi by congruence.
    apply list_lookup_insert_Some in Hj as [(_ & -> & _) | (? & _)]; [| congruence].
    pose proof (Hother i ti Hni Hi) as Hno.
    apply not_true_iff_false in Hno. apply Hno, hex_matches_true.
    split; [exact Hui |]. rewrite Heq, Hhex. apply take_idemp.
  - rewrite list_lookup_insert_ne in Hi by congruence.
    rewrite list_lookup_insert_ne in Hj by congruence.
    exact (Huniq i j ti tj Hi Hj Hui Huj Heq).
Qed.

Lemma upsert_unique_live o tracks :
  unique_live tracks -> unique_live (fst (upsert o tracks)).
Proof.
  intros Huniq. unfold upsert.
  destruct (findTrackByHex (obs_hex o) tracks) as [idx |] eqn:Hfind.
  - unfold findTrackByHex in Hfind.
    apply fmap_Some in Hfind as ([i t] & Hf & ->). simpl.
    apply list_find_Some in Hf as (Hi & Hm & _). rewrite Hi.
    destruct (if used t && negb (strncmp_eq 6 (hex t) (obs_hex o))
              then eraseTrackIfDrawn t else (t, [])) as [t1 ops].
    simpl. apply (unique_live_insert tracks i (obs_hex o)); [exact Huniq | reflexivity |].
    intros j tj Hne Hj. apply not_true_is_false. intros Hmj.
    apply hex_matches_true in Hm as [Hu Hh].
    apply hex_matches_true in Hmj as [Huj Hhj].
    apply Hne. apply (Huniq j i tj t Hj Hi Huj Hu). congruence.
  - unfold findTrackByHex in Hfind. apply fmap_None in Hfind.
    apply list_find_None in Hfind. rewrite Forall_forall in Hfind.
    destruct (tracks !! allocTrackSlot tracks) as [t |] eqn:Hi; [| exact Huniq].
    destruct (if used t && negb (strncmp_eq 6 (hex t) (obs_hex o))
              then eraseTrackIfDrawn t else (t, [])) as [t1 ops].
    simpl. apply (unique_live_insert tracks _ (obs_hex o)); [exact Huniq | reflexivity |].
    intros j tj _ Hj. apply not_true_is_false.
    apply Hfind. eapply list_elem_of_lookup_2, Hj.
Qed.

Lemma upsert_all_unique_live obs : forall tracks,
  unique_live tracks -> unique_live (upsert_all obs tracks).
Proof.
  induction obs as [| o obs IH]; intros tracks Huniq; [exact Huniq |].
  unfold upsert_all in *. simpl. apply IH, upsert_unique_live, Huniq.
Qed.

Lemma upsert_length o tracks : length (fst (upsert o tracks)) = length tracks.
Proof.
  unfold upsert.
  destruct (tracks !! _) as [t |]; [| reflexivity].
  destruct (if used t && negb (strncmp_eq 6 (hex t) (obs_hex o))
            then eraseTrackIfDrawn t else (t, [])) as [t1 ops].
  simpl. apply length_insert.
Qed.

Lemma live_count_le_1 key tracks :
  unique_live tracks -> (live_count key tracks <= 1)%nat.
Proof.
  unfold live_count. intros Huniq.
  induction tracks as [| t rest IH]; [simpl; lia |].
  assert (Hrest : unique_live rest).
  { intros i j ti tj Hi Hj Hui Huj Heq.
    assert (S i = S j) by exact (Huniq (S i) (S j) ti tj Hi Hj Hui Huj Heq). lia. }
  rewrite filter_cons.
  destruct (decide (used t = true /\ hex t = key)) as [[Hu Hk] | Hn]; [| exact (IH Hrest)].
  assert (Hnil : filter (fun t => used t = true /\ hex t = key) rest = []).
  { destruct (filter _ rest) as [| t' l'] eqn:Hf; [reflexivity |]. exfalso.
    assert (Hin : t' ∈ filter (fun t => used t = true /\ hex t = key) rest)
      by (rewrite Hf; left).
    apply list_elem_of_filter in Hin as [[Hu' Hk'] Hin].
    apply list_elem_of_lookup_1 in Hin as [j Hj].
    assert (0%nat = S j); [| lia].
    apply (Huniq 0%nat (S j) t t' eq_refl Hj Hu Hu'). congruence. }
  rewrite Hnil. simpl. lia.
Qed.

(** C8: after any sequence of upserts applied to the table as it is at
    start-up, every identity is held by at most one slot in use. *)
Theorem at_most_one_live_per_identity (obs : list Observation) (key : cstr) :
  (live_count key (upsert_all obs tracks_init) <= 1)%nat.
Proof.
  apply live_count_le_1, upsert_all_unique_live, unique_live_init.
Qed.

(** The same plane seen three times, between two others: one slot. *)
Example upsert_same_identity_thrice :
  let o key ms := mkObservation (list_ascii_of_string key) [] 240 160 0 None ms in
  let final := upsert_all [o "4b1a2c" 10; o "3c6589" 20; o "4b1a2c" 30;
                           o "a0f1e2" 40; o "4b1a2c" 50] tracks_init in
  live_count (list_ascii_of_string "4b1a2c") final = 1%nat /\
  live_count (list_ascii_of_string "3c6589") final = 1%nat /\
  live_count (list_ascii_of_string "ffffff") final = 0%nat /\
  length (filter (fun t => used t = true) final) = 3%nat.
Proof. cbv zeta. repeat split; vm_compute; reflexivity. Qed.

(** ** The draw list *)

Lemma sort_key_le a b : sort_key a <= sort_key b <-> altitude_before a b.
Proof.
  unfold sort_key, altitude_before.
  destruct (Z.ltb_spec a 0), (Z.ltb_spec b 0); lia.
Qed.

Section SortProofs.
Variable alt : nat -> Z.

Lemma carry_lowest_spec rest : forall x,
  let '(m, r) := carry_lowest alt x rest in
  m :: r ≡ₚ x :: rest /\
  key_le alt m x /\ Forall (key_le alt m) r /\
  length r = length rest.
Proof.
  unfold key_le.
  induction rest as [| y rest IH]; intros x; simpl.
  - split; [reflexivity |]. split; [lia |]. split; [constructor | reflexivity].
  - destruct (Z.ltb_spec (sort_key (alt y)) (sort_key (alt x))) as [Hlt | Hge].
    + specialize (IH y). destruct (carry_lowest alt y rest) as [m r].
      destruct IH as (Hp & Hm & Hall & Hlen). split; [| split; [| split]].
      * rewrite Permutation_swap, Hp. reflexivity.
      * lia.
      * constructor; [lia | exact Hall].
      * simpl. lia.
    + specialize (IH x). destruct (carry_lowest alt x rest) as [m r].
      destruct IH as (Hp & Hm & Hall & Hlen). split; [| split; [| split]].
      * rewrite Permutation_swap, Hp. apply Permutation_swap.
      * exact Hm.
      * constructor; [lia | exact Hall].
      * simpl. lia.
Qed.

Lemma insert_middle {A} (l1 l2 : list A) x y :
  <[length l1 := y]> (l1 ++ x :: l2) = l1 ++ y :: l2.
Proof.
  rewrite insert_app_r_alt by lia. rewrite Nat.sub_diag. reflexivity.
Qed.

(** The loop on the array does what [carry_lowest] does on the list:
    [pre] is the part before position [i], [seen] the part that [j] has
    passed, [todo] the part still to visit. *)
Lemma sort_inner_carry todo : forall pre x seen,
  sort_inner alt (length todo) (length pre) (length pre + 1 + length seen)
    (pre ++ x :: seen ++ todo)
  = pre ++ fst (carry_lowest alt x todo) :: seen ++ snd (carry_lowest alt x todo).
Proof.
  induction todo as [| y todo IH]; intros pre x seen; [reflexivity |].
  simpl sort_inner. unfold sort_step.
  rewrite list_lookup_middle by reflexivity.
  assert (Hj : (pre ++ x :: seen ++ y :: todo) !! (length pre + 1 + length seen)%nat
               = Some y).
  { change (pre ++ x :: seen ++ y :: todo) with (pre ++ (x :: seen) ++ y :: todo).
    rewrite app_assoc. apply list_lookup_middle.
    rewrite length_app. simpl. lia. }
  rewrite Hj. simpl carry_lowest.
  destruct (sort_key (alt y) <? sort_key (alt x)).
  - rewrite insert_middle.
    assert (Hins : <[(length pre + 1 + length seen)%nat := x]>
                     (pre ++ y :: seen ++ y :: todo)
                   = pre ++ y :: (seen ++ [x]) ++ todo).
    { change (pre ++ y :: seen ++ y :: todo) with (pre ++ (y :: seen) ++ y :: todo).
      rewrite app_assoc.
      replace (length pre + 1 + length seen)%nat with (length (pre ++ y :: seen))
        by (rewrite length_app; simpl; lia).
      rewrite insert_middle, <- !app_assoc. reflexivity. }
    rewrite Hins.
    replace (S (length pre + 1 + length seen)) with
      (length pre + 1 + length (seen ++ [x]))%nat
      by (rewrite length_app; simpl; lia).
    rewrite IH. destruct (carry_lowest alt y todo) as [m r]. simpl.
    rewrite <- !app_assoc. reflexivity.
  - replace (pre ++ x :: seen ++ y :: todo) with (pre ++ x :: (seen ++ [y]) ++ todo)
      by (rewrite <- !app_assoc; reflexivity).
    replace (S (length pre + 1 + length seen)) with
      (length pre + 1 + length (seen ++ [y]))%nat
      by (rewrite length_app; simpl; lia).
    rewrite IH. destruct (carry_lowest alt x todo) as [m r]. simpl.
    rewrite <- !app_assoc. reflexivity.
Qed.

(** The outer loop from position [length pre] on: the part before is
    kept, the part from there on is permuted into ascending key order. *)
Lemma sort_outer_sorts n : forall pre suffix,
  (length suffix - 1)%nat = n ->
  exists sorted,
    sort_outer alt n (length pre) (pre ++ suffix) = pre ++ sorted /\
    sorted ≡ₚ suffix /\ StronglySorted (key_le alt) sorted.
Proof.
  induction n as [| n IH]; intros pre suffix Hn.
  - exists suffix. split; [reflexivity |]. split; [reflexivity |].
    destruct suffix as [| x [| y rest]]; [constructor | | simpl in Hn; lia].
    constructor; constructor.
  - destruct suffix as [| x rest]; [simpl in Hn; lia |].
    simpl in Hn. rewrite Nat.sub_0_r in Hn.
    simpl sort_outer.
    replace (length (pre ++ x :: rest) - S (length pre))%nat with (length rest)
      by (rewrite length_app; simpl; lia).
    pose proof (sort_inner_carry rest pre x []) as Hin.
    simpl in Hin. rewrite Nat.add_0_r in Hin.
    replace (length pre + 1)%nat with (S (length pre)) in Hin by lia.
    rewrite Hin. clear Hin.
    pose proof (carry_lowest_spec rest x) as Hc.
    destruct (carry_lowest alt x rest) as [m r]. simpl.
    destruct Hc as (Hp & Hmx & Hall & Hlen).
    destruct (IH (pre ++ [m]) r) as (sorted & Hs & Hperm & Hsorted); [lia |].
    exists (m :: sorted). split; [| split].
    + rewrite length_app in Hs. simpl in Hs.
      replace (length pre + 1)%nat with (S (length pre)) in Hs by lia.
      rewrite <- app_assoc in Hs. simpl in Hs. rewrite Hs.
      rewrite <- app_assoc. reflexivity.
    + rewrite Hperm. exact Hp.
    + constructor; [exact Hsorted |]. rewrite Hperm. exact Hall.
Qed.

(** A slot with a negative altitude has the lowest key: nothing is
    exchanged with it. *)
Lemma carry_lowest_negative rest : forall x,
  alt x < 0 -> carry_lowest alt x rest = (x, rest).
Proof.
  induction rest as [| y rest IH]; intros x Hx; [reflexivity |].
  simpl. unfold sort_key at 1 2.
  destruct (Z.ltb_spec (alt x) 0) as [_ | Hge]; [| lia].
  destruct (Z.ltb_spec (alt y) 0) as [Hy | Hy].
  - rewrite Z.ltb_irrefl. rewrite (IH x Hx). reflexivity.
  - destruct (Z.ltb_spec (alt y) (-1000000)) as [Hlt | _]; [lia |].
    rewrite (IH x Hx). reflexivity.
Qed.

(** One pass of the inner loop leaves the slots with negative altitude
    in the order they had. *)
Lemma carry_lowest_negatives rest : forall x,
  filter (fun s => alt s < 0)
    (fst (carry_lowest alt x rest) :: snd (carry_lowest alt x rest))
  = filter (fun s => alt s < 0) (x :: rest).
Proof.
  induction rest as [| y rest IH]; intros x; [reflexivity |].
  simpl carry_lowest.
  destruct (Z.ltb_spec (sort_key (alt y)) (sort_key (alt x))) as [Hlt | Hge].
  - assert (Hx : ~ alt x < 0).
    { intros Hx. unfold sort_key in Hlt.
      destruct (Z.ltb_spec (alt x) 0) as [_ | H0]; [| lia].
      destruct (Z.ltb_spec (alt y) 0); lia. }
    specialize (IH y). destruct (carry_lowest alt y rest) as [m r].
    cbn [fst snd] in *.
    rewrite (filter_cons _ m (x :: r)), (filter_cons _ x r),
      (filter_cons _ x (y :: rest)).
    destruct (decide (alt x < 0)); [contradiction |].
    rewrite (filter_cons _ m r) in IH. exact IH.
  - destruct (decide (alt y < 0)) as [Hy | Hy].
    + assert (Hx : alt x < 0).
      { unfold sort_key in Hge.
        destruct (Z.ltb_spec (alt y) 0) as [_ | H0]; [| lia].
        destruct (Z.ltb_spec (alt x) 0); lia. }
      rewrite (carry_lowest_negative rest x Hx). reflexivity.
    + specialize (IH x). destruct (carry_lowest alt x rest) as [m r].
      cbn [fst snd] in *.
      rewrite (filter_cons _ m (y :: r)), (filter_cons _ y r),
        (filter_cons _ x (y :: rest)), (filter_cons _ y rest).
      destruct (decide (alt y < 0)); [contradiction |].
      rewrite (filter_cons _ m r), (filter_cons _ x rest) in IH. exact IH.
Qed.

(** The sort leaves the slots with negative altitude in the order they
    had: they are never exchanged with one another. *)
Lemma sort_outer_negatives n : forall pre suffix,
  (length suffix - 1)%nat = n ->
  filter (fun s => alt s < 0) (sort_outer alt n (length pre) (pre ++ suffix))
  = filter (fun s => alt s < 0) (pre ++ suffix).
Proof.
  induction n as [| n IH]; intros pre suffix Hn; [reflexivity |].
  destruct suffix as [| x rest]; [simpl in Hn; lia |].
  simpl in Hn. rewrite Nat.sub_0_r in Hn.
  simpl sort_outer.
  replace (length (pre ++ x :: rest) - S (length pre))%nat with (length rest)
    by (rewrite length_app; simpl; lia).
  pose proof (sort_inner_carry rest pre x []) as Hin.
  simpl in Hin. rewrite Nat.add_0_r in Hin.
  replace (length pre + 1)%nat with (S (length pre)) in Hin by lia.
  rewrite Hin. clear Hin.
  pose proof (carry_lowest_negatives rest x) as Hneg.
  pose proof (carry_lowest_spec rest x) as Hc.
  destruct (carry_lowest alt x rest) as [m r]. simpl in *.
  destruct Hc as (_ & _ & _ & Hlen).
  specialize (IH (pre ++ [m]) r ltac:(lia)).
  rewrite length_app in IH. simpl in IH.
  replace (length pre + 1)%nat with (S (length pre)) in IH by lia.
  rewrite <- app_assoc in IH. simpl in IH. rewrite IH.
  rewrite !filter_app, Hneg. reflexivity.
Qed.

Lemma sortByAltitude_negatives outIdx :
  filter (fun s => alt s < 0) (sortByAltitude alt outIdx)
  = filter (fun s => alt s < 0) outIdx.
Proof.
  unfold sortByAltitude.
  apply (sort_outer_negatives (length outIdx - 1) [] outIdx eq_refl).
Qed.

Lemma sortByAltitude_sorts outIdx :
  sortByAltitude alt outIdx ≡ₚ outIdx /\
  StronglySorted (key_le alt) (sortByAltitude alt outIdx).
Proof.
  unfold sortByAltitude.
  destruct (sort_outer_sorts (length outIdx - 1) [] outIdx eq_refl)
    as (sorted & Hs & Hp & Hsorted).
  simpl in Hs. rewrite Hs. split; assumption.
Qed.
End SortProofs.

Lemma StronglySorted_weaken {A} (R1 R2 : A -> A -> Prop) l :
  (forall a b, R1 a b -> R2 a b) -> StronglySorted R1 l -> StronglySorted R2 l.
Proof.
  intros Himp Hs. induction Hs as [| a l Hs IH Hall]; constructor; [exact IH |].
  eapply Forall_impl; [exact Hall | apply Himp].
Qed.

(** C5, as stated, fails: a plane 50 m below sea level has a known
    altitude, and when it is seen before a plane without altitude it is
    drawn before it, the known altitude ahead of the unknown one; and of
    two planes at 50 m and at 100 m below sea level the higher one is
    drawn first. *)
Lemma known_altitude_drawn_before_unknown :
  buildDrawList 1500 MAX_DRAW (upsert_all below_sea_then_unknown tracks_init)
    = [0; 1]%nat /\
  (altitude_m <$> upsert_all below_sea_then_unknown tracks_init !! 0%nat)
    = Some (encode_altitude (Some (-50))) /\
  (altitude_m <$> upsert_all below_sea_then_unknown tracks_init !! 1%nat)
    = Some (encode_altitude None) /\
  ~ spec_altitude_before (Some (-50)) None /\
  buildDrawList 1500 MAX_DRAW (upsert_all below_sea_twice tracks_init)
    = [0; 1]%nat /\
  (altitude_m <$> upsert_all below_sea_twice tracks_init !! 0%nat)
    = Some (encode_altitude (Some (-50))) /\
  (altitude_m <$> upsert_all below_sea_twice tracks_init !! 1%nat)
    = Some (encode_altitude (Some (-100))) /\
  ~ spec_altitude_before (Some (-50)) (Some (-100)).
Proof.
  split; [vm_compute; reflexivity |]. split; [vm_compute; reflexivity |].
  split; [vm_compute; reflexivity |]. split; [intros H; exact H |].
  split; [vm_compute; reflexivity |]. split; [vm_compute; reflexivity |].
  split; [vm_compute; reflexivity |]. simpl. lia.
Qed.

(** C5, amended: the draw list is a rearrangement of the slots selected
    by the filters, in which every slot may be drawn before every later
    one: the earlier slot has a negative stored altitude (the sentinel
    [-1] of an unknown altitude or a known altitude below zero, keyed
    alike), or both altitudes are at least zero and the earlier one is
    not higher. So the negative altitudes come first and the others
    follow in ascending order. The slots with a negative altitude are not
    ordered among themselves: they stay in the order in which the first
    loop collected them. *)
Theorem draw_list_ascending_altitude (now : Z) (maxOut : nat) (tracks : list Track) :
  buildDrawList now maxOut tracks ≡ₚ collect_drawable now maxOut tracks 0%nat [] /\
  StronglySorted
    (fun a b => altitude_before (track_altitude tracks a) (track_altitude tracks b))
    (buildDrawList now maxOut tracks) /\
  filter (fun slot => track_altitude tracks slot < 0) (buildDrawList now maxOut tracks)
  = filter (fun slot => track_altitude tracks slot < 0)
      (collect_drawable now maxOut tracks 0%nat []).
Proof.
  unfold buildDrawList.
  destruct (sortByAltitude_sorts (track_altitude tracks)
              (collect_drawable now maxOut tracks 0%nat [])) as [Hp Hs].
  split; [exact Hp |]. split.
  - eapply StronglySorted_weaken; [| exact Hs].
    intros a b. unfold key_le. apply sort_key_le.
  - apply sortByAltitude_negatives.
Qed.

Lemma buildDrawList_permutation now maxOut tracks :
  buildDrawList now maxOut tracks ≡ₚ collect_drawable now maxOut tracks 0%nat [].
Proof.
  unfold buildDrawList. apply sortByAltitude_sorts.
Qed.

Lemma buildDrawList_sorted now maxOut tracks :
  StronglySorted
    (fun a b => altitude_before (track_altitude tracks a) (track_altitude tracks b))
    (buildDrawList now maxOut tracks).
Proof.
  unfold buildDrawList.
  eapply StronglySorted_weaken;
    [| apply (sortByAltitude_sorts (track_altitude tracks))].
  intros a b. unfold key_le. apply sort_key_le.
Qed.

(** Read by position: no known altitude is drawn before an unknown one,
    and known altitudes do not decrease along the list. *)
Corollary draw_list_positions now maxOut tracks p q a b :
  buildDrawList now maxOut tracks !! p = Some a ->
  buildDrawList now maxOut tracks !! q = Some b ->
  (p < q)%nat ->
  altitude_before (track_altitude tracks a) (track_altitude tracks b).
Proof.
  intros Hp Hq Hlt.
  pose proof (buildDrawList_sorted now maxOut tracks) as Hs.
  revert p q Hp Hq Hlt.
  induction Hs as [| x l Hs IH Hall]; intros p q Hp Hq Hlt; [inversion Hp |].
  destruct q as [| q]; [lia |]. destruct p as [| p].
  - injection Hp as ->. rewrite Forall_forall in Hall. apply Hall.
    eapply list_elem_of_lookup_2, Hq.
  - apply (IH p q Hp Hq). lia.
Qed.

(** The example of the specification: altitudes [5000 m, unknown, 1000 m]
    are drawn in the order [unknown, 1000 m, 5000 m]. *)
Example draw_order_example :
  buildDrawList 1500 MAX_DRAW draw_order_table = [1; 2; 0]%nat /\
  track_altitude draw_order_table <$> buildDrawList 1500 MAX_DRAW draw_order_table
    = [-1; 1000; 5000].
Proof. split; vm_compute; reflexivity. Qed.

(** The slots collected by step 1 are positions of the table that pass
    the filters, and there are at most [maxOut] of them. *)
Lemma collect_drawable_spec now maxOut ts : forall i out,
  (forall s, s ∈ collect_drawable now maxOut ts i out ->
     s ∈ out \/ exists t, ts !! (s - i)%nat = Some t /\ (i <= s)%nat /\
                          drawable now t = true) /\
  ((length out <= maxOut)%nat ->
   (length (collect_drawable now maxOut ts i out) <= maxOut)%nat).
Proof.
  induction ts as [| t rest IH]; intros i out; simpl.
  - split; [intros s Hs; left; exact Hs | intros H; exact H].
  - destruct (Nat.ltb_spec (length out) maxOut) as [Hlt | Hge];
      [| split; [intros s Hs; left; exact Hs | intros H; exact H]].
    destruct (IH (S i) (if drawable now t then out ++ [i] else out)) as [Hin Hlen].
    split.
    + intros s Hs. destruct (Hin s Hs) as [Hout | (t' & Ht' & Hle & Hd)].
      * destruct (drawable now t) eqn:Hd; [| left; exact Hout].
        apply elem_of_app in Hout as [Hout | Hout]; [left; exact Hout |].
        apply list_elem_of_singleton in Hout as ->.
        right. exists t. rewrite Nat.sub_diag. repeat split; [lia | exact Hd].
      * right. exists t'. replace (s - i)%nat with (S (s - S i)) by lia.
        repeat split; [exact Ht' | lia | exact Hd].
    + intros _. apply Hlen. destruct (drawable now t); [| lia].
      rewrite length_app. simpl. lia.
Qed.

Lemma buildDrawList_selected now maxOut tracks slot :
  slot ∈ buildDrawList now maxOut tracks ->
  exists t, tracks !! slot = Some t /\ used t = true /\ drawable now t = true.
Proof.
  intros Hin.
  pose proof (buildDrawList_permutation now maxOut tracks) as Hp.
  rewrite Hp in Hin.
  destruct (collect_drawable_spec now maxOut tracks 0 []) as [Hsel _].
  destruct (Hsel slot Hin) as [Hnil | (t & Ht & _ & Hd)]; [inversion Hnil |].
  rewrite Nat.sub_0_r in Ht. exists t. split; [exact Ht |]. split; [| exact Hd].
  unfold drawable in Hd. rewrite !andb_true_iff in Hd. tauto.
Qed.

Lemma buildDrawList_length now maxOut tracks :
  (length (buildDrawList now maxOut tracks) <= maxOut)%nat.
Proof.
  pose proof (buildDrawList_permutation now maxOut tracks) as Hp.
  rewrite Hp.
  destruct (collect_drawable_spec now maxOut tracks 0 []) as [_ Hlen].
  apply Hlen. simpl. lia.
Qed.

(** ** Further facts *)

(** Whatever index it is given, [planeMaskForHeading] reads inside the
    table: it normalises its argument again. *)
Lemma planeMaskForHeading_in_bounds (plane32_offset : list Z) (deg : Z) :
  length plane32_offset = 360%nat ->
  is_Some (planeMaskForHeading plane32_offset deg).
Proof.
  intros Hlen. unfold planeMaskForHeading, planeMaskIndex.
  apply array_read_in_bounds. pose proof (wrap360_range deg). lia.
Qed.

(** The slot that an upsert writes exists, whatever the table holds. *)
Lemma upsert_slot_in_range key tracks :
  tracks <> [] ->
  (match findTrackByHex key tracks with
   | Some i => i
   | None => allocTrackSlot tracks
   end < length tracks)%nat.
Proof.
  intros Hne. unfold findTrackByHex.
  destruct (list_find _ tracks) as [[i t] |] eqn:Hf; simpl.
  - apply list_find_Some in Hf as (Hi & _). eapply lookup_lt_Some, Hi.
  - unfold allocTrackSlot.
    destruct (list_find (fun t => used t = false) tracks) as [[i t] |] eqn:Hf2.
    + apply list_find_Some in Hf2 as (Hi & _). eapply lookup_lt_Some, Hi.
    + destruct (oldest_scan_spec tracks 0 UINT32_MAX 0)
        as [[Hr _] | (k & t & Hr & Hk & _)]; rewrite Hr.
      * destruct tracks; [congruence | simpl; lia].
      * simpl. eapply lookup_lt_Some, Hk.
Qed.

(** An upsert is never turned down: afterwards the identity is in the
    table, in a live slot that carries the time of the update. *)
Lemma upsert_never_rejects o tracks :
  tracks <> [] ->
  exists idx t,
    findTrackByHex (obs_hex o) (fst (upsert o tracks)) = Some idx /\
    fst (upsert o tracks) !! idx = Some t /\
    used t = true /\ take 6 (hex t) = take 6 (obs_hex o).
Proof.
  intros Hne.
  assert (Hin : exists i t2, fst (upsert o tracks) !! i = Some t2 /\
                             hex_matches (obs_hex o) t2 = true).
  { pose proof (upsert_slot_in_range (obs_hex o) tracks Hne) as Hlt.
    unfold upsert.
    set (idx := match findTrackByHex (obs_hex o) tracks with
                | Some i => i | None => allocTrackSlot tracks end) in *.
    destruct (lookup_lt_is_Some_2 tracks idx Hlt) as [t Ht]. rewrite Ht.
    destruct (if used t && negb (strncmp_eq 6 (hex t) (obs_hex o))
              then eraseTrackIfDrawn t else (t, [])) as [t1 ops].
    simpl. eexists idx, _. split; [apply list_lookup_insert_eq, Hlt |].
    apply hex_matches_stored; reflexivity. }
  destruct Hin as (i & t2 & Hi & Hm).
  unfold findTrackByHex.
  destruct (list_find_elem_of (fun t => hex_matches (obs_hex o) t = true)
              (fst (upsert o tracks)) t2) as [[idx t] Hf];
    [eapply list_elem_of_lookup_2, Hi | exact Hm |].
  rewrite Hf. simpl. exists idx, t.
  apply list_find_Some in Hf as (Hidx & Hmt & _).
  apply hex_matches_true in Hmt as [Hu Hh].
  split; [reflexivity |]. split; [exact Hidx |]. split; assumption.
Qed.

(** When the recycled slot held another plane that was drawn, its
    rectangle is restored on the display by the upsert itself. *)
Lemma upsert_recycled_slot_erased o tracks victim px py :
  findTrackByHex (obs_hex o) tracks = None ->
  tracks !! allocTrackSlot tracks = Some victim ->
  used victim = true -> drawn victim = true ->
  on_screen px py -> in_rect px py (trackRectOld victim) ->
  restored px py (snd (upsert o tracks)).
Proof.
  intros Hnone Hv Hu Hd Hs Hr. unfold upsert. rewrite Hnone, Hv.
  assert (Hdiff : strncmp_eq 6 (hex victim) (obs_hex o) = false).
  { apply not_true_is_false. intros Heq.
    unfold findTrackByHex in Hnone. apply fmap_None in Hnone.
    apply list_find_None in Hnone. rewrite Forall_forall in Hnone.
    apply (Hnone victim); [eapply list_elem_of_lookup_2, Hv |].
    unfold hex_matches. rewrite Hu, Heq. reflexivity. }
  rewrite Hu, Hdiff. simpl. unfold eraseTrackIfDrawn. rewrite Hd. simpl.
  apply restoreBgRect_covers; assumption.
Qed.

(** The sort keys every negative altitude like the sentinel: slots with
    negative altitudes keep the order in which they were collected. *)
Example draw_order_negative_altitudes :
  buildDrawList 1500 MAX_DRAW
    ([plane "4b1a01" 100 100 400; plane "4b1a02" 200 100 (-50);
      plane "4b1a03" 300 100 (-1)] ++ replicate 197 Track_init)
  = [1; 2; 0]%nat.
Proof. vm_compute. reflexivity. Qed.

(** * Further properties of the code *)

(** ** Clamping and restoring *)

Ltac case_ltb :=
  repeat match goal with
    | |- context [if ?a <? ?b then _ else _] => destruct (Z.ltb_spec a b)
    | |- context [if ?a <=? ?b then _ else _] => destruct (Z.leb_spec a b)
    | H : context [if ?a <? ?b then _ else _] |- _ => destruct (Z.ltb_spec a b)
    | H : context [if ?a <=? ?b then _ else _] |- _ => destruct (Z.leb_spec a b)
    end.

Lemma rectClampToScreen_in_rect r px py :
  in_rect px py (rectClampToScreen r) <-> in_rect px py r /\ on_screen px py.
Proof.
  destruct r as [x y w h].
  unfold rectClampToScreen, in_rect, on_screen, SW, SH.
  cbn [rect_x rect_y rect_w rect_h].
  destruct (Z.ltb_spec x 0), (Z.ltb_spec y 0); cbn [rect_x rect_y rect_w rect_h];
    case_ltb; cbn [rect_x rect_y rect_w rect_h]; lia.
Qed.

Lemma rectClampToScreen_positive r :
  0 < rect_w (rectClampToScreen r) -> 0 < rect_h (rectClampToScreen r) ->
  visible_rect (rectClampToScreen r).
Proof.
  destruct r as [x y w h].
  unfold rectClampToScreen, visible_rect, inside_screen, SW, SH.
  cbn [rect_x rect_y rect_w rect_h].
  destruct (Z.ltb_spec x 0), (Z.ltb_spec y 0); cbn [rect_x rect_y rect_w rect_h];
    case_ltb; cbn [rect_x rect_y rect_w rect_h]; lia.
Qed.

Lemma i32_in_int z : in_int z -> i32 z = z.
Proof. unfold in_int. apply i32_small. Qed.

(** On rectangles whose fields and corner sums are [int]s the two
    readings of the clamp agree. *)
Lemma rectClampToScreen_int_eq r :
  rect_fits r -> rectClampToScreen_int r = rectClampToScreen r.
Proof.
  destruct r as [x y w h]. unfold rect_fits, in_int, rectClampToScreen_int,
    rectClampToScreen, SW, SH. cbn [rect_x rect_y rect_w rect_h].
  intros (Hx & Hy & Hw & Hh & Hxw & Hyh).
  assert (Ewx : i32 (w + x) = w + x) by (apply i32_small; lia).
  assert (Ehy : i32 (h + y) = h + y) by (apply i32_small; lia).
  assert (Exw : i32 (x + w) = x + w) by (apply i32_small; lia).
  assert (Eyh : i32 (y + h) = y + h) by (apply i32_small; lia).
  rewrite Ewx, Ehy.
  destruct (Z.ltb_spec x 0), (Z.ltb_spec y 0); cbv beta iota zeta;
    rewrite ?Z.add_0_l, ?Exw, ?Eyh;
    rewrite ?(i32_small (w + x)), ?(i32_small (h + y)),
            ?(i32_small (480 - x)), ?(i32_small (320 - y)),
            ?(i32_small (480 - 0)), ?(i32_small (320 - 0)) by lia;
    reflexivity.
Qed.

(** X1: for a rectangle whose fields and corner sums fit an [int],
    [rectClampToScreen], with its additions taken on 32 bits, keeps
    exactly the pixels of the rectangle that are on the screen; its result
    never has a negative origin or size, is no larger than the screen, and
    when it is not empty it lies on the canvas. *)
Theorem rectClampToScreen_pixels (r : Rect) :
  rect_fits r ->
  rectClampToScreen_int r = rectClampToScreen r /\
  (forall px py,
     in_rect px py (rectClampToScreen_int r) <-> in_rect px py r /\ on_screen px py) /\
  0 <= rect_x (rectClampToScreen_int r) /\ 0 <= rect_y (rectClampToScreen_int r) /\
  0 <= rect_w (rectClampToScreen_int r) /\ 0 <= rect_h (rectClampToScreen_int r) /\
  rect_w (rectClampToScreen_int r) <= SW /\ rect_h (rectClampToScreen_int r) <= SH /\
  ((0 < rect_w (rectClampToScreen_int r) /\ 0 < rect_h (rectClampToScreen_int r)) <->
   visible_rect (rectClampToScreen_int r)).
Proof.
  intros Hfit. rewrite (rectClampToScreen_int_eq r Hfit).
  split; [reflexivity |]. clear Hfit.
  destruct r as [x y w h].
  unfold rectClampToScreen, in_rect, on_screen, visible_rect, inside_screen, SW, SH.
  cbn [rect_x rect_y rect_w rect_h].
  destruct (Z.ltb_spec x 0), (Z.ltb_spec y 0); cbn [rect_x rect_y rect_w rect_h];
    case_ltb; cbn [rect_x rect_y rect_w rect_h]; (split; [intros px py |]); lia.
Qed.

Lemma rectClampToScreen_pixels_witness :
  rect_fits (mkRect (-10) 300 32 32) /\
  rectClampToScreen_int (mkRect (-10) 300 32 32) = rectClampToScreen (mkRect (-10) 300 32 32) /\
  forall px py,
    in_rect px py (rectClampToScreen_int (mkRect (-10) 300 32 32)) <->
    in_rect px py (mkRect (-10) 300 32 32) /\ on_screen px py.
Proof.
  assert (Hfit : rect_fits (mkRect (-10) 300 32 32))
    by (unfold rect_fits, in_int; simpl; lia).
  split; [exact Hfit |].
  destruct (rectClampToScreen_pixels (mkRect (-10) 300 32 32) Hfit) as (He & Hp & _).
  split; [exact He | exact Hp].
Defined.

(** Where no addition overflows, the clamp leaves a rectangle that the
    32-bit code would leave too; where one does, it need not: the width
    [2147483647] at [x = 100] survives the clamp. *)
Example rectClampToScreen_int_overflow :
  rectClampToScreen_int (mkRect 100 0 2147483647 32) = mkRect 100 0 2147483647 32 /\
  ~ rect_fits (mkRect 100 0 2147483647 32).
Proof.
  split; [vm_compute; reflexivity |].
  unfold rect_fits, in_int. simpl. lia.
Qed.

(** Clamping twice is clamping once. *)
Theorem rectClampToScreen_idempotent (r : Rect) :
  rectClampToScreen (rectClampToScreen r) = rectClampToScreen r.
Proof.
  destruct r as [x y w h]. unfold rectClampToScreen, SW, SH.
  cbn [rect_x rect_y rect_w rect_h].
  destruct (Z.ltb_spec x 0), (Z.ltb_spec y 0); cbn [rect_x rect_y rect_w rect_h];
    case_ltb; cbn [rect_x rect_y rect_w rect_h]; case_ltb;
    cbn [rect_x rect_y rect_w rect_h]; case_ltb; try lia; f_equal; lia.
Qed.

Lemma rectClampToScreen_visible r :
  visible_rect r -> rectClampToScreen r = r.
Proof.
  destruct r as [x y w h].
  unfold visible_rect, inside_screen, rectClampToScreen, SW, SH.
  cbn [rect_x rect_y rect_w rect_h]. intros Hv.
  destruct (Z.ltb_spec x 0), (Z.ltb_spec y 0); try lia;
    cbn [rect_x rect_y rect_w rect_h]; case_ltb; try lia; reflexivity.
Qed.

(** The bounding union holds every pixel of both rectangles, and does
    not depend on their order. *)
Theorem rectUnion_covers (a b : Rect) (px py : Z) :
  in_rect px py a \/ in_rect px py b ->
  in_rect px py (rectUnion a b) /\ rectUnion a b = rectUnion b a.
Proof.
  unfold in_rect, rectUnion. cbn [rect_x rect_y rect_w rect_h]. intros Hin. split.
  - lia.
  - f_equal; lia.
Qed.

Lemma rectUnion_covers_witness :
  (in_rect 120 110 (mkRect 100 100 32 32) \/ in_rect 120 110 (mkRect 110 100 32 32)) /\
  in_rect 120 110 (rectUnion (mkRect 100 100 32 32) (mkRect 110 100 32 32)) /\
  rectUnion (mkRect 100 100 32 32) (mkRect 110 100 32 32)
    = rectUnion (mkRect 110 100 32 32) (mkRect 100 100 32 32).
Proof.
  assert (H : in_rect 120 110 (mkRect 100 100 32 32) \/
              in_rect 120 110 (mkRect 110 100 32 32)).
  { left. unfold in_rect. simpl. lia. }
  split; [exact H |].
  exact (rectUnion_covers (mkRect 100 100 32 32) (mkRect 110 100 32 32) 120 110 H).
Defined.

Lemma rectUnion_visible a b :
  visible_rect a -> visible_rect b -> visible_rect (rectUnion a b).
Proof.
  unfold visible_rect, inside_screen, rectUnion.
  cbn [rect_x rect_y rect_w rect_h]. lia.
Qed.

(** What [restoreBgRect] pushes: rows on the canvas, inside the
    rectangle asked for. *)
Lemma restoreBgRect_ops x y w h op :
  op ∈ restoreBgRect x y w h ->
  exists x' y' w', op = PushBgRow x' y' w' /\
    0 <= x' /\ 0 < w' /\ x' + w' <= SW /\ 0 <= y' < SH /\ w' <= w /\
    x <= x' /\ x' + w' <= x + w /\ y <= y' < y + h.
Proof.
  intros Hin. unfold restoreBgRect in Hin.
  destruct (Z.ltb_spec x 0), (Z.ltb_spec y 0);
    cbv beta iota zeta in Hin;
    repeat match type of Hin with
      | context [if ?a <? ?b then _ else _] => destruct (Z.ltb_spec a b)
      | context [?a <=? ?b] => destruct (Z.leb_spec a b)
      end;
    cbv beta iota zeta delta [orb] in Hin; try (inversion Hin; fail);
    apply list_elem_of_fmap in Hin as (row & -> & Hrow);
    apply elem_of_seqZ in Hrow; do 3 eexists; (split; [reflexivity |]);
    unfold SW, SH in *; lia.
Qed.

Lemma restoreBgRect_restored x y w h px py :
  restored px py (restoreBgRect x y w h) <->
  on_screen px py /\ in_rect px py (mkRect x y w h).
Proof.
  split; [| intros [Hs Hr]; apply restoreBgRect_covers; assumption].
  unfold restored. intros Hex. apply Exists_exists in Hex as (op & Hin & Hop).
  destruct (restoreBgRect_ops x y w h op Hin) as (x' & y' & w' & -> & Hb).
  simpl in Hop. unfold on_screen, in_rect. cbn [rect_x rect_y rect_w rect_h]. lia.
Qed.

(** On rectangles whose fields and corner sums are [int]s the two
    readings of the restore agree. *)
Lemma restoreBgRect_int_eq x y w h :
  rect_fits (mkRect x y w h) -> restoreBgRect_int x y w h = restoreBgRect x y w h.
Proof.
  unfold rect_fits, in_int, restoreBgRect_int, restoreBgRect, SW, SH.
  cbn [rect_x rect_y rect_w rect_h].
  intros (Hx & Hy & Hw & Hh & Hxw & Hyh).
  assert (Hrows : forall x0 w0 y0 h0, 0 <= y0 -> y0 + h0 <= 320 ->
            (fun row => PushBgRow x0 (i32 (y0 + row)) w0) <$> rows h0
            = (fun row => PushBgRow x0 (y0 + row) w0) <$> rows h0).
  { intros x0 w0 y0 h0 Hy0 Hh0. apply list_fmap_ext. intros i row Hrow.
    apply list_elem_of_lookup_2, elem_of_seqZ in Hrow.
    rewrite i32_small by lia. reflexivity. }
  rewrite (i32_small (w + x)), (i32_small (h + y)) by lia.
  destruct (Z.ltb_spec x 0), (Z.ltb_spec y 0); cbv beta iota zeta;
    rewrite ?Z.add_0_l;
    rewrite ?(i32_small (x + w)), ?(i32_small (y + h)),
            ?(i32_small (w + x)), ?(i32_small (h + y)),
            ?(i32_small (480 - x)), ?(i32_small (320 - y)),
            ?(i32_small (480 - 0)), ?(i32_small (320 - 0)) by lia;
    case_ltb; cbv beta iota zeta;
    repeat match goal with
      | |- context [?a <=? ?b] => destruct (Z.leb_spec a b)
      end;
    cbv beta iota zeta delta [orb]; try reflexivity;
    apply Hrows; lia.
Qed.

(** X2: for a rectangle whose fields and corner sums fit an [int],
    [restoreBgRect32] and [restoreBgRectWide], with their additions taken
    on 32 bits, restore the background on exactly the on-screen pixels of
    the rectangle, the pixels that [rectClampToScreen] keeps, and every
    row they push lies on the canvas. No row is wider than [SW], the
    length of [lineBufWide], so [restoreBgRectWide] never writes past its
    buffer; no row is wider than the width asked for, so
    [restoreBgRect32] stays inside the [PW] entries of [lineBuf32] when
    it is asked for a width of at most [PW], which is all it has to go
    by: it has no guard of its own. *)
Theorem restoreBgRect_exact (x y w h : Z) :
  rect_fits (mkRect x y w h) ->
  restoreBgRect_int x y w h = restoreBgRectWide x y w h /\
  restoreBgRect_int x y w h = restoreBgRect32 x y w h /\
  (forall px py,
     restored px py (restoreBgRect_int x y w h) <->
     on_screen px py /\ in_rect px py (mkRect x y w h)) /\
  (forall px py,
     restored px py (restoreBgRect_int x y w h) <->
     in_rect px py (rectClampToScreen_int (mkRect x y w h))) /\
  Forall (fun op => op_on_screen op /\ row_fits_buffer lineBufWide_len op /\
                    exists x' y' w', op = PushBgRow x' y' w')
    (restoreBgRect_int x y w h) /\
  (w <= PW ->
   Forall (row_fits_buffer lineBuf32_len) (restoreBgRect_int x y w h)).
Proof.
  intros Hfit. rewrite (restoreBgRect_int_eq x y w h Hfit),
    (rectClampToScreen_int_eq _ Hfit).
  split; [reflexivity |]. split; [reflexivity |].
  split; [intros px py; apply restoreBgRect_restored |]. split; [| split].
  - intros px py. rewrite restoreBgRect_restored, rectClampToScreen_in_rect. tauto.
  - apply Forall_forall. intros op Hin.
    destruct (restoreBgRect_ops x y w h op Hin) as (x' & y' & w' & -> & Hb).
    unfold row_fits_buffer, lineBufWide_len. simpl.
    split; [lia |]. split; [lia |]. eauto.
  - intros Hw. apply Forall_forall. intros op Hin.
    destruct (restoreBgRect_ops x y w h op Hin) as (x' & y' & w' & -> & Hb).
    unfold row_fits_buffer, lineBuf32_len. simpl. lia.
Qed.

Lemma restoreBgRect_exact_witness :
  rect_fits (mkRect (-10) 300 32 32) /\
  restoreBgRect_int (-10) 300 32 32 = restoreBgRect32 (-10) 300 32 32 /\
  Forall (row_fits_buffer lineBuf32_len) (restoreBgRect_int (-10) 300 32 32).
Proof.
  assert (Hfit : rect_fits (mkRect (-10) 300 32 32))
    by (unfold rect_fits, in_int; simpl; lia).
  split; [exact Hfit |].
  destruct (restoreBgRect_exact (-10) 300 32 32 Hfit) as (_ & He & _ & _ & _ & Hb).
  split; [exact He |]. apply Hb. unfold PW. lia.
Defined.

(** The width is the caller's business: asked for a row of 480 pixels,
    [restoreBgRect32] copies 480 entries into its 32-entry buffer. *)
Example restoreBgRect32_wide_row :
  restoreBgRect_int 0 0 480 1 = [PushBgRow 0 0 480] /\
  restoreBgRect32 0 0 480 1 = [PushBgRow 0 0 480] /\
  ~ row_fits_buffer lineBuf32_len (PushBgRow 0 0 480).
Proof.
  split; [vm_compute; reflexivity |]. split; [vm_compute; reflexivity |].
  unfold row_fits_buffer, lineBuf32_len, PW. simpl. lia.
Qed.

(** ** The merge loop *)

Lemma rectUnion_covers_pixel a b px py :
  in_rect px py a \/ in_rect px py b -> in_rect px py (rectUnion a b).
Proof.
  unfold in_rect, rectUnion. cbn [rect_x rect_y rect_w rect_h]. lia.
Qed.

Section MergeStep.
Variables (i j : nat) (ri rj : Rect) (dirty : list Rect).
Hypothesis Hij : (i < j)%nat.
Hypothesis Hi : dirty !! i = Some ri.
Hypothesis Hj : dirty !! j = Some rj.

Let U := rectClampToScreen (rectUnion ri rj).

Lemma merge_step_last :
  exists l, last (<[i := U]> dirty) = Some l /\
            <[i := U]> dirty !! (length dirty - 1)%nat = Some l.
Proof using All.
  assert (Hlen : (j < length dirty)%nat) by (eapply lookup_lt_Some, Hj).
  destruct (lookup_lt_is_Some_2 (<[i := U]> dirty) (length dirty - 1)) as [l Hl].
  { rewrite length_insert. lia. }
  exists l. split; [| exact Hl].
  rewrite last_lookup, length_insert.
  replace (Init.Nat.pred (length dirty)) with (length dirty - 1)%nat by lia.
  exact Hl.
Qed.

Lemma merge_step_union : merge_step i j ri rj dirty !! i = Some U.
Proof using All.
  assert (Hlen : (j < length dirty)%nat) by (eapply lookup_lt_Some, Hj).
  unfold merge_step, remove_at_swap_last. fold U.
  destruct merge_step_last as (l & -> & _).
  rewrite lookup_take_lt by (rewrite length_insert; lia).
  rewrite list_lookup_insert_ne by lia.
  apply list_lookup_insert_eq. lia.
Qed.

Lemma merge_step_keeps k r :
  dirty !! k = Some r -> k <> i -> k <> j -> r ∈ merge_step i j ri rj dirty.
Proof using All.
  intros Hk Hki Hkj.
  assert (Hlen : (j < length dirty)%nat) by (eapply lookup_lt_Some, Hj).
  assert (Hklen : (k < length dirty)%nat) by (eapply lookup_lt_Some, Hk).
  unfold merge_step, remove_at_swap_last. fold U.
  destruct merge_step_last as (l & -> & Hl).
  rewrite length_insert.
  destruct (decide (k = length dirty - 1)%nat) as [-> | Hne].
  - rewrite list_lookup_insert_ne in Hl by lia.
    rewrite Hk in Hl. injection Hl as <-.
    apply (list_elem_of_lookup_2 _ j).
    rewrite lookup_take_lt by lia.
    apply list_lookup_insert_eq. rewrite length_insert. lia.
  - apply (list_elem_of_lookup_2 _ k).
    rewrite lookup_take_lt by lia.
    rewrite !list_lookup_insert_ne by lia. exact Hk.
Qed.

Lemma merge_step_elems r :
  r ∈ merge_step i j ri rj dirty -> r = U \/ r ∈ dirty.
Proof using All.
  unfold merge_step, remove_at_swap_last. fold U.
  destruct merge_step_last as (l & -> & Hl). intros Hin.
  apply elem_of_take in Hin as (k & Hk & _).
  assert (Hins : forall (d : list Rect) n x y m, <[n := x]> d !! m = Some y -> y = x \/ d !! m = Some y).
  { intros d n x y m H. apply list_lookup_insert_Some in H as [(-> & -> & _) | (_ & H)]; auto. }
  apply Hins in Hk as [-> | Hk].
  - apply Hins in Hl as [-> | Hl]; [left; reflexivity |].
    right. eapply list_elem_of_lookup_2, Hl.
  - apply Hins in Hk as [-> | Hk]; [left; reflexivity |].
    right. eapply list_elem_of_lookup_2, Hk.
Qed.
End MergeStep.

(** A property of the dirty array that every single merge keeps is kept
    by the inner loop, by the outer loop and by the whole merge. *)
Section MergeInvariant.
Variable Q : list Rect -> Prop.
Hypothesis Q_step : forall i j ri rj dirty,
  (i < j)%nat -> dirty !! i = Some ri -> dirty !! j = Some rj ->
  rectIntersects ri rj = true -> Q dirty -> Q (merge_step i j ri rj dirty).

Lemma merge_inner_invariant fuel : forall i j dirty,
  (i < j)%nat -> Q dirty -> Q (merge_inner fuel i j dirty).
Proof.
  induction fuel as [| fuel IH]; intros i j dirty Hij HQ; simpl; [exact HQ |].
  destruct (j <? length dirty)%nat; [| exact HQ].
  destruct (dirty !! i) as [ri |] eqn:Hi; [| exact HQ].
  destruct (dirty !! j) as [rj |] eqn:Hj; [| exact HQ].
  destruct (rectIntersects ri rj) eqn:Hint.
  - apply IH; [exact Hij |]. apply (Q_step i j ri rj dirty); assumption.
  - apply IH; [lia | exact HQ].
Qed.

Lemma merge_outer_invariant fuel : forall i dirty,
  Q dirty -> Q (merge_outer fuel i dirty).
Proof.
  induction fuel as [| fuel IH]; intros i dirty HQ; simpl; [exact HQ |].
  destruct (i <? length dirty)%nat; [| exact HQ].
  apply IH, merge_inner_invariant; [lia | exact HQ].
Qed.

Lemma mergeDirty_invariant dirty : Q dirty -> Q (mergeDirty dirty).
Proof. apply merge_outer_invariant. Qed.
End MergeInvariant.

Lemma mergeDirty_covered (dirty : list Rect) (px py : Z) :
  on_screen px py -> covered px py dirty -> covered px py (mergeDirty dirty).
Proof.
  intros Hs. apply mergeDirty_invariant. clear dirty.
  intros i j ri rj dirty Hij Hi Hj _ Hcov.
  unfold covered in *. apply Exists_exists in Hcov as (r & Hin & Hr).
  apply Exists_exists.
  apply list_elem_of_lookup_1 in Hin as [k Hk].
  assert (Hu : forall a b, in_rect px py a \/ in_rect px py b ->
                 in_rect px py (rectClampToScreen (rectUnion a b))).
  { intros a b Hab. apply rectClampToScreen_in_rect. split; [| exact Hs].
    apply rectUnion_covers_pixel, Hab. }
  destruct (decide (k = i)) as [-> | Hki]; [| destruct (decide (k = j)) as [-> | Hkj]].
  - rewrite Hi in Hk. injection Hk as <-.
    exists (rectClampToScreen (rectUnion ri rj)). split; [| apply Hu; left; exact Hr].
    eapply list_elem_of_lookup_2, merge_step_union; eassumption.
  - rewrite Hj in Hk. injection Hk as <-.
    exists (rectClampToScreen (rectUnion ri rj)). split; [| apply Hu; right; exact Hr].
    eapply list_elem_of_lookup_2, merge_step_union; eassumption.
  - exists r. split; [| exact Hr].
    eapply merge_step_keeps; eassumption.
Qed.

(** The merge never lengthens the array, and it never empties one. *)
Lemma mergeDirty_length dirty :
  (length (mergeDirty dirty) <= length dirty)%nat /\
  (dirty <> [] -> mergeDirty dirty <> []).
Proof.
  split.
  - apply (mergeDirty_invariant (fun d => (length d <= length dirty)%nat)); [| lia].
    intros i j ri rj d _ _ _ _ Hle. unfold merge_step.
    rewrite remove_at_swap_last_length, length_insert. lia.
  - apply (mergeDirty_invariant (fun d => d <> [])).
    intros i j ri rj d Hij Hi Hj _ _ Heq.
    pose proof (merge_step_union i j ri rj d Hij Hi Hj) as Hu.
    rewrite Heq in Hu. inversion Hu.
Qed.

(** X3: The merge loses no dirty pixel: an on-screen pixel that lies in a
    rectangle of the array before the merge lies in one after it; and the
    merge never lengthens the array. *)
Theorem mergeDirty_keeps_coverage (dirty : list Rect) (px py : Z) :
  on_screen px py -> covered px py dirty ->
  covered px py (mergeDirty dirty) /\
  (0 < length (mergeDirty dirty) <= length dirty)%nat.
Proof.
  intros Hs Hc. split; [apply mergeDirty_covered; assumption |].
  destruct (mergeDirty_length dirty) as [Hle Hne]. split; [| exact Hle].
  assert (Hd : dirty <> []).
  { intros ->. unfold covered in Hc. inversion Hc. }
  specialize (Hne Hd). destruct (mergeDirty dirty); [congruence | simpl; lia].
Qed.

Lemma mergeDirty_keeps_coverage_witness :
  on_screen 140 110 /\
  covered 140 110 [mkRect 100 100 32 32; mkRect 132 99 32 32; mkRect 131 131 32 32] /\
  covered 140 110
    (mergeDirty [mkRect 100 100 32 32; mkRect 132 99 32 32; mkRect 131 131 32 32]) /\
  (0 < length (mergeDirty [mkRect 100 100 32 32; mkRect 132 99 32 32;
                           mkRect 131 131 32 32]) <= 3)%nat.
Proof.
  assert (Hs : on_screen 140 110) by (unfold on_screen, SW, SH; lia).
  assert (Hc : covered 140 110
                 [mkRect 100 100 32 32; mkRect 132 99 32 32; mkRect 131 131 32 32]).
  { unfold covered. apply Exists_cons_tl, Exists_cons_hd. unfold in_rect. simpl. lia. }
  split; [exact Hs |]. split; [exact Hc |].
  exact (mergeDirty_keeps_coverage _ 140 110 Hs Hc).
Defined.

(** X4: Every rectangle of the array that the merge loop starts from is not
    empty and lies on the canvas, and the merge keeps it so: the
    rectangles handed to [restoreBgRectWide] are at most [SW] wide. *)
Theorem merged_dirty_visible (dirty : list Rect) :
  Forall visible_rect (clamp_all dirty) /\
  Forall visible_rect (mergeDirty (clamp_all dirty)) /\
  Forall (fun r => 0 < rect_w r <= SW /\ 0 < rect_h r <= SH)
    (mergeDirty (clamp_all dirty)).
Proof.
  assert (Hc : Forall visible_rect (clamp_all dirty)).
  { apply Forall_forall. intros r Hin. unfold clamp_all in Hin.
    apply list_elem_of_filter in Hin as [Hpos Hin].
    apply list_elem_of_fmap in Hin as (r0 & -> & _).
    apply rectClampToScreen_positive; apply Hpos. }
  assert (Hm : Forall visible_rect (mergeDirty (clamp_all dirty))).
  { revert Hc. generalize (clamp_all dirty). intros d.
    apply mergeDirty_invariant. clear d.
    intros i j ri rj d Hij Hi Hj _ Hall.
    rewrite Forall_forall in Hall. apply Forall_forall. intros r Hin.
    apply (merge_step_elems i j ri rj d Hij Hi Hj) in Hin as [-> | Hin]; [| auto].
    assert (Hv : visible_rect (rectUnion ri rj)).
    { apply rectUnion_visible; apply Hall; eapply list_elem_of_lookup_2; eassumption. }
    rewrite rectClampToScreen_visible; assumption. }
  split; [exact Hc |]. split; [exact Hm |].
  eapply Forall_impl; [exact Hm |].
  intros r (Hin & Hw & Hh). unfold inside_screen in Hin. lia.
Qed.

(** An array in which no two rectangles intersect is left as it is. *)
Theorem mergeDirty_disjoint_unchanged (dirty : list Rect) :
  pairwise_disjoint dirty -> mergeDirty dirty = dirty.
Proof.
  intros Hdis.
  assert (Hin : forall fuel i j, (i < j)%nat -> merge_inner fuel i j dirty = dirty).
  { induction fuel as [| fuel IH]; intros i j Hij; simpl; [reflexivity |].
    destruct (j <? length dirty)%nat; [| reflexivity].
    destruct (dirty !! i) as [ri |] eqn:Hi; [| reflexivity].
    destruct (dirty !! j) as [rj |] eqn:Hj; [| reflexivity].
    rewrite (Hdis i j ri rj) by (lia || assumption). apply IH. lia. }
  unfold mergeDirty. generalize (length dirty) at 1. intros fuel. generalize 0%nat.
  induction fuel as [| fuel IH]; intros i; simpl; [reflexivity |].
  destruct (i <? length dirty)%nat; [| reflexivity].
  rewrite Hin by lia. apply IH.
Qed.

Lemma mergeDirty_disjoint_unchanged_witness :
  pairwise_disjoint [mkRect 100 100 32 32; mkRect 132 100 32 32; mkRect 10 200 32 32] /\
  mergeDirty [mkRect 100 100 32 32; mkRect 132 100 32 32; mkRect 10 200 32 32]
    = [mkRect 100 100 32 32; mkRect 132 100 32 32; mkRect 10 200 32 32].
Proof.
  assert (H : pairwise_disjoint
                [mkRect 100 100 32 32; mkRect 132 100 32 32; mkRect 10 200 32 32]).
  { intros i j a b Hne Ha Hb.
    destruct i as [| [| [| i]]]; destruct j as [| [| [| j]]];
      try (exfalso; apply Hne; reflexivity); simplify_eq/=; reflexivity. }
  split; [exact H |]. exact (mergeDirty_disjoint_unchanged _ H).
Defined.

(** ** Expiry, continued *)

Lemma expire_slot_again now t :
  expire_slot now (fst (expire_slot now t)) = (fst (expire_slot now t), []).
Proof.
  unfold expire_slot at 2 3.
  destruct (expired now t) eqn:He.
  - destruct (eraseTrackIfDrawn t) as [t' ops] eqn:Herase. simpl.
    unfold expire_slot, expired. simpl. reflexivity.
  - simpl. apply expire_slot_kept, He.
Qed.

Lemma expireOldTracks_nothing now tracks :
  Forall (fun t => expire_slot now t = (t, [])) tracks ->
  expireOldTracks now tracks = (tracks, []).
Proof.
  induction 1 as [| t rest Ht _ IH]; simpl; [reflexivity |].
  rewrite Ht, IH. reflexivity.
Qed.

(** X5: After [expireOldTracks] no slot in use is older than the time to
    live; every slot in use passes the freshness test of [buildDrawList]
    made at the same time, which is the looser one (30 s against 15 s);
    and expiring again at the same time changes nothing and draws nothing. *)
Theorem expire_leaves_fresh (now : Z) (tracks : list Track) :
  Forall (fun t => used t = true ->
                   u32_sub now (lastUpdateMs t) <= TRACK_TTL_MS /\
                   (MAX_SEEN_POS_MS <? u32_sub now (lastUpdateMs t)) = false)
    (fst (expireOldTracks now tracks)) /\
  expireOldTracks now (fst (expireOldTracks now tracks))
    = (fst (expireOldTracks now tracks), []).
Proof.
  rewrite expireOldTracks_fst. split.
  - apply Forall_fmap, Forall_forall. intros t _. simpl. intros Hu.
    destruct (expired now t) eqn:He.
    + destruct (expire_slot_freed now t He) as (Hf & _). congruence.
    + rewrite (expire_slot_kept now t He) in *. simpl in *.
      unfold expired in He. rewrite Hu in He. simpl in He.
      apply Z.ltb_ge in He. split; [exact He |].
      apply Z.ltb_ge. unfold TRACK_TTL_MS, MAX_SEEN_POS_MS in *. lia.
  - apply expireOldTracks_nothing, Forall_fmap, Forall_forall.
    intros t _. simpl. apply expire_slot_again.
Qed.

Lemma u32_sub_elapsed last e :
  0 <= e < 2 ^ 32 -> u32_sub (u32 (last + e)) last = e.
Proof.
  intros He. unfold u32_sub, u32.
  rewrite Zminus_mod_idemp_l.
  replace (last + e - last) with e by lia. apply Z.mod_small, He.
Qed.

(** X6: The age test is right across the wrap-around of [millis ()]: for a
    slot written at [lastUpdateMs] and looked at [e] milliseconds later
    (less than 2^32), with the clock reduced modulo 2^32, the slot expires
    exactly when [e] exceeds the time to live. *)
Theorem expiry_across_rollover (t : Track) (e : Z) :
  0 <= e < 2 ^ 32 ->
  expired (u32 (lastUpdateMs t + e)) t = used t && (TRACK_TTL_MS <? e).
Proof.
  intros He. unfold expired. rewrite u32_sub_elapsed by exact He. reflexivity.
Qed.

Lemma expiry_across_rollover_witness :
  0 <= 150 < 2 ^ 32 /\
  u32 (lastUpdateMs plane_before_rollover + 150) = 50 /\
  expired (u32 (lastUpdateMs plane_before_rollover + 150)) plane_before_rollover
    = used plane_before_rollover && (TRACK_TTL_MS <? 150).
Proof.
  split; [lia |]. split; [reflexivity |].
  apply (expiry_across_rollover plane_before_rollover 150). lia.
Defined.

(** ** Upsert, continued *)

Lemma upsert_written o tracks :
  tracks <> [] ->
  exists idx t t1,
    idx = match findTrackByHex (obs_hex o) tracks with
          | Some i => i
          | None => allocTrackSlot tracks
          end /\
    tracks !! idx = Some t /\
    upsert o tracks =
      (<[idx := mkTrack true (take 6 (obs_hex o)) (take 8 (obs_flight o))
                  (obs_sx o) (obs_sy o) (oldDrawX t1) (oldDrawY t1)
                  (wrap360 (obs_track o)) (encode_altitude (obs_alt_m o))
                  (colorFromAltitudeM (encode_altitude (obs_alt_m o)))
                  (obs_millis o) (drawn t1)]> tracks,
       snd (if used t && negb (strncmp_eq 6 (hex t) (obs_hex o))
            then eraseTrackIfDrawn t else (t, []))) /\
    t1 = fst (if used t && negb (strncmp_eq 6 (hex t) (obs_hex o))
              then eraseTrackIfDrawn t else (t, [])).
Proof.
  intros Hne. pose proof (upsert_slot_in_range (obs_hex o) tracks Hne) as Hlt.
  unfold upsert.
  set (idx := match findTrackByHex (obs_hex o) tracks with
              | Some i => i | None => allocTrackSlot tracks end) in *.
  destruct (lookup_lt_is_Some_2 tracks idx Hlt) as [t Ht]. rewrite Ht.
  destruct (if used t && negb (strncmp_eq 6 (hex t) (obs_hex o))
            then eraseTrackIfDrawn t else (t, [])) as [t1 ops] eqn:He.
  exists idx, t, t1. rewrite He. simpl.
  split; [reflexivity |]. split; [exact Ht |]. split; reflexivity.
Qed.

(** X7: Insert then look up: after an upsert into a table without duplicate
    identities, looking the identity up gives a slot in use that holds the
    observation: its six identity characters, callsign, screen position,
    heading reduced to [0, 360), altitude, the colour of that altitude and
    the time of the update. *)
Theorem upsert_then_find (o : Observation) (tracks : list Track) :
  tracks <> [] -> unique_live tracks ->
  exists idx t,
    findTrackByHex (obs_hex o) (fst (upsert o tracks)) = Some idx /\
    fst (upsert o tracks) !! idx = Some t /\
    used t = true /\ hex t = take 6 (obs_hex o) /\
    flight t = take 8 (obs_flight o) /\
    cx t = obs_sx o /\ cy t = obs_sy o /\
    headingDeg t = wrap360 (obs_track o) /\ 0 <= headingDeg t < 360 /\
    altitude_m t = encode_altitude (obs_alt_m o) /\
    color t = colorFromAltitudeM (altitude_m t) /\
    lastUpdateMs t = obs_millis o.
Proof.
  intros Hne Huniq.
  destruct (upsert_written o tracks Hne) as (idx0 & t0 & t1 & _ & Ht0 & Hup & _).
  destruct (upsert_never_rejects o tracks Hne) as (idx & t & Hfind & Hidx & Hu & Hh).
  pose proof (upsert_unique_live o tracks Huniq) as Huniq'.
  rewrite Hup in *. simpl in *.
  assert (Hlt : (idx0 < length tracks)%nat) by (eapply lookup_lt_Some, Ht0).
  pose proof (list_lookup_insert_eq tracks idx0
                (mkTrack true (take 6 (obs_hex o)) (take 8 (obs_flight o))
                   (obs_sx o) (obs_sy o) (oldDrawX t1) (oldDrawY t1)
                   (wrap360 (obs_track o)) (encode_altitude (obs_alt_m o))
                   (colorFromAltitudeM (encode_altitude (obs_alt_m o)))
                   (obs_millis o) (drawn t1)) Hlt) as Hnew.
  assert (idx = idx0).
  { eapply Huniq'; [exact Hidx | exact Hnew | exact Hu | reflexivity |].
    simpl. rewrite Hh. symmetry. apply take_idemp. }
  subst idx0. rewrite Hnew in Hidx. injection Hidx as <-.
  exists idx. eexists. split; [exact Hfind |]. split; [exact Hnew |].
  simpl. repeat split; try reflexivity; apply wrap360_range.
Qed.

Lemma upsert_then_find_witness :
  tracks_init <> [] /\ unique_live tracks_init /\
  exists idx t,
    findTrackByHex (obs_hex new_plane) (fst (upsert new_plane tracks_init)) = Some idx /\
    fst (upsert new_plane tracks_init) !! idx = Some t /\
    used t = true /\ hex t = take 6 (obs_hex new_plane) /\
    flight t = take 8 (obs_flight new_plane) /\
    cx t = obs_sx new_plane /\ cy t = obs_sy new_plane /\
    headingDeg t = wrap360 (obs_track new_plane) /\ 0 <= headingDeg t < 360 /\
    altitude_m t = encode_altitude (obs_alt_m new_plane) /\
    color t = colorFromAltitudeM (altitude_m t) /\
    lastUpdateMs t = obs_millis new_plane.
Proof.
  assert (Hne : tracks_init <> []) by discriminate.
  split; [exact Hne |]. split; [exact unique_live_init |].
  exact (upsert_then_find new_plane tracks_init Hne unique_live_init).
Defined.

Lemma upsert_existing o tracks idx :
  findTrackByHex (obs_hex o) tracks = Some idx ->
  exists t, tracks !! idx = Some t /\ hex_matches (obs_hex o) t = true /\
            upsert o tracks = (<[idx := upsert_record o t]> tracks, []).
Proof.
  intros Hfind. unfold upsert. rewrite Hfind.
  unfold findTrackByHex in Hfind.
  apply fmap_Some in Hfind as ([i t] & Hf & Heq). simpl in Heq. subst i.
  apply list_find_Some in Hf as (Hi & Hm & _). rewrite Hi.
  exists t. split; [reflexivity |]. split; [exact Hm |].
  unfold hex_matches in Hm. apply andb_true_iff in Hm as [Hu Hs].
  rewrite Hu, Hs. reflexivity.
Qed.

Lemma upsert_free o tracks :
  findTrackByHex (obs_hex o) tracks = None ->
  Exists (fun t => used t = false) tracks ->
  exists idx t0, list_find (fun t => used t = false) tracks = Some (idx, t0) /\
                 upsert o tracks = (<[idx := upsert_record o t0]> tracks, []).
Proof.
  intros Hnone Hfree.
  apply Exists_exists in Hfree as (tf & Hin & Huf).
  destruct (list_find_elem_of (fun t => used t = false) tracks tf Hin Huf)
    as [[idx t0] Hf].
  exists idx, t0. split; [exact Hf |].
  pose proof Hf as Hf'. apply list_find_Some in Hf' as (Hi & Hu0 & _).
  unfold upsert. rewrite Hnone. unfold allocTrackSlot. rewrite Hf, Hi, Hu0.
  reflexivity.
Qed.

(** X8: A plane already in the table is updated in place: only its slot
    changes, the record of where it was last drawn and its drawn flag are
    kept, and nothing is sent to the display. *)
Theorem upsert_in_place (o : Observation) (tracks : list Track) (idx : nat) :
  findTrackByHex (obs_hex o) tracks = Some idx ->
  exists t t',
    tracks !! idx = Some t /\
    upsert o tracks = (<[idx := t']> tracks, []) /\
    oldDrawX t' = oldDrawX t /\ oldDrawY t' = oldDrawY t /\ drawn t' = drawn t /\
    hex t' = take 6 (obs_hex o) /\ lastUpdateMs t' = obs_millis o.
Proof.
  intros Hfind.
  destruct (upsert_existing o tracks idx Hfind) as (t & Hi & _ & Hup).
  exists t, (upsert_record o t). split; [exact Hi |]. split; [exact Hup |].
  simpl. repeat split; reflexivity.
Qed.

Lemma upsert_in_place_witness :
  findTrackByHex (obs_hex seen_again) two_plane_table = Some 0%nat /\
  exists t t',
    two_plane_table !! 0%nat = Some t /\
    upsert seen_again two_plane_table = (<[0%nat := t']> two_plane_table, []) /\
    oldDrawX t' = oldDrawX t /\ oldDrawY t' = oldDrawY t /\ drawn t' = drawn t /\
    hex t' = take 6 (obs_hex seen_again) /\ lastUpdateMs t' = obs_millis seen_again.
Proof.
  assert (H : findTrackByHex (obs_hex seen_again) two_plane_table = Some 0%nat)
    by (vm_compute; reflexivity).
  split; [exact H |]. exact (upsert_in_place seen_again two_plane_table 0 H).
Defined.

Lemma findTrackByHex_insert key (l : list Track) : forall i x y,
  l !! i = Some y -> hex_matches key x = hex_matches key y ->
  findTrackByHex key (<[i := x]> l) = findTrackByHex key l.
Proof.
  unfold findTrackByHex.
  induction l as [| a l IH]; intros i x y Hi Hm; [inversion Hi |].
  destruct i as [| i]; simpl in Hi.
  - injection Hi as ->. cbn. rewrite Hm.
    destruct (decide (hex_matches key y = true)); reflexivity.
  - cbn. destruct (decide (hex_matches key a = true)); [reflexivity |].
    specialize (IH i x y Hi Hm).
    destruct (list_find _ (<[i := x]> l)) as [[n1 b1] |],
      (list_find _ l) as [[n2 b2] |]; simpl in *; congruence.
Qed.

(** X9: With the identity absent and a slot free, the upsert writes the first
    free slot: every slot before it is in use, no slot in use is
    overwritten, and nothing is sent to the display. *)
Theorem upsert_takes_first_free_slot (o : Observation) (tracks : list Track) :
  findTrackByHex (obs_hex o) tracks = None ->
  Exists (fun t => used t = false) tracks ->
  exists idx t0 t',
    tracks !! idx = Some t0 /\ used t0 = false /\
    Forall (fun t => used t = true) (take idx tracks) /\
    upsert o tracks = (<[idx := t']> tracks, []) /\
    used t' = true /\ hex t' = take 6 (obs_hex o).
Proof.
  intros Hnone Hfree.
  destruct (upsert_free o tracks Hnone Hfree) as (idx & t0 & Hf & Hup).
  apply list_find_Some in Hf as (Hi & Hu0 & Hbefore).
  exists idx, t0, (upsert_record o t0).
  split; [exact Hi |]. split; [exact Hu0 |].
  split; [| split; [exact Hup |]; split; reflexivity].
  apply Forall_forall. intros t Ht.
  apply elem_of_take in Ht as (j & Hj & Hlt).
  specialize (Hbefore j t Hj Hlt). destruct (used t); [reflexivity | congruence].
Qed.

Lemma upsert_takes_first_free_slot_witness :
  findTrackByHex (obs_hex new_plane) two_plane_table = None /\
  Exists (fun t => used t = false) two_plane_table /\
  exists idx t0 t',
    two_plane_table !! idx = Some t0 /\ used t0 = false /\
    Forall (fun t => used t = true) (take idx two_plane_table) /\
    upsert new_plane two_plane_table = (<[idx := t']> two_plane_table, []) /\
    used t' = true /\ hex t' = take 6 (obs_hex new_plane).
Proof.
  assert (H1 : findTrackByHex (obs_hex new_plane) two_plane_table = None)
    by (vm_compute; reflexivity).
  assert (H2 : Exists (fun t => used t = false) two_plane_table).
  { apply Exists_exists. exists Track_init. split; [| reflexivity].
    apply (list_elem_of_lookup_2 _ 2%nat). reflexivity. }
  split; [exact H1 |]. split; [exact H2 |].
  exact (upsert_takes_first_free_slot new_plane two_plane_table H1 H2).
Defined.

(** X10: An upsert that updates a plane in place or takes a free slot leaves
    every other plane where it was: looking up any other identity gives
    the same slot as before. *)
Theorem upsert_keeps_other_planes (o : Observation) (tracks : list Track)
    (key' : cstr) :
  take 6 key' <> take 6 (obs_hex o) ->
  is_Some (findTrackByHex (obs_hex o) tracks) \/
    Exists (fun t => used t = false) tracks ->
  findTrackByHex key' (fst (upsert o tracks)) = findTrackByHex key' tracks.
Proof.
  intros Hkey Hroom.
  assert (Hnew : forall t, hex_matches key' (upsert_record o t) = false).
  { intros t. apply not_true_is_false. intros Hm.
    apply hex_matches_true in Hm as [_ Hm]. apply Hkey.
    simpl in Hm. rewrite take_idemp in Hm. congruence. }
  destruct (findTrackByHex (obs_hex o) tracks) as [idx |] eqn:Hfind.
  - destruct (upsert_existing o tracks idx Hfind) as (t & Hi & Hm & Hup).
    rewrite Hup. simpl.
    apply (findTrackByHex_insert key' tracks idx _ t Hi).
    rewrite Hnew. symmetry. apply not_true_is_false. intros Hm'.
    apply hex_matches_true in Hm as [_ Hm].
    apply hex_matches_true in Hm' as [_ Hm']. apply Hkey. congruence.
  - destruct Hroom as [[? Hs] | Hfree]; [discriminate |].
    destruct (upsert_free o tracks Hfind Hfree) as (idx & t0 & Hf & Hup).
    apply list_find_Some in Hf as (Hi & Hu0 & _).
    rewrite Hup. simpl.
    apply (findTrackByHex_insert key' tracks idx _ t0 Hi).
    rewrite Hnew. unfold hex_matches. rewrite Hu0. reflexivity.
Qed.

Lemma upsert_keeps_other_planes_witness :
  take 6 (list_ascii_of_string "3c6589") <> take 6 (obs_hex new_plane) /\
  (is_Some (findTrackByHex (obs_hex new_plane) two_plane_table) \/
   Exists (fun t => used t = false) two_plane_table) /\
  findTrackByHex (list_ascii_of_string "3c6589") (fst (upsert new_plane two_plane_table))
    = findTrackByHex (list_ascii_of_string "3c6589") two_plane_table.
Proof.
  assert (H1 : take 6 (list_ascii_of_string "3c6589") <> take 6 (obs_hex new_plane))
    by discriminate.
  assert (H2 : is_Some (findTrackByHex (obs_hex new_plane) two_plane_table) \/
               Exists (fun t => used t = false) two_plane_table).
  { right. apply Exists_exists. exists Track_init. split; [| reflexivity].
    apply (list_elem_of_lookup_2 _ 2%nat). reflexivity. }
  split; [exact H1 |]. split; [exact H2 |].
  exact (upsert_keeps_other_planes new_plane two_plane_table _ H1 H2).
Defined.

(** X11: When the table is full the slot taken over held another plane: if
    that plane was drawn, the upsert restores the background over every
    on-screen pixel of its rectangle before the slot is reused, and the
    slot starts again as not drawn. *)
Theorem upsert_recycle_erases (o : Observation) (tracks : list Track)
    (victim : Track) (px py : Z) :
  findTrackByHex (obs_hex o) tracks = None ->
  tracks !! allocTrackSlot tracks = Some victim ->
  used victim = true -> drawn victim = true ->
  on_screen px py -> in_rect px py (trackRectOld victim) ->
  restored px py (snd (upsert o tracks)) /\
  (drawn <$> fst (upsert o tracks) !! allocTrackSlot tracks) = Some false.
Proof.
  intros Hnone Hv Hu Hd Hs Hr. split.
  - apply (upsert_recycled_slot_erased o tracks victim); assumption.
  - unfold upsert. rewrite Hnone, Hv.
    assert (Hdiff : strncmp_eq 6 (hex victim) (obs_hex o) = false).
    { apply not_true_is_false. intros Heq.
      unfold findTrackByHex in Hnone. apply fmap_None in Hnone.
      apply list_find_None in Hnone. rewrite Forall_forall in Hnone.
      apply (Hnone victim); [eapply list_elem_of_lookup_2, Hv |].
      unfold hex_matches. rewrite Hu, Heq. reflexivity. }
    rewrite Hu, Hdiff. simpl. unfold eraseTrackIfDrawn. rewrite Hd. simpl.
    rewrite list_lookup_insert_eq by (eapply lookup_lt_Some, Hv). reflexivity.
Qed.

Lemma upsert_recycle_erases_witness :
  findTrackByHex (obs_hex new_plane) full_drawn_table = None /\
  allocTrackSlot full_drawn_table = 193%nat /\
  on_screen 230 150 /\
  restored 230 150 (snd (upsert new_plane full_drawn_table)) /\
  (drawn <$> fst (upsert new_plane full_drawn_table) !! allocTrackSlot full_drawn_table)
    = Some false.
Proof.
  assert (H1 : findTrackByHex (obs_hex new_plane) full_drawn_table = None)
    by (vm_compute; reflexivity).
  assert (H2 : allocTrackSlot full_drawn_table = 193%nat) by (vm_compute; reflexivity).
  assert (Hs : on_screen 230 150) by (unfold on_screen, SW, SH; lia).
  split; [exact H1 |]. split; [exact H2 |]. split; [exact Hs |].
  apply (upsert_recycle_erases new_plane full_drawn_table
           (mkTrack true (slot_key 193) [] 240 160 224 144 0 1000 TFT_GREEN 1000 true)
           230 150 H1).
  - rewrite H2. vm_compute. reflexivity.
  - reflexivity.
  - reflexivity.
  - exact Hs.
  - unfold in_rect, trackRectOld, PW, PH. simpl. lia.
Defined.

(** ** The draw list, continued *)

Lemma collect_drawable_mono now maxOut ts : forall i out s,
  s ∈ out -> s ∈ collect_drawable now maxOut ts i out.
Proof.
  induction ts as [| t rest IH]; intros i out s Hs; simpl; [exact Hs |].
  destruct (length out <? maxOut)%nat; [| exact Hs].
  apply IH. destruct (drawable now t); [| exact Hs].
  apply elem_of_app. left. exact Hs.
Qed.

Lemma collect_drawable_NoDup now maxOut ts : forall i out,
  NoDup out -> Forall (fun s => (s < i)%nat) out ->
  NoDup (collect_drawable now maxOut ts i out).
Proof.
  induction ts as [| t rest IH]; intros i out Hnd Hlt; simpl; [exact Hnd |].
  destruct (length out <? maxOut)%nat; [| exact Hnd].
  apply IH.
  - destruct (drawable now t); [| exact Hnd].
    apply NoDup_app. split; [exact Hnd |]. split; [| apply NoDup_singleton].
    intros s Hs Hi. apply list_elem_of_singleton in Hi as ->.
    rewrite Forall_forall in Hlt. specialize (Hlt i Hs). lia.
  - assert (Hlt' : Forall (fun s => (s < S i)%nat) out)
      by (eapply Forall_impl; [exact Hlt | simpl; intros; lia]).
    destruct (drawable now t); [| exact Hlt'].
    apply Forall_app. split; [exact Hlt' |]. constructor; [lia | constructor].
Qed.

Lemma collect_drawable_complete now maxOut ts : forall i out k t,
  ts !! k = Some t -> drawable now t = true ->
  (i + k)%nat ∈ collect_drawable now maxOut ts i out \/
  (maxOut <= length (collect_drawable now maxOut ts i out))%nat.
Proof.
  induction ts as [| t0 rest IH]; intros i out k t Hk Hd; [inversion Hk |].
  simpl. destruct (Nat.ltb_spec (length out) maxOut) as [Hlt | Hge]; [| right; exact Hge].
  destruct k as [| k]; simpl in Hk.
  - injection Hk as ->. rewrite Hd. left. apply collect_drawable_mono.
    apply elem_of_app. right. rewrite Nat.add_0_r. apply list_elem_of_singleton. reflexivity.
  - replace (i + S k)%nat with (S i + k)%nat by lia. eapply IH; eassumption.
Qed.

Lemma drawable_geometry now t :
  drawable now t = true ->
  used t = true /\
  u32_sub now (lastUpdateMs t) <= MAX_SEEN_POS_MS /\
  LEGEND_H <= rect_y (trackRectCurrent t) /\
  rect_y (trackRectCurrent t) + rect_h (trackRectCurrent t) <= SH - BOTTOM_H /\
  - PW <= rect_x (trackRectCurrent t) <= SW.
Proof.
  unfold drawable, trackRectCurrent. cbn [rect_x rect_y rect_w rect_h].
  rewrite !andb_true_iff, !negb_true_iff, !orb_false_iff, !Z.ltb_ge. tauto.
Qed.

(** X12: The draw list names no slot twice and at most [maxOut] slots; every
    slot it names is in use, fresh, and its icon lies between the legend
    strip and the status strip and at most one icon width off the canvas
    sideways; and a slot that passes the filters is left out only when the
    list is full. *)
Theorem buildDrawList_wellformed (now : Z) (maxOut : nat) (tracks : list Track) :
  NoDup (buildDrawList now maxOut tracks) /\
  (length (buildDrawList now maxOut tracks) <= maxOut)%nat /\
  Forall (fun slot => exists t,
            tracks !! slot = Some t /\ used t = true /\
            u32_sub now (lastUpdateMs t) <= MAX_SEEN_POS_MS /\
            LEGEND_H <= rect_y (trackRectCurrent t) /\
            rect_y (trackRectCurrent t) + PH <= SH - BOTTOM_H /\
            - PW <= rect_x (trackRectCurrent t) <= SW)
    (buildDrawList now maxOut tracks) /\
  (forall slot t, tracks !! slot = Some t -> drawable now t = true ->
     slot ∈ buildDrawList now maxOut tracks \/
     length (buildDrawList now maxOut tracks) = maxOut).
Proof.
  pose proof (buildDrawList_permutation now maxOut tracks) as Hp.
  pose proof (buildDrawList_length now maxOut tracks) as Hlen.
  split; [| split; [exact Hlen |]; split].
  - rewrite Hp. apply collect_drawable_NoDup; constructor.
  - apply Forall_forall. intros slot Hin.
    destruct (buildDrawList_selected now maxOut tracks slot Hin) as (t & Ht & _ & Hd).
    exists t. split; [exact Ht |].
    apply drawable_geometry in Hd. exact Hd.
  - intros slot t Ht Hd.
    destruct (collect_drawable_complete now maxOut tracks 0 [] slot t Ht Hd) as [Hin | Hfull].
    + left. rewrite Hp. exact Hin.
    + right. rewrite Hp in Hlen |- *. simpl in Hfull. lia.
Qed.

Lemma carry_lowest_sorted alt x rest :
  Forall (key_le alt x) rest -> carry_lowest alt x rest = (x, rest).
Proof.
  induction 1 as [| y rest Hy _ IH]; simpl; [reflexivity |].
  unfold key_le in Hy.
  destruct (Z.ltb_spec (sort_key (alt y)) (sort_key (alt x))); [lia |].
  rewrite IH. reflexivity.
Qed.

Lemma sort_outer_sorted alt n : forall pre suffix,
  (length suffix - 1)%nat = n -> StronglySorted (key_le alt) suffix ->
  sort_outer alt n (length pre) (pre ++ suffix) = pre ++ suffix.
Proof.
  induction n as [| n IH]; intros pre suffix Hn Hs; [reflexivity |].
  destruct suffix as [| x rest]; [simpl in Hn; lia |].
  simpl in Hn. rewrite Nat.sub_0_r in Hn.
  apply StronglySorted_inv in Hs as [Hs Hall].
  simpl sort_outer.
  replace (length (pre ++ x :: rest) - S (length pre))%nat with (length rest)
    by (rewrite length_app; simpl; lia).
  pose proof (sort_inner_carry alt rest pre x []) as Hin.
  simpl in Hin. rewrite Nat.add_0_r in Hin.
  replace (length pre + 1)%nat with (S (length pre)) in Hin by lia.
  rewrite Hin, (carry_lowest_sorted alt x rest Hall). simpl.
  specialize (IH (pre ++ [x]) rest ltac:(lia) Hs).
  rewrite length_app in IH. simpl in IH.
  replace (length pre + 1)%nat with (S (length pre)) in IH by lia.
  rewrite <- app_assoc in IH. simpl in IH. exact IH.
Qed.

(** A draw list that is already in draw order is not rearranged by the
    sort. *)
Theorem sortByAltitude_sorted_unchanged (alt : nat -> Z) (outIdx : list nat) :
  StronglySorted (key_le alt) outIdx -> sortByAltitude alt outIdx = outIdx.
Proof.
  intros Hs. unfold sortByAltitude.
  exact (sort_outer_sorted alt (length outIdx - 1) [] outIdx eq_refl Hs).
Qed.

Lemma sortByAltitude_sorted_unchanged_witness :
  StronglySorted (key_le (track_altitude draw_order_table)) [1; 2; 0]%nat /\
  sortByAltitude (track_altitude draw_order_table) [1; 2; 0]%nat = [1; 2; 0]%nat.
Proof.
  assert (H : StronglySorted (key_le (track_altitude draw_order_table)) [1; 2; 0]%nat).
  { repeat constructor; unfold key_le; vm_compute; discriminate. }
  split; [exact H |]. exact (sortByAltitude_sorted_unchanged _ _ H).
Defined.

(** ** The status line, continued *)

Lemma bind_all_nil {A B} (f : A -> list B) (l : list A) :
  (forall x, f x = []) -> l ≫= f = [].
Proof.
  intros Hf. induction l as [| x l IH]; [reflexivity |].
  rewrite bind_cons, Hf, IH. reflexivity.
Qed.

Lemma diff_cell_same s i : diff_cell s s i = [].
Proof.
  unfold diff_cell. destruct (decide (char_at s i = char_at s i)); [reflexivity | congruence].
Qed.

(** X13: A text whose first 95 characters are those already on the bar paints
    nothing and leaves the state as it is; the string kept between calls
    always fits the 96-byte buffer and contains no NUL. *)
Theorem status_line_same_text (text0 text1 : list ascii) (st : StatusLine) :
  rendered text1 = rendered text0 ->
  let st1 := fst (drawBottomBarTextDiff text0 st) in
  drawBottomBarTextDiff text1 st1 = (st1, []) /\
  (length (bottomPrev st1) <= 95)%nat /\ NUL ∉ bottomPrev st1.
Proof.
  intros Heq st1.
  assert (Hst1 : st1 = mkStatusLine (rendered text0) true)
    by apply drawBottomBarTextDiff_state.
  rewrite Hst1. simpl. split; [| split].
  - unfold drawBottomBarTextDiff. simpl. fold (rendered text1). rewrite Heq.
    f_equal. apply bind_all_nil. intros i. apply diff_cell_same.
  - apply rendered_length.
  - apply rendered_no_NUL.
Qed.

Lemma status_line_same_text_witness :
  rendered (list_ascii_of_string "Tot 5 Pos 3") = rendered (list_ascii_of_string "Tot 5 Pos 3") /\
  drawBottomBarTextDiff (list_ascii_of_string "Tot 5 Pos 3")
    (fst (drawBottomBarTextDiff (list_ascii_of_string "Tot 5 Pos 3") StatusLine_init))
  = (fst (drawBottomBarTextDiff (list_ascii_of_string "Tot 5 Pos 3") StatusLine_init), []).
Proof.
  split; [reflexivity |].
  apply (status_line_same_text (list_ascii_of_string "Tot 5 Pos 3")
           (list_ascii_of_string "Tot 5 Pos 3") StatusLine_init eq_refl).
Defined.

(** ** Heading to sprite index, continued *)

Lemma wrap360_mod deg : wrap360 deg = deg mod 360.
Proof.
  unfold wrap360, c_mod.
  pose proof (Z.quot_rem' deg 360) as Hqr.
  pose proof (Z.rem_bound_abs deg 360 ltac:(lia)) as Hb.
  destruct (Z.ltb_spec (Z.rem deg 360) 0).
  - rewrite i32_small by lia.
    apply (Z.mod_unique deg 360 (Z.quot deg 360 - 1)); lia.
  - apply (Z.mod_unique deg 360 (Z.quot deg 360)); lia.
Qed.

(** X14: With the counter-clockwise sprite table of the sketch, heading [h]
    takes the sprite of [-h] modulo 360; whole turns do not matter, and
    mapping twice gives the heading back, reduced to [0, 360). *)
Theorem mapHeadingToSprite_mirror (deg : Z) :
  mapHeadingToSprite deg = (- deg) mod 360 /\
  mapHeadingToSprite (deg + 360) = mapHeadingToSprite deg /\
  mapHeadingToSprite (mapHeadingToSprite deg) = deg mod 360.
Proof.
  assert (Hopp : forall d, (- d) mod 360 = (360 - d mod 360) mod 360).
  { intros d. pose proof (Z.div_mod d 360 ltac:(lia)) as Hd.
    pose proof (Z.mod_pos_bound d 360 ltac:(lia)) as Hb.
    pose proof (Z.mod_pos_bound (360 - d mod 360) 360 ltac:(lia)) as Hb'.
    pose proof (Z.div_mod (360 - d mod 360) 360 ltac:(lia)) as Hd'.
    symmetry.
    apply (Z.mod_unique (- d) 360 (- (d / 360) - 1 + (360 - d mod 360) / 360)); lia. }
  assert (Hm : forall d, mapHeadingToSprite d = (- d) mod 360).
  { intros d.
    change (mapHeadingToSprite d)
      with (c_mod (i32 (c_mod (i32 (360 - wrap360 d)) 360 + 0)) 360).
    rewrite wrap360_mod, Hopp.
    pose proof (Z.mod_pos_bound d 360 ltac:(lia)) as Hb.
    rewrite (i32_small (360 - d mod 360)) by lia. unfold c_mod.
    rewrite (Z.rem_mod_nonneg (360 - d mod 360)) by lia.
    pose proof (Z.mod_pos_bound (360 - d mod 360) 360 ltac:(lia)) as Hb'.
    rewrite Z.add_0_r, i32_small by lia. apply Z.rem_small. lia. }
  split; [apply Hm |]. split.
  - rewrite !Hm. replace (- (deg + 360)) with (- deg + (-1) * 360) by lia.
    apply Z.mod_add. lia.
  - rewrite (Hm (mapHeadingToSprite deg)), Hm, (Hopp deg).
    pose proof (Z.mod_pos_bound deg 360 ltac:(lia)) as Hb.
    destruct (decide (deg mod 360 = 0)) as [H0 | Hnz].
    + rewrite H0. reflexivity.
    + rewrite (Z.mod_small (360 - deg mod 360)) by lia.
      symmetry. apply (Z.mod_unique _ 360 (-1)); lia.
Qed.

(** ** The render cycle *)

Lemma same_plane_refl t : same_plane t t.
Proof. unfold same_plane. repeat split; reflexivity. Qed.

Lemma same_plane_trans a b c : same_plane a b -> same_plane b c -> same_plane a c.
Proof. unfold same_plane. intuition congruence. Qed.

Lemma same_plane_current a b :
  same_plane a b -> trackRectCurrent b = trackRectCurrent a /\ plane_op b = plane_op a.
Proof.
  unfold same_plane, plane_op, trackRectCurrent.
  intros (_ & _ & _ & -> & -> & -> & _ & -> & _). split; reflexivity.
Qed.

Lemma painted_stable a b : repaint_rel a b -> painted a -> painted b.
Proof. intros [_ [-> | Hp]] Ha; assumption. Qed.

Lemma repaint_rel_refl t : repaint_rel t t.
Proof. split; [apply same_plane_refl | left; reflexivity]. Qed.

Lemma repaint_rel_trans a b c : repaint_rel a b -> repaint_rel b c -> repaint_rel a c.
Proof.
  intros [Hab Hb] [Hbc Hc]. split; [eapply same_plane_trans; eassumption |].
  destruct Hc as [-> | Hc]; [| right; exact Hc]. exact Hb.
Qed.

Lemma Forall2_repaint_refl ts : Forall2 repaint_rel ts ts.
Proof. induction ts; constructor; [apply repaint_rel_refl | assumption]. Qed.

Lemma Forall2_repaint_trans a b c :
  Forall2 repaint_rel a b -> Forall2 repaint_rel b c -> Forall2 repaint_rel a c.
Proof.
  intros Hab. revert c. induction Hab as [| x y l k Hxy _ IH]; intros c Hbc.
  - inversion Hbc. constructor.
  - inversion Hbc as [| y' z k' m Hyz Hkm]; subst.
    constructor; [eapply repaint_rel_trans; eassumption | apply IH, Hkm].
Qed.

Lemma later_refl s : later s s.
Proof.
  split; [apply Forall2_repaint_refl |]. exists []. symmetry. apply app_nil_r.
Qed.

Lemma later_trans a b c : later a b -> later b c -> later a c.
Proof.
  intros [Hab [e1 H1]] [Hbc [e2 H2]]. split.
  - eapply Forall2_repaint_trans; eassumption.
  - exists (e1 ++ e2). rewrite H2, H1, app_assoc. reflexivity.
Qed.

Lemma later_op s s' op : later s s' -> op ∈ snd s -> op ∈ snd s'.
Proof.
  intros [_ [extra ->]] Hin. apply elem_of_app. left. exact Hin.
Qed.

Lemma later_lookup s s' slot t :
  later s s' -> fst s !! slot = Some t ->
  exists t', fst s' !! slot = Some t' /\ repaint_rel t t'.
Proof.
  intros [Hf _] Ht. eapply Forall2_lookup_l in Hf as (t' & Ht' & Hr); eauto.
Qed.

Lemma redraw_slot_later r s slot : later s (redraw_slot r s slot).
Proof.
  destruct s as [ts ops]. unfold redraw_slot.
  destruct (ts !! slot) as [t |] eqn:Ht; [| apply later_refl].
  destruct (rectIntersects r (trackRectCurrent t)); [| apply later_refl].
  split; simpl; [| eauto].
  rewrite <- (list_insert_id ts slot t Ht) at 1.
  apply Forall2_insert; [apply Forall2_repaint_refl |].
  split; [unfold same_plane; simpl; repeat split; reflexivity |].
  right. unfold painted. simpl. repeat split; reflexivity.
Qed.

Lemma foldl_redraw_later r drawIdx : forall s,
  later s (foldl (redraw_slot r) s drawIdx).
Proof.
  induction drawIdx as [| k rest IH]; intros s; simpl; [apply later_refl |].
  eapply later_trans; [apply redraw_slot_later | apply IH].
Qed.

Lemma repaint_rect_later drawIdx s r : later s (repaint_rect drawIdx s r).
Proof.
  destruct s as [ts ops]. unfold repaint_rect.
  eapply later_trans; [| apply foldl_redraw_later].
  split; simpl; [apply Forall2_repaint_refl | eauto].
Qed.

Lemma foldl_repaint_later drawIdx dirty : forall s,
  later s (foldl (repaint_rect drawIdx) s dirty).
Proof.
  induction dirty as [| r rest IH]; intros s; simpl; [apply later_refl |].
  eapply later_trans; [apply repaint_rect_later | apply IH].
Qed.

(** The redraw of one slot that intersects the rectangle. *)
Lemma redraw_slot_paints r s slot t :
  fst s !! slot = Some t -> rectIntersects r (trackRectCurrent t) = true ->
  (exists t', fst (redraw_slot r s slot) !! slot = Some t' /\ painted t') /\
  plane_op t ∈ snd (redraw_slot r s slot).
Proof.
  destruct s as [ts ops]. simpl. intros Ht Hint. unfold redraw_slot.
  rewrite Ht, Hint. simpl. split.
  - eexists. split; [apply list_lookup_insert_eq; eapply lookup_lt_Some, Ht |].
    unfold painted. simpl. repeat split; reflexivity.
  - apply elem_of_app. right. apply list_elem_of_singleton. reflexivity.
Qed.

Lemma foldl_redraw_paints r drawIdx : forall s slot t,
  slot ∈ drawIdx -> fst s !! slot = Some t ->
  rectIntersects r (trackRectCurrent t) = true ->
  (exists t', fst (foldl (redraw_slot r) s drawIdx) !! slot = Some t' /\ painted t') /\
  plane_op t ∈ snd (foldl (redraw_slot r) s drawIdx).
Proof.
  induction drawIdx as [| k rest IH]; intros s slot t Hin Ht Hint; [inversion Hin |].
  simpl. destruct (decide (slot = k)) as [-> | Hne].
  - destruct (redraw_slot_paints r s k t Ht Hint) as [(t1 & Ht1 & Hp1) Hop].
    pose proof (foldl_redraw_later r rest (redraw_slot r s k)) as Hl. split.
    + destruct (later_lookup _ _ k t1 Hl Ht1) as (t' & Ht' & Hr).
      exists t'. split; [exact Ht' | eapply painted_stable; eassumption].
    + eapply later_op; eassumption.
  - apply elem_of_cons in Hin as [? | Hin]; [contradiction |].
    destruct (later_lookup _ _ slot t (redraw_slot_later r s k) Ht) as (t1 & Ht1 & [Hs _]).
    destruct (same_plane_current t t1 Hs) as [Hc Hop].
    rewrite <- Hop. apply (IH _ slot t1 Hin Ht1). rewrite Hc. exact Hint.
Qed.

Lemma foldl_repaint_paints drawIdx dirty : forall s r slot t,
  r ∈ dirty -> slot ∈ drawIdx -> fst s !! slot = Some t ->
  rectIntersects r (trackRectCurrent t) = true ->
  (exists t', fst (foldl (repaint_rect drawIdx) s dirty) !! slot = Some t' /\
              painted t' /\ same_plane t t') /\
  plane_op t ∈ snd (foldl (repaint_rect drawIdx) s dirty).
Proof.
  induction dirty as [| r0 rest IH]; intros s r slot t Hr Hin Ht Hint; [inversion Hr |].
  simpl. apply elem_of_cons in Hr as [-> | Hr].
  - destruct s as [ts ops]. simpl in Ht.
    destruct (foldl_redraw_paints r0 drawIdx
                (ts, ops ++ restoreBgRectWide (rect_x r0) (rect_y r0) (rect_w r0) (rect_h r0))
                slot t Hin Ht Hint) as [(t1 & Ht1 & Hp1) Hop].
    fold (repaint_rect drawIdx (ts, ops) r0) in Ht1, Hop.
    pose proof (foldl_repaint_later drawIdx rest (repaint_rect drawIdx (ts, ops) r0)) as Hl.
    pose proof (repaint_rect_later drawIdx (ts, ops) r0) as Hl0.
    split.
    + destruct (later_lookup _ _ slot t1 Hl Ht1) as (t' & Ht' & Hr').
      exists t'. split; [exact Ht' |]. split; [eapply painted_stable; eassumption |].
      destruct (later_lookup _ _ slot t Hl0 Ht) as (t1' & Ht1' & [Hs1 _]).
      rewrite Ht1 in Ht1'. injection Ht1' as <-.
      eapply same_plane_trans; [exact Hs1 | apply Hr'].
    + eapply later_op; eassumption.
  - destruct (later_lookup _ _ slot t (repaint_rect_later drawIdx s r0) Ht)
      as (t1 & Ht1 & [Hs _]).
    destruct (same_plane_current t t1 Hs) as [Hc Hop].
    rewrite <- Hop.
    destruct (IH (repaint_rect drawIdx s r0) r slot t1 Hr Hin Ht1) as [(t' & Ht' & Hp & Hs') Hop'].
    { rewrite Hc. exact Hint. }
    split; [| exact Hop'].
    exists t'. split; [exact Ht' |]. split; [exact Hp |].
    eapply same_plane_trans; eassumption.
Qed.

(** Every rectangle of the dirty set has its on-screen pixels restored. *)
Lemma foldl_repaint_restores drawIdx dirty : forall s r px py,
  r ∈ dirty -> on_screen px py -> in_rect px py r ->
  restored px py (snd (foldl (repaint_rect drawIdx) s dirty)).
Proof.
  induction dirty as [| r0 rest IH]; intros s r px py Hr Hs Hp; [inversion Hr |].
  simpl. apply elem_of_cons in Hr as [-> | Hr]; [| eapply IH; eassumption].
  assert (H0 : restored px py (snd (repaint_rect drawIdx s r0))).
  { destruct s as [ts ops]. unfold repaint_rect.
    pose proof (foldl_redraw_later r0 drawIdx
                  (ts, ops ++ restoreBgRectWide (rect_x r0) (rect_y r0) (rect_w r0) (rect_h r0)))
      as Hl.
    pose proof (restoreBgRect_covers (rect_x r0) (rect_y r0) (rect_w r0) (rect_h r0) px py Hs)
      as Hcov.
    destruct r0 as [x y w h]. simpl in *. specialize (Hcov Hp).
    unfold restored in *. apply Exists_exists in Hcov as (op & Hin & Hop).
    apply Exists_exists. exists op. split; [| exact Hop].
    eapply later_op; [exact Hl |]. simpl. apply elem_of_app. right. exact Hin. }
  unfold restored in *. apply Exists_exists in H0 as (op & Hin & Hop).
  apply Exists_exists. exists op. split; [| exact Hop].
  eapply later_op; [apply foldl_repaint_later | exact Hin].
Qed.

Lemma isInDrawList_spec idx drawIdx :
  isInDrawList idx drawIdx = true <-> idx ∈ drawIdx.
Proof.
  unfold isInDrawList. rewrite existsb_exists. split.
  - intros (k & Hin & Hk). apply Nat.eqb_eq in Hk as ->.
    apply list_elem_of_In. exact Hin.
  - intros Hin. exists idx. split; [apply list_elem_of_In, Hin | apply Nat.eqb_refl].
Qed.

Lemma mark_removed_spec drawIdx ts : forall i,
  Forall2 same_plane ts (fst (mark_removed drawIdx ts i)) /\
  forall k t, ts !! k = Some t ->
    if used t && drawn t && negb (isInDrawList (i + k) drawIdx)
    then fst (mark_removed drawIdx ts i) !! k = Some (set_drawn false t) /\
         trackRectOld t ∈ snd (mark_removed drawIdx ts i)
    else fst (mark_removed drawIdx ts i) !! k = Some t.
Proof.
  induction ts as [| t0 rest IH]; intros i; simpl.
  - split; [constructor | intros k t Hk; inversion Hk].
  - destruct (IH (S i)) as [Hsame Hlook].
    destruct (mark_removed drawIdx rest (S i)) as [rest' dirty]. simpl in *.
    split.
    + destruct (used t0 && drawn t0 && negb (isInDrawList i drawIdx)); simpl;
        constructor; try exact Hsame;
        unfold same_plane; simpl; repeat split; reflexivity.
    + intros [| k] t Hk; simpl in Hk.
      * injection Hk as ->. rewrite Nat.add_0_r.
        destruct (used t && drawn t && negb (isInDrawList i drawIdx)); simpl;
          [split; [reflexivity | left] | reflexivity].
      * specialize (Hlook k t Hk).
        replace (i + S k)%nat with (S (i + k)) by lia.
        destruct (used t && drawn t && negb (isInDrawList (S (i + k)) drawIdx)).
        -- destruct Hlook as [H1 H2].
           destruct (used t0 && drawn t0 && negb (isInDrawList i drawIdx));
             (split; [exact H1 |]); [right; exact H2 | exact H2].
        -- destruct (used t0 && drawn t0 && negb (isInDrawList i drawIdx));
             exact Hlook.
Qed.

Lemma covered_clamp_all (rects : list Rect) r px py :
  r ∈ rects -> on_screen px py -> in_rect px py r ->
  covered px py (clamp_all rects).
Proof.
  intros Hin Hs Hp. unfold covered. apply Exists_exists.
  exists (rectClampToScreen r).
  assert (Hc : in_rect px py (rectClampToScreen r))
    by (apply rectClampToScreen_in_rect; split; assumption).
  split; [| exact Hc].
  unfold clamp_all. apply list_elem_of_filter. split.
  - unfold in_rect in Hc. lia.
  - apply list_elem_of_fmap. exists r. split; [reflexivity | exact Hin].
Qed.

Lemma draw_rects_current tracks drawIdx slot t :
  slot ∈ drawIdx -> tracks !! slot = Some t ->
  trackRectCurrent t ∈ draw_rects tracks drawIdx /\
  (drawn t = true -> trackRectOld t ∈ draw_rects tracks drawIdx).
Proof.
  intros Hin Ht. unfold draw_rects. split.
  - apply list_elem_of_bind. exists slot. split; [| exact Hin].
    rewrite Ht. apply elem_of_app. right. apply list_elem_of_singleton. reflexivity.
  - intros Hd. apply list_elem_of_bind. exists slot. split; [| exact Hin].
    rewrite Ht, Hd. left.
Qed.

(** ** Expiry and the dirty set *)

(** The first loop of the cycle takes old rectangles only from slots in
    use that were drawn. *)
Lemma mark_removed_from drawIdx ts : forall i r,
  r ∈ snd (mark_removed drawIdx ts i) ->
  exists k t, ts !! k = Some t /\ used t = true /\ r = trackRectOld t.
Proof.
  induction ts as [| t0 rest IH]; intros i r; simpl.
  - intros Hr. inversion Hr.
  - specialize (IH (S i) r).
    destruct (mark_removed drawIdx rest (S i)) as [rest' dirty]. simpl in IH.
    destruct (used t0 && drawn t0 && negb (isInDrawList i drawIdx)) eqn:Hc; simpl.
    + intros Hr. apply elem_of_cons in Hr as [-> | Hr].
      * exists 0%nat, t0. split; [reflexivity |]. split; [| reflexivity].
        rewrite !andb_true_iff in Hc. tauto.
      * destruct (IH Hr) as (k & t & Hk & Hu & Hrt).
        exists (S k), t. split; [exact Hk |]. split; assumption.
    + intros Hr. destruct (IH Hr) as (k & t & Hk & Hu & Hrt).
      exists (S k), t. split; [exact Hk |]. split; assumption.
Qed.

(** The second loop takes rectangles only from slots of the draw list. *)
Lemma draw_rects_from tracks drawIdx r :
  r ∈ draw_rects tracks drawIdx ->
  exists slot t, slot ∈ drawIdx /\ tracks !! slot = Some t /\
                 (r = trackRectOld t \/ r = trackRectCurrent t).
Proof.
  unfold draw_rects. intros Hr. apply list_elem_of_bind in Hr as (slot & Hr & Hin).
  destruct (tracks !! slot) as [t |] eqn:Ht; [| inversion Hr].
  exists slot, t. split; [exact Hin |]. split; [exact Ht |].
  apply elem_of_app in Hr as [Hr | Hr].
  - destruct (drawn t); [| inversion Hr].
    apply list_elem_of_singleton in Hr. left. exact Hr.
  - apply list_elem_of_singleton in Hr. right. exact Hr.
Qed.

(** Every rectangle of the dirty array of a cycle, as the merge loop
    finds it, is the clamped old or current rectangle of a slot that is
    in use in the table the cycle works on. *)
Lemma dirty_candidates_from now maxOut tracks r :
  r ∈ dirty_candidates tracks (buildDrawList now maxOut tracks) ->
  exists j tj, tracks !! j = Some tj /\ used tj = true /\
    (r = rectClampToScreen (trackRectOld tj) \/
     r = rectClampToScreen (trackRectCurrent tj)).
Proof.
  unfold dirty_candidates.
  pose proof (mark_removed_spec (buildDrawList now maxOut tracks) tracks 0) as [_ Hlook].
  pose proof (mark_removed_from (buildDrawList now maxOut tracks) tracks 0) as Hrem.
  destruct (mark_removed (buildDrawList now maxOut tracks) tracks 0)
    as [tracks' removed]. simpl in Hlook, Hrem.
  unfold clamp_all. intros Hr.
  apply list_elem_of_filter in Hr as [_ Hr].
  apply list_elem_of_fmap in Hr as (r0 & -> & Hr0).
  apply elem_of_app in Hr0 as [Hr0 | Hr0].
  - destruct (Hrem r0 Hr0) as (k & t & Hk & Hu & ->).
    exists k, t. split; [exact Hk |]. split; [exact Hu |]. left. reflexivity.
  - destruct (draw_rects_from _ _ _ Hr0) as (slot & t' & Hin & Ht' & Hrt).
    destruct (buildDrawList_selected now maxOut tracks slot Hin) as (t & Ht & Hu & _).
    exists slot, t. split; [exact Ht |]. split; [exact Hu |].
    specialize (Hlook slot t Ht). simpl in Hlook.
    assert (Hsame : trackRectOld t' = trackRectOld t /\
                    trackRectCurrent t' = trackRectCurrent t).
    { destruct (used t && drawn t && negb (isInDrawList slot _)).
      - destruct Hlook as [Hl _]. rewrite Hl in Ht'. injection Ht' as <-.
        split; reflexivity.
      - rewrite Hlook in Ht'. injection Ht' as <-. split; reflexivity. }
    destruct Hsame as [Ho Hc]. rewrite <- Ho, <- Hc.
    destruct Hrt as [-> | ->]; [left | right]; reflexivity.
Qed.

(** C7, amended: after [expireOldTracks] every slot that was live with
    [now - lastUpdateMs > TRACK_TTL_MS] (the difference taken on 32 bits)
    is free, and if it was drawn, the background is restored during the
    call over every on-screen pixel of its drawn rectangle and its drawn
    flag is cleared; the freed slot gives no rectangle to the dirty set
    of that cycle: every rectangle that the loops of the cycle put into
    the dirty array is the clamped old or current rectangle of another
    slot, one that is still in use after the expiry. Every live slot with
    [now - lastUpdateMs <= TRACK_TTL_MS] is unchanged. *)
Theorem expire_frees_and_erases (now : Z) (tracks : list Track) (i : nat)
    (t : Track) :
  tracks !! i = Some t -> used t = true ->
  (TRACK_TTL_MS < u32_sub now (lastUpdateMs t) ->
   (exists t', fst (expireOldTracks now tracks) !! i = Some t' /\
               used t' = false /\ drawn t' = false) /\
   (drawn t = true ->
    forall px py, on_screen px py -> in_rect px py (trackRectOld t) ->
                  restored px py (snd (expireOldTracks now tracks))) /\
   (forall r,
      r ∈ dirty_candidates (fst (expireOldTracks now tracks))
            (buildDrawList now MAX_DRAW (fst (expireOldTracks now tracks))) ->
      exists j tj,
        j <> i /\ fst (expireOldTracks now tracks) !! j = Some tj /\
        used tj = true /\
        (r = rectClampToScreen (trackRectOld tj) \/
         r = rectClampToScreen (trackRectCurrent tj)))) /\
  (u32_sub now (lastUpdateMs t) <= TRACK_TTL_MS ->
   fst (expireOldTracks now tracks) !! i = Some t).
Proof.
  intros Hi Hu. split.
  - intros Hold.
    assert (He : expired now t = true) by (apply expired_iff; auto).
    destruct (expire_slot_freed now t He) as (Hu' & Hd' & Hops).
    assert (Hfree : fst (expireOldTracks now tracks) !! i
                    = Some (fst (expire_slot now t)))
      by (rewrite expireOldTracks_fst, list_lookup_fmap, Hi; reflexivity).
    split; [| split].
    + eexists. split; [exact Hfree |]. split; assumption.
    + intros Hd px py Hs Hr. rewrite expireOldTracks_snd.
      pose proof (restoreBgRect_covers _ _ _ _ px py Hs Hr) as Hcov.
      unfold restored in *. apply Exists_exists in Hcov as (op & Hin & Hop).
      apply Exists_exists. exists op. split; [| exact Hop].
      apply list_elem_of_bind. exists t. split.
      * rewrite (Hops Hd). exact Hin.
      * eapply list_elem_of_lookup_2, Hi.
    + intros r Hr.
      destruct (dirty_candidates_from now MAX_DRAW _ r Hr) as (j & tj & Hj & Huj & Hrj).
      exists j, tj. split; [| split; [exact Hj | split; [exact Huj | exact Hrj]]].
      intros ->. rewrite Hfree in Hj. injection Hj as <-. congruence.
  - intros Hyoung. rewrite expireOldTracks_fst, list_lookup_fmap, Hi. simpl.
    assert (He : expired now t = false).
    { apply not_true_is_false. rewrite expired_iff. lia. }
    rewrite (expire_slot_kept now t He). reflexivity.
Qed.

Lemma expire_frees_and_erases_witness :
  stale_and_fresh_table !! 0%nat = Some stale_drawn_plane /\
  used stale_drawn_plane = true /\
  TRACK_TTL_MS < u32_sub 20000 (lastUpdateMs stale_drawn_plane) /\
  (exists t', fst (expireOldTracks 20000 stale_and_fresh_table) !! 0%nat = Some t' /\
              used t' = false /\ drawn t' = false) /\
  (forall r,
     r ∈ dirty_candidates (fst (expireOldTracks 20000 stale_and_fresh_table))
           (buildDrawList 20000 MAX_DRAW
              (fst (expireOldTracks 20000 stale_and_fresh_table))) ->
     exists j tj,
       j <> 0%nat /\
       fst (expireOldTracks 20000 stale_and_fresh_table) !! j = Some tj /\
       used tj = true /\
       (r = rectClampToScreen (trackRectOld tj) \/
        r = rectClampToScreen (trackRectCurrent tj))).
Proof.
  assert (Hold : TRACK_TTL_MS < u32_sub 20000 (lastUpdateMs stale_drawn_plane))
    by (vm_compute; reflexivity).
  split; [reflexivity |]. split; [reflexivity |]. split; [exact Hold |].
  destruct (proj1 (expire_frees_and_erases 20000 stale_and_fresh_table 0
                     stale_drawn_plane eq_refl eq_refl) Hold) as (Hfree & _ & Hdirty).
  split; [exact Hfree | exact Hdirty].
Defined.

(** The pieces of a cycle, named. *)
Lemma renderTracks_unfold now tracks :
  let tracks1 := cycle_tracks now tracks in
  let ops1 := snd (expireOldTracks now tracks) in
  let drawIdx := cycle_draw_list now tracks in
  let mr := mark_removed drawIdx tracks1 0%nat in
  let dirty := mergeDirty (clamp_all (snd mr ++ draw_rects (fst mr) drawIdx)) in
  let fin := foldl (repaint_rect drawIdx) (fst mr, ops1) dirty in
  renderTracks now tracks = mkRenderResult (fst fin) (snd fin) dirty.
Proof.
  unfold renderTracks, cycle_draw_list, cycle_tracks.
  destruct (expireOldTracks now tracks) as [tracks1 ops1]. simpl.
  destruct (mark_removed _ tracks1 0) as [tracks2 removed]. simpl.
  destruct (foldl _ (tracks2, ops1) _) as [tracks3 ops3]. reflexivity.
Qed.

Lemma in_rect_intersects r c px py :
  in_rect px py r -> in_rect px py c -> rectIntersects r c = true.
Proof.
  intros Hr Hc. apply rectIntersects_true. unfold in_rect in *. lia.
Qed.

(** A dirty pixel of the candidates is restored by the cycle. *)
Lemma render_restores_candidate now tracks r px py :
  r ∈ snd (mark_removed (cycle_draw_list now tracks) (cycle_tracks now tracks) 0%nat)
      ++ draw_rects (fst (mark_removed (cycle_draw_list now tracks)
                            (cycle_tracks now tracks) 0%nat))
           (cycle_draw_list now tracks) ->
  on_screen px py -> in_rect px py r ->
  restored px py (render_ops (renderTracks now tracks)) /\
  exists r', r' ∈ render_dirty (renderTracks now tracks) /\ in_rect px py r'.
Proof.
  intros Hin Hs Hp. rewrite (renderTracks_unfold now tracks). simpl.
  pose proof (covered_clamp_all _ r px py Hin Hs Hp) as Hc.
  apply (mergeDirty_covered _ px py Hs) in Hc.
  unfold covered in Hc. apply Exists_exists in Hc as (r' & Hr' & Hp').
  split; [| exists r'; split; assumption].
  eapply foldl_repaint_restores; eassumption.
Qed.

(** X15: A plane of the draw list of which at least one pixel is on the
    screen is painted in the cycle, at its current position, with the
    sprite of its heading and the colour of its altitude; the background
    under it is restored in the same cycle; and the table records it as
    drawn there. *)
Theorem render_paints_visible_planes (now : Z) (tracks : list Track)
    (slot : nat) (t : Track) (px py : Z) :
  slot ∈ cycle_draw_list now tracks ->
  cycle_tracks now tracks !! slot = Some t ->
  on_screen px py -> in_rect px py (trackRectCurrent t) ->
  plane_op t ∈ render_ops (renderTracks now tracks) /\
  restored px py (render_ops (renderTracks now tracks)) /\
  exists t', render_tracks (renderTracks now tracks) !! slot = Some t' /\
             painted t' /\ same_plane t t'.
Proof.
  intros Hin Ht Hs Hp.
  destruct (mark_removed_spec (cycle_draw_list now tracks) (cycle_tracks now tracks) 0)
    as [_ Hlook].
  specialize (Hlook slot t Ht). simpl in Hlook.
  assert (Hidl : isInDrawList slot (cycle_draw_list now tracks) = true)
    by (apply isInDrawList_spec, Hin).
  rewrite Hidl, andb_false_r in Hlook.
  destruct (draw_rects_current _ _ slot t Hin Hlook) as [Hcur _].
  destruct (render_restores_candidate now tracks (trackRectCurrent t) px py)
    as [Hres (r' & Hr' & Hp')]; [apply elem_of_app; right; exact Hcur | exact Hs | exact Hp |].
  split; [| split; [exact Hres |]].
  - rewrite (renderTracks_unfold now tracks) in Hr' |- *. simpl in *.
    eapply foldl_repaint_paints; try eassumption.
    eapply in_rect_intersects; eassumption.
  - rewrite (renderTracks_unfold now tracks) in Hr' |- *. simpl in *.
    eapply foldl_repaint_paints; try eassumption.
    eapply in_rect_intersects; eassumption.
Qed.

Lemma render_paints_visible_planes_witness :
  0%nat ∈ cycle_draw_list 1500 three_planes /\
  cycle_tracks 1500 three_planes !! 0%nat = Some (plane "4b1a01" 116 116 1000) /\
  on_screen 116 116 /\
  in_rect 116 116 (trackRectCurrent (plane "4b1a01" 116 116 1000)) /\
  plane_op (plane "4b1a01" 116 116 1000) ∈ render_ops (renderTracks 1500 three_planes) /\
  restored 116 116 (render_ops (renderTracks 1500 three_planes)) /\
  exists t', render_tracks (renderTracks 1500 three_planes) !! 0%nat = Some t' /\
             painted t' /\ same_plane (plane "4b1a01" 116 116 1000) t'.
Proof.
  assert (H1 : 0%nat ∈ cycle_draw_list 1500 three_planes).
  { apply (list_elem_of_lookup_2 _ 0%nat). vm_compute. reflexivity. }
  assert (H2 : cycle_tracks 1500 three_planes !! 0%nat
               = Some (plane "4b1a01" 116 116 1000)) by (vm_compute; reflexivity).
  assert (H3 : on_screen 116 116) by (unfold on_screen, SW, SH; lia).
  assert (H4 : in_rect 116 116 (trackRectCurrent (plane "4b1a01" 116 116 1000))).
  { unfold in_rect. change (trackRectCurrent _) with (mkRect 100 100 32 32).
    simpl. lia. }
  split; [exact H1 |]. split; [exact H2 |]. split; [exact H3 |]. split; [exact H4 |].
  exact (render_paints_visible_planes 1500 three_planes 0
           (plane "4b1a01" 116 116 1000) 116 116 H1 H2 H3 H4).
Defined.

Lemma redraw_slot_other r s k slot :
  slot <> k -> fst (redraw_slot r s k) !! slot = fst s !! slot.
Proof.
  intros Hne. destruct s as [ts ops]. unfold redraw_slot.
  destruct (ts !! k) as [t |]; [| reflexivity].
  destruct (rectIntersects r (trackRectCurrent t)); [| reflexivity].
  simpl. apply list_lookup_insert_ne. congruence.
Qed.

Lemma foldl_redraw_other r drawIdx slot : forall s,
  slot ∉ drawIdx -> fst (foldl (redraw_slot r) s drawIdx) !! slot = fst s !! slot.
Proof.
  induction drawIdx as [| k rest IH]; intros s Hnin; simpl; [reflexivity |].
  apply not_elem_of_cons in Hnin as [Hne Hnin].
  rewrite IH by exact Hnin. apply redraw_slot_other, Hne.
Qed.

Lemma foldl_repaint_other drawIdx dirty slot : forall s,
  slot ∉ drawIdx ->
  fst (foldl (repaint_rect drawIdx) s dirty) !! slot = fst s !! slot.
Proof.
  induction dirty as [| r rest IH]; intros s Hnin; simpl; [reflexivity |].
  rewrite IH by exact Hnin. destruct s as [ts ops]. unfold repaint_rect.
  rewrite foldl_redraw_other by exact Hnin. reflexivity.
Qed.

(** X16: No stale pixels: for every slot in use that was recorded as drawn
    when the cycle builds its dirty set, the background is restored over
    every on-screen pixel of the rectangle where it was drawn, whether the
    plane is drawn again or not. *)
Theorem render_restores_old_rectangles (now : Z) (tracks : list Track)
    (slot : nat) (t : Track) (px py : Z) :
  cycle_tracks now tracks !! slot = Some t ->
  used t = true -> drawn t = true ->
  on_screen px py -> in_rect px py (trackRectOld t) ->
  restored px py (render_ops (renderTracks now tracks)) /\
  covered px py (render_dirty (renderTracks now tracks)).
Proof.
  intros Ht Hu Hd Hs Hp.
  destruct (mark_removed_spec (cycle_draw_list now tracks) (cycle_tracks now tracks) 0)
    as [_ Hlook].
  specialize (Hlook slot t Ht). simpl in Hlook. rewrite Hu, Hd in Hlook. simpl in Hlook.
  assert (Hin : trackRectOld t
                  ∈ snd (mark_removed (cycle_draw_list now tracks) (cycle_tracks now tracks) 0%nat)
                    ++ draw_rects (fst (mark_removed (cycle_draw_list now tracks)
                                          (cycle_tracks now tracks) 0%nat))
                         (cycle_draw_list now tracks)).
  { apply elem_of_app.
    destruct (isInDrawList slot (cycle_draw_list now tracks)) eqn:Hidl; simpl in Hlook.
    - right. apply isInDrawList_spec in Hidl.
      apply (draw_rects_current _ _ slot t Hidl Hlook). exact Hd.
    - left. apply Hlook. }
  destruct (render_restores_candidate now tracks _ px py Hin Hs Hp)
    as [Hres (r' & Hr' & Hp')].
  split; [exact Hres |]. unfold covered. apply Exists_exists. eauto.
Qed.

Lemma render_restores_old_rectangles_witness :
  cycle_tracks 1500 moved_and_hidden_table !! 0%nat
    = moved_and_hidden_table !! 0%nat /\
  on_screen 101 101 /\
  restored 101 101 (render_ops (renderTracks 1500 moved_and_hidden_table)) /\
  covered 101 101 (render_dirty (renderTracks 1500 moved_and_hidden_table)).
Proof.
  assert (Hs : on_screen 101 101) by (unfold on_screen, SW, SH; lia).
  split; [vm_compute; reflexivity |]. split; [exact Hs |].
  apply (render_restores_old_rectangles 1500 moved_and_hidden_table 0
           (mkTrack true (list_ascii_of_string "4b1a01") [] 126 116 100 100 90 1000
              TFT_GREEN 1000 true) 101 101).
  - vm_compute. reflexivity.
  - reflexivity.
  - reflexivity.
  - exact Hs.
  - unfold in_rect. change (trackRectOld _) with (mkRect 100 100 32 32).
    simpl. lia.
Defined.

(** X17: A slot in use that is not in the draw list of the cycle is recorded
    as not drawn after the cycle, whatever it was before; the redraw loops
    do not touch it, and it keeps everything else, including the position
    where it was last drawn. *)
Theorem render_clears_removed_planes (now : Z) (tracks : list Track)
    (slot : nat) (t : Track) :
  cycle_tracks now tracks !! slot = Some t ->
  used t = true -> slot ∉ cycle_draw_list now tracks ->
  exists t', render_tracks (renderTracks now tracks) !! slot = Some t' /\
             drawn t' = false /\ same_plane t t' /\
             oldDrawX t' = oldDrawX t /\ oldDrawY t' = oldDrawY t.
Proof.
  intros Ht Hu Hnin.
  destruct (mark_removed_spec (cycle_draw_list now tracks) (cycle_tracks now tracks) 0)
    as [_ Hlook].
  specialize (Hlook slot t Ht). simpl in Hlook.
  assert (Hidl : isInDrawList slot (cycle_draw_list now tracks) = false).
  { apply not_true_is_false. rewrite isInDrawList_spec. exact Hnin. }
  rewrite Hu, Hidl in Hlook. simpl in Hlook.
  rewrite (renderTracks_unfold now tracks). simpl.
  rewrite foldl_repaint_other by exact Hnin. simpl.
  destruct (drawn t) eqn:Hd; simpl in Hlook.
  - destruct Hlook as [Hl _]. exists (set_drawn false t). split; [exact Hl |].
    split; [reflexivity |]. split; [| split; reflexivity].
    unfold same_plane. simpl. repeat split; reflexivity.
  - exists t. split; [exact Hlook |]. split; [exact Hd |].
    split; [apply same_plane_refl | split; reflexivity].
Qed.

Lemma render_clears_removed_planes_witness :
  (drawn <$> (cycle_tracks 1500 moved_and_hidden_table !! 1%nat)) = Some true /\
  (1%nat ∉ cycle_draw_list 1500 moved_and_hidden_table) /\
  exists t', render_tracks (renderTracks 1500 moved_and_hidden_table) !! 1%nat = Some t' /\
             drawn t' = false /\
             same_plane (mkTrack true (list_ascii_of_string "3c6589") [] 316 20 300 200 0
                           2000 TFT_GREEN 1000 true) t' /\
             oldDrawX t' = 300 /\ oldDrawY t' = 200.
Proof.
  assert (Hn : 1%nat ∉ cycle_draw_list 1500 moved_and_hidden_table).
  { replace (cycle_draw_list 1500 moved_and_hidden_table) with [0%nat]
      by (vm_compute; reflexivity).
    intros Hin. apply list_elem_of_singleton in Hin. discriminate. }
  split; [vm_compute; reflexivity |]. split; [exact Hn |].
  apply (render_clears_removed_planes 1500 moved_and_hidden_table 1
           (mkTrack true (list_ascii_of_string "3c6589") [] 316 20 300 200 0 2000
              TFT_GREEN 1000 true)).
  - vm_compute. reflexivity.
  - reflexivity.
  - exact Hn.
Defined.

Lemma later_same_plane base s s' :
  Forall2 same_plane base (fst s) -> later s s' -> Forall2 same_plane base (fst s').
Proof.
  intros Hb [Hl _]. revert Hl. generalize (fst s'). clear s'.
  induction Hb as [| a b l k Hab _ IH]; intros k' Hl; inversion Hl; subst; constructor.
  - eapply same_plane_trans; [exact Hab |]. match goal with H : repaint_rel _ _ |- _ => apply H end.
  - apply IH. assumption.
Qed.

Section RenderOps.
Variables (base : list Track) (drawIdx : list nat).




End RenderOps.







(** The first cycle on the table of three planes fills the strip and
    writes the line; the next one, with the same line, paints nothing in
    the strip. *)
Example cycle_status_bar :
  drop (length (render_ops (renderTracks 1500 three_planes)))
    (render_ops (fst (renderTracks_bar 1500 three_planes
                        (list_ascii_of_string "Tot 3") StatusLine_init)))
  = [FillRect 0 302 480 18 TFT_BLACK;
     DrawString (list_ascii_of_string "Tot 3") 25 309 TFT_WHITE TFT_BLACK] /\
  render_ops (fst (renderTracks_bar 1500 three_planes (list_ascii_of_string "Tot 3")
                     (mkStatusLine (list_ascii_of_string "Tot 3") true)))
  = render_ops (renderTracks 1500 three_planes).
Proof. split; vm_compute; reflexivity. Qed.

(** ** The table across passes of the loop *)

Lemma expire_kept now tracks :
  Forall2 kept tracks (fst (expireOldTracks now tracks)).
Proof.
  rewrite expireOldTracks_fst. apply Forall2_fmap_r.
  induction tracks as [| t rest IH]; constructor; [| exact IH].
  intros Hu. destruct (expired now t) eqn:He.
  - destruct (expire_slot_freed now t He) as (Hf & _). congruence.
  - rewrite (expire_slot_kept now t He). apply same_plane_refl.
Qed.

Lemma kept_same_plane l1 : forall l2 l3,
  Forall2 kept l1 l2 -> Forall2 same_plane l2 l3 -> Forall2 kept l1 l3.
Proof.
  induction l1 as [| a l1 IH]; intros l2 l3 H12 H23;
    inversion H12; subst; inversion H23; subst; constructor.
  - intros Hu. match goal with
      | Hk : kept a ?b, Hs : same_plane ?b ?c |- _ =>
          eapply same_plane_trans; [apply Hk | exact Hs];
          destruct Hs as (-> & _); exact Hu
      end.
  - eapply IH; eassumption.
Qed.

Lemma render_kept now tracks :
  Forall2 kept tracks (render_tracks (renderTracks now tracks)).
Proof.
  rewrite (renderTracks_unfold now tracks). simpl.
  eapply kept_same_plane; [apply expire_kept |].
  eapply later_same_plane; [| apply foldl_repaint_later]. simpl.
  apply mark_removed_spec.
Qed.

Lemma unique_live_kept l l' :
  Forall2 kept l l' -> unique_live l -> unique_live l'.
Proof.
  intros Hk Huniq i j ti tj Hi Hj Hui Huj Heq.
  destruct (Forall2_lookup_r _ _ _ i ti Hk Hi) as (ai & Hai & Hki).
  destruct (Forall2_lookup_r _ _ _ j tj Hk Hj) as (aj & Haj & Hkj).
  destruct (Hki Hui) as (Hu1 & Hh1 & _). destruct (Hkj Huj) as (Hu2 & Hh2 & _).
  apply (Huniq i j ai aj Hai Haj); congruence.
Qed.

Lemma plane_consistent_kept l l' :
  Forall2 kept l l' -> Forall plane_consistent l -> Forall plane_consistent l'.
Proof.
  induction 1 as [| a b l k Hab _ IH]; intros Hall; [constructor |].
  apply Forall_cons in Hall as [Ha Hall]. constructor; [| apply IH, Hall].
  intros Hu. destruct (Hab Hu) as (Hu' & Hh & Hf & _ & _ & Hd & Ha' & Hc & _).
  unfold plane_consistent in Ha. rewrite <- Hh, <- Hf, <- Hd, <- Ha', <- Hc.
  apply Ha. congruence.
Qed.

Lemma upsert_consistent o tracks :
  Forall plane_consistent tracks -> Forall plane_consistent (fst (upsert o tracks)).
Proof.
  intros Hall. unfold upsert.
  destruct (tracks !! _) as [t |]; [| exact Hall].
  destruct (if used t && negb (strncmp_eq 6 (hex t) (obs_hex o))
            then eraseTrackIfDrawn t else (t, [])) as [t1 ops].
  simpl. apply Forall_insert; [exact Hall |].
  intros _. simpl. split; [apply wrap360_range |]. split; [reflexivity |].
  rewrite !length_take. lia.
Qed.

Lemma upsert_all_invariant obs : forall tracks,
  length tracks = MAX_TRACKS /\ unique_live tracks /\ Forall plane_consistent tracks ->
  length (upsert_all obs tracks) = MAX_TRACKS /\ unique_live (upsert_all obs tracks) /\
  Forall plane_consistent (upsert_all obs tracks).
Proof.
  induction obs as [| o obs IH]; intros tracks (Hl & Hu & Hc); [auto |].
  unfold upsert_all in *. simpl. apply IH.
  split; [rewrite upsert_length; exact Hl |].
  split; [apply upsert_unique_live, Hu | apply upsert_consistent, Hc].
Qed.

Lemma loop_pass_invariant tracks pass :
  length tracks = MAX_TRACKS /\ unique_live tracks /\ Forall plane_consistent tracks ->
  length (loop_pass tracks pass) = MAX_TRACKS /\ unique_live (loop_pass tracks pass) /\
  Forall plane_consistent (loop_pass tracks pass).
Proof.
  intros Hinv. unfold loop_pass.
  destruct (upsert_all_invariant (fst pass) tracks Hinv) as (Hl & Hu & Hc).
  pose proof (render_kept (snd pass) (upsert_all (fst pass) tracks)) as Hk.
  split; [| split].
  - rewrite <- Hl. symmetry. eapply Forall2_length, Hk.
  - eapply unique_live_kept; eassumption.
  - eapply plane_consistent_kept; eassumption.
Qed.

(** X19: Whatever is fetched and whenever it is rendered, after any number of
    passes of the loop the table still has its 200 slots, no identity is
    held by two slots in use, and every slot in use has a heading in
    [0, 360), the colour of its altitude, an identity of at most six
    characters and a callsign of at most eight. *)
Theorem run_loop_invariant (passes : list (list Observation * Z)) :
  length (run_loop passes) = MAX_TRACKS /\
  unique_live (run_loop passes) /\
  Forall plane_consistent (run_loop passes) /\
  forall key, (live_count key (run_loop passes) <= 1)%nat.
Proof.
  assert (H : length (run_loop passes) = MAX_TRACKS /\ unique_live (run_loop passes) /\
              Forall plane_consistent (run_loop passes)).
  { unfold run_loop.
    assert (Hinit : length tracks_init = MAX_TRACKS /\ unique_live tracks_init /\
                    Forall plane_consistent tracks_init).
    { split; [reflexivity |]. split; [apply unique_live_init |].
      apply Forall_forall. intros t Hin Hu.
      apply elem_of_replicate in Hin as [-> _]. discriminate Hu. }
    revert Hinit. generalize tracks_init.
    induction passes as [| p rest IH]; intros tbl Hinv; [exact Hinv |].
    simpl. apply IH, loop_pass_invariant, Hinv. }
  destruct H as (Hl & Hu & Hc). split; [exact Hl |]. split; [exact Hu |].
  split; [exact Hc |]. intros key. apply live_count_le_1, Hu.
Qed.

(** Two passes: two planes seen, then one of them again with a third;
    three slots are in use at the end. *)
Example run_loop_two_passes :
  let o key x y ms := mkObservation (list_ascii_of_string key) [] x y 0 (Some 1000) ms in
  length (filter (fun t => used t = true)
            (run_loop [([o "4b1a2c" 100 100 10; o "3c6589" 200 100 20], 500);
                       ([o "4b1a2c" 110 100 1010; o "a0f1e2" 300 200 1020], 1500)]))
  = 3%nat.
Proof. vm_compute. reflexivity. Qed.

(** ** Backlight and brightness *)

Lemma blMaxDuty_value : blMaxDuty = 1023.
Proof. reflexivity. Qed.

Lemma backlight_duty_spec p :
  0 <= p <= 255 -> backlight_duty p = Z.min p 100 * 1023 / 100.
Proof.
  intros Hp. unfold backlight_duty. rewrite blMaxDuty_value.
  destruct (Z.ltb_spec 100 p).
  - rewrite Z.min_r by lia. reflexivity.
  - rewrite Z.min_l by lia. unfold u32. rewrite Z.mod_small; [reflexivity | lia].
Qed.

(** X20: For [uint8_t] arguments the duty cycle grows with the percentage,
    from 0 at 0 % to the full 1023 at 100 % and above, and never leaves
    0..1023; with active-low polarity the value written is its mirror
    image. *)
Theorem backlight_duty_monotone (p q : Z) :
  0 <= p <= q -> q <= 255 ->
  0 <= backlight_duty p <= backlight_duty q /\ backlight_duty q <= 1023 /\
  backlight_duty 0 = 0 /\ (100 <= q -> backlight_duty q = 1023) /\
  blPolarity true (backlight_duty p) = backlight_duty p /\
  blPolarity false (backlight_duty p) = 1023 - backlight_duty p.
Proof.
  intros Hpq Hq.
  rewrite (backlight_duty_spec p), (backlight_duty_spec q) by lia.
  assert (Hp0 : 0 <= Z.min p 100 * 1023 / 100) by (apply Z.div_pos; lia).
  assert (Hle : Z.min p 100 * 1023 / 100 <= Z.min q 100 * 1023 / 100)
    by (apply Z.div_le_mono; lia).
  assert (Hmax : Z.min q 100 * 1023 / 100 <= 1023).
  { apply Z.div_le_upper_bound; lia. }
  split; [lia |]. split; [exact Hmax |]. split; [reflexivity |]. split.
  - intros H100. rewrite Z.min_r by lia. reflexivity.
  - unfold blPolarity. rewrite blMaxDuty_value.
    destruct (Z.ltb_spec 1023 (Z.min p 100 * 1023 / 100)); [lia |].
    split; [reflexivity |]. unfold u32. apply Z.mod_small. lia.
Qed.

Lemma backlight_duty_monotone_witness :
  0 <= 30 <= 60 /\ 60 <= 255 /\
  0 <= backlight_duty 30 <= backlight_duty 60 /\ backlight_duty 60 <= 1023 /\
  backlight_duty 0 = 0 /\ (100 <= 60 -> backlight_duty 60 = 1023) /\
  blPolarity true (backlight_duty 30) = backlight_duty 30 /\
  blPolarity false (backlight_duty 30) = 1023 - backlight_duty 30.
Proof.
  split; [lia |]. split; [lia |].
  apply (backlight_duty_monotone 30 60); lia.
Defined.

(** [backlightSetPercent] always ends with one write of a duty cycle in
    0..1023 on the backlight channel; the PWM is set up first when it was
    not yet, and only then; afterwards it is set up. *)
Theorem backlightSetPercent_writes (active_high : bool) (percent : Z) (inited : bool) :
  fst (backlightSetPercent active_high percent inited) = true /\
  (exists d, last (snd (backlightSetPercent active_high percent inited))
               = Some (LedcWrite BL_CH d) /\ 0 <= d <= 1023) /\
  (length (snd (backlightSetPercent active_high percent inited))
   = if inited then 1%nat else 4%nat).
Proof.
  unfold backlightSetPercent. simpl. split; [reflexivity |]. split.
  - eexists. split; [apply last_snoc |].
    assert (Hu : 0 <= u8 percent <= 255).
    { unfold u8. pose proof (Z.mod_pos_bound percent (2 ^ 8) ltac:(lia)). lia. }
    destruct (backlight_duty_monotone (u8 percent) (u8 percent) ltac:(lia) ltac:(lia))
      as (Hd & Hm & _ & _ & Hh & Hl).
    destruct active_high; [rewrite Hh | rewrite Hl]; lia.
  - destruct inited; reflexivity.
Qed.

Lemma u8_small z : 0 <= z < 256 -> u8 z = z.
Proof. intros Hz. unfold u8. apply Z.mod_small. lia. Qed.

Lemma brightness_step_range bl touchY :
  0 <= bl <= 100 ->
  0 <= brightness_step bl touchY <= 100 /\
  bl - 2 <= brightness_step bl touchY <= bl + 2.
Proof.
  intros Hb. unfold brightness_step.
  destruct (u16 (SH - touchY) <? c_div SH 2).
  - destruct (Z.ltb_spec 100 (bl + 2)); rewrite u8_small by lia; lia.
  - destruct (Z.ltb_spec bl 2); rewrite u8_small by lia; lia.
Qed.

Lemma handle_touch_cases p b :
  let b1 := fst (handle_touch p b) in
  gBlSaved b1 = gBlSaved b /\
  ((gBl b1 = gBl b /\ gBlDirty b1 = gBlDirty b /\ snd (handle_touch p b) = []) \/
   (exists touchX touchY,
      touch p = Some (touchX, touchY) /\
      180 <= u32_sub (ms_step p) (lastStepMs b) /\
      gBl b1 = brightness_step (gBl b) touchY /\ gBl b1 <> gBl b /\
      gBlDirty b1 = true /\ gLastTouchMs b1 = ms_touch p /\
      snd (handle_touch p b)
        = snd (backlightSetPercent BL_ACTIVE_HIGH (gBl b1) (bl_inited b)))).
Proof.
  unfold handle_touch.
  destruct (touch p) as [[touchX touchY] |]; [| simpl; auto].
  destruct (Z.leb_spec 180 (u32_sub (ms_step p) (lastStepMs b))); [| simpl; auto].
  destruct (Z.eqb_spec (brightness_step (gBl b) touchY) (gBl b)) as [Heq | Hne]; simpl.
  - split; [reflexivity |]. left. auto.
  - split; [reflexivity |]. right. exists touchX, touchY. repeat split; auto.
Qed.

Lemma handle_save_cases p b :
  let b2 := fst (handle_save p b) in
  gBl b2 = gBl b /\
  ((b2 = b /\ snd (handle_save p b) = []) \/
   (gBlDirty b = true /\ BL_SAVE_IDLE_MS <= u32_sub (ms_save p) (gLastTouchMs b) /\
    gBlDirty b2 = false /\ gBlSaved b2 = gBl b /\
    snd (handle_save p b) = if gBl b =? gBlSaved b then [] else [PrefsPutBl (gBl b)])).
Proof.
  unfold handle_save.
  destruct (gBlDirty b) eqn:Hd; [| simpl; auto].
  destruct (Z.leb_spec BL_SAVE_IDLE_MS (u32_sub (ms_save p) (gLastTouchMs b))); [| simpl; auto].
  destruct (Z.eqb_spec (gBl b) (gBlSaved b)) as [Heq | Hne]; simpl;
    (split; [reflexivity |]); right; repeat split; auto.
Qed.

Lemma handle_unfold p b :
  handleTouchBrightnessAndSave p b =
  (fst (handle_save p (fst (handle_touch p b))),
   snd (handle_touch p b) ++ snd (handle_save p (fst (handle_touch p b)))).
Proof.
  unfold handleTouchBrightnessAndSave.
  destruct (handle_touch p b) as [b1 ops1]. simpl.
  destruct (handle_save p b1) as [b2 ops2]. reflexivity.
Qed.

Lemma handle_keeps_saved_invariant p b :
  gBlDirty b = true \/ gBlSaved b = gBl b ->
  gBlDirty (fst (handleTouchBrightnessAndSave p b)) = true \/
  gBlSaved (fst (handleTouchBrightnessAndSave p b))
    = gBl (fst (handleTouchBrightnessAndSave p b)).
Proof.
  intros Hinv. rewrite handle_unfold. simpl.
  destruct (handle_touch_cases p b) as [Hs Ht].
  destruct (handle_save_cases p (fst (handle_touch p b))) as [Hg Hsv].
  simpl in *. destruct Hsv as [[-> _] | (_ & _ & _ & Hsaved & _)].
  - destruct Ht as [(Hg1 & Hd1 & _) | (_ & _ & _ & _ & _ & _ & Hd1 & _)].
    + rewrite Hd1, Hs, Hg1. exact Hinv.
    + left. exact Hd1.
  - right. rewrite Hsaved, Hg. reflexivity.
Qed.

Lemma run_touch_log_snoc polls p b :
  run_touch_log (polls ++ [p]) b =
  (fst (handleTouchBrightnessAndSave p (fst (run_touch_log polls b))),
   snd (run_touch_log polls b)
   ++ snd (handleTouchBrightnessAndSave p (fst (run_touch_log polls b)))).
Proof. unfold run_touch_log. rewrite foldl_app. reflexivity. Qed.

Lemma run_touch_log_state polls b :
  fst (run_touch_log polls b) = run_touch polls b.
Proof.
  induction polls as [| p polls IH] using rev_ind; [reflexivity |].
  rewrite run_touch_log_snoc. unfold run_touch in *. rewrite foldl_app. simpl.
  rewrite IH. reflexivity.
Qed.

Lemma prefs_bl_app stored ops1 ops2 :
  prefs_bl stored (ops1 ++ ops2) =
  foldl (fun v op => match op with PrefsPutBl v' => u8 v' | _ => v end)
        (prefs_bl stored ops1) ops2.
Proof. unfold prefs_bl. apply foldl_app. Qed.

(** The backlight writes leave the preferences alone. *)
Lemma backlightSetPercent_no_prefs active_high percent inited v :
  foldl (fun v op => match op with PrefsPutBl v' => u8 v' | _ => v end) v
        (snd (backlightSetPercent active_high percent inited)) = v.
Proof.
  unfold backlightSetPercent, backlightInit. destruct inited; reflexivity.
Qed.

Lemma brightness_step_u8 bl touchY : 0 <= brightness_step bl touchY < 256.
Proof.
  unfold brightness_step.
  destruct (u16 (SH - touchY) <? c_div SH 2); unfold u8; apply Z.mod_pos_bound; lia.
Qed.

(** One call keeps: the brightness is a [uint8_t], the saved copy is what
    the preferences hold, and the saved copy is the brightness unless the
    dirty flag is set. *)
Lemma handle_keeps_prefs stored p b ops :
  0 <= gBl b < 256 /\ prefs_bl stored ops = gBlSaved b /\
  (gBlDirty b = true \/ gBlSaved b = gBl b) ->
  let b' := fst (handleTouchBrightnessAndSave p b) in
  let ops' := ops ++ snd (handleTouchBrightnessAndSave p b) in
  0 <= gBl b' < 256 /\ prefs_bl stored ops' = gBlSaved b' /\
  (gBlDirty b' = true \/ gBlSaved b' = gBl b').
Proof.
  intros (Hr & Hp & Hinv). cbv zeta. rewrite handle_unfold. cbn [fst snd].
  destruct (handle_touch_cases p b) as [Hs Ht]. cbv zeta in Hs, Ht.
  destruct (handle_save_cases p (fst (handle_touch p b))) as [Hg Hsv].
  cbv zeta in Hg, Hsv.
  assert (Hr1 : 0 <= gBl (fst (handle_touch p b)) < 256).
  { destruct Ht as [(-> & _) | (tx & ty & _ & _ & -> & _)];
      [exact Hr | apply brightness_step_u8]. }
  assert (Hp1 : prefs_bl stored (ops ++ snd (handle_touch p b))
                = gBlSaved (fst (handle_touch p b))).
  { rewrite prefs_bl_app, Hs.
    destruct Ht as [(_ & _ & ->) | (tx & ty & _ & _ & _ & _ & _ & _ & ->)].
    - simpl. exact Hp.
    - rewrite backlightSetPercent_no_prefs. exact Hp. }
  assert (Hinv1 : gBlDirty (fst (handle_touch p b)) = true \/
                  gBlSaved (fst (handle_touch p b)) = gBl (fst (handle_touch p b))).
  { destruct Ht as [(Hg1 & Hd1 & _) | (_ & _ & _ & _ & _ & _ & Hd1 & _)].
    - rewrite Hd1, Hs, Hg1. exact Hinv.
    - left. exact Hd1. }
  rewrite Hg. split; [exact Hr1 |].
  rewrite app_assoc, prefs_bl_app, Hp1.
  destruct Hsv as [[-> ->] | (Hd & _ & Hd2 & Hsaved & ->)].
  - simpl. split; [reflexivity | exact Hinv1].
  - rewrite Hsaved. split; [| right; reflexivity].
    destruct (Z.eqb_spec (gBl (fst (handle_touch p b)))
                (gBlSaved (fst (handle_touch p b)))) as [Heq | Hne]; simpl.
    + symmetry. exact Heq.
    + apply u8_small. exact Hr1.
Qed.

(** X21: No brightness change is lost: from the state that [setup] leaves,
    after any sequence of calls of the handler either the dirty flag is
    set (a save is still due), or the value that the preferences hold,
    the one written by the last [putUChar] or else the one read in
    [setup], is the current brightness. *)
Theorem brightness_saved_or_dirty (stored : Z) (polls : list TouchPoll) :
  fst (run_touch_log polls (Brightness_setup stored))
    = run_touch polls (Brightness_setup stored) /\
  (gBlDirty (run_touch polls (Brightness_setup stored)) = true \/
   prefs_bl stored (snd (run_touch_log polls (Brightness_setup stored)))
     = gBl (run_touch polls (Brightness_setup stored))).
Proof.
  split; [apply run_touch_log_state |].
  rewrite <- run_touch_log_state.
  assert (H : 0 <= gBl (fst (run_touch_log polls (Brightness_setup stored))) < 256 /\
              prefs_bl stored (snd (run_touch_log polls (Brightness_setup stored)))
              = gBlSaved (fst (run_touch_log polls (Brightness_setup stored))) /\
              (gBlDirty (fst (run_touch_log polls (Brightness_setup stored))) = true \/
               gBlSaved (fst (run_touch_log polls (Brightness_setup stored)))
               = gBl (fst (run_touch_log polls (Brightness_setup stored))))).
  { induction polls as [| p polls IH] using rev_ind.
    - simpl. split; [unfold u8; apply Z.mod_pos_bound; lia |].
      split; [reflexivity | right; reflexivity].
    - rewrite run_touch_log_snoc. cbn [fst snd].
      apply (handle_keeps_prefs stored p _ _ IH). }
  destruct H as (_ & Hp & [Hd | Hs]); [left; exact Hd | right].
  rewrite Hp. exact Hs.
Qed.

(** A touch that raises the brightness from 50 to 52, then six idle
    seconds: the preferences hold 52. *)
Example brightness_saved_after_idle :
  snd (run_touch_log touch_then_idle (Brightness_setup 50))
    = [LedcWrite BL_CH (blPolarity BL_ACTIVE_HIGH (backlight_duty 52)); PrefsPutBl 52] /\
  prefs_bl 50 (snd (run_touch_log touch_then_idle (Brightness_setup 50))) = 52 /\
  gBl (run_touch touch_then_idle (Brightness_setup 50)) = 52.
Proof. split; [| split]; vm_compute; reflexivity. Qed.

Lemma handle_keeps_range p b :
  0 <= gBl b <= 100 -> 0 <= gBl (fst (handleTouchBrightnessAndSave p b)) <= 100.
Proof.
  intros Hr. rewrite handle_unfold. simpl.
  destruct (handle_save_cases p (fst (handle_touch p b))) as [-> _].
  destruct (handle_touch_cases p b) as [_ [(-> & _) | (tx & ty & _ & _ & -> & _)]];
    [exact Hr |].
  apply brightness_step_range, Hr.
Qed.

(** X22: A brightness that starts in 0..100 stays in 0..100, whatever is
    touched and whenever. *)
Theorem brightness_stays_in_range (stored : Z) (polls : list TouchPoll) :
  0 <= stored <= 100 ->
  0 <= gBl (run_touch polls (Brightness_setup stored)) <= 100.
Proof.
  intros Hs. unfold run_touch.
  assert (Hinit : 0 <= gBl (Brightness_setup stored) <= 100).
  { simpl. rewrite u8_small; lia. }
  revert Hinit. generalize (Brightness_setup stored).
  induction polls as [| p rest IH]; intros b Hr; [exact Hr |].
  simpl. apply IH, handle_keeps_range, Hr.
Qed.

Lemma brightness_stays_in_range_witness :
  0 <= 99 <= 100 /\
  gBl (run_touch touch_then_idle (Brightness_setup 99)) = 100 /\
  0 <= gBl (run_touch touch_then_idle (Brightness_setup 99)) <= 100.
Proof.
  split; [lia |]. split; [vm_compute; reflexivity |].
  apply (brightness_stays_in_range 99 touch_then_idle). lia.
Defined.

(** X23: The preferences are written sparingly: a call writes them at most
    once, only when the dirty flag is set, five seconds or more have
    passed since the last touch, and the brightness differs from the value
    last saved; what is written is the current brightness. And the
    backlight is rewritten only by a touch that changes the brightness,
    at least 180 ms after the previous step. *)
Theorem brightness_writes (p : TouchPoll) (b : Brightness) (op : HwOp) :
  op ∈ snd (handleTouchBrightnessAndSave p b) ->
  let b1 := fst (handle_touch p b) in
  let b2 := fst (handleTouchBrightnessAndSave p b) in
  match op with
  | PrefsPutBl v =>
      v = gBl b2 /\ v <> gBlSaved b /\ gBlSaved b2 = v /\ gBlDirty b2 = false /\
      gBlDirty b1 = true /\
      BL_SAVE_IDLE_MS <= u32_sub (ms_save p) (gLastTouchMs b1) /\
      snd (handle_save p b1) = [PrefsPutBl v]
  | _ =>
      gBl b2 <> gBl b /\ is_Some (touch p) /\
      180 <= u32_sub (ms_step p) (lastStepMs b)
  end.
Proof.
  rewrite handle_unfold. simpl. intros Hin.
  destruct (handle_touch_cases p b) as [Hs Ht].
  destruct (handle_save_cases p (fst (handle_touch p b))) as [Hg Hsv].
  simpl in *.
  apply elem_of_app in Hin as [Hin | Hin].
  - destruct Ht as [(_ & _ & Hnil) | (tx & ty & Htouch & H180 & Hstep & Hne & _ & _ & Hops)];
      [rewrite Hnil in Hin; inversion Hin |].
    rewrite Hops in Hin. unfold backlightSetPercent, backlightInit in Hin. simpl in Hin.
    assert (Hop : match op with PrefsPutBl _ => False | _ => True end).
    { apply elem_of_app in Hin as [Hin | Hin].
      - destruct (bl_inited b); [inversion Hin |].
        repeat (apply elem_of_cons in Hin as [-> | Hin]; [exact I |]). inversion Hin.
      - apply list_elem_of_singleton in Hin as ->. exact I. }
    destruct op; try contradiction; (split; [congruence |]);
      (split; [rewrite Htouch; eauto | exact H180]).
  - destruct Hsv as [[_ Hnil] | (Hd & Hidle & Hd2 & Hsaved & Hops)];
      [rewrite Hnil in Hin; inversion Hin |].
    rewrite Hops in Hin |- *.
    destruct (Z.eqb_spec (gBl (fst (handle_touch p b))) (gBlSaved (fst (handle_touch p b))))
      as [Heq | Hne]; [inversion Hin |].
    apply list_elem_of_singleton in Hin as ->.
    rewrite Hg. repeat split; try assumption; congruence.
Qed.

Lemma brightness_writes_witness :
  let b := run_touch [mkTouchPoll (Some (240, 250)) 1000 1001 1002] (Brightness_setup 50) in
  let p := mkTouchPoll None 7000 7000 7001 in
  PrefsPutBl 52 ∈ snd (handleTouchBrightnessAndSave p b) /\
  52 = gBl (fst (handleTouchBrightnessAndSave p b)) /\
  52 <> gBlSaved b /\
  gBlSaved (fst (handleTouchBrightnessAndSave p b)) = 52.
Proof.
  cbv zeta.
  assert (Hin : PrefsPutBl 52 ∈ snd (handleTouchBrightnessAndSave
                  (mkTouchPoll None 7000 7000 7001)
                  (run_touch [mkTouchPoll (Some (240, 250)) 1000 1001 1002]
                     (Brightness_setup 50)))).
  { apply (list_elem_of_lookup_2 _ 0%nat). vm_compute. reflexivity. }
  split; [exact Hin |].
  pose proof (brightness_writes _ _ _ Hin) as H. cbv zeta in H.
  destruct H as (H1 & H2 & H3 & _). split; [exact H1 |]. split; [exact H2 | exact H3].
Defined.

(** ** The icon rasteriser *)

Lemma scan_until_spec fuel on stop w : forall x,
  (Z.to_nat (w - x) <= fuel)%nat ->
  x <= scan_until fuel on stop w x /\
  (scan_until fuel on stop w x <= w \/ scan_until fuel on stop w x = x) /\
  (forall i, x <= i < scan_until fuel on stop w x -> on i = negb stop) /\
  (scan_until fuel on stop w x < w -> on (scan_until fuel on stop w x) = stop).
Proof.
  induction fuel as [| fuel IH]; intros x Hf; simpl.
  - split; [lia |]. split; [right; reflexivity |]. split; intros; lia.
  - destruct (Z.ltb_spec x w) as [Hlt | Hge].
    + destruct (Bool.eqb (on x) stop) eqn:He.
      * apply Bool.eqb_prop in He.
        split; [lia |]. split; [right; reflexivity |].
        split; [intros; lia | intros _; exact He].
      * destruct (IH (x + 1) ltac:(lia)) as (H1 & H2 & H3 & H4).
        split; [lia |]. split; [left; lia |]. split; [| exact H4].
        intros i Hi. destruct (decide (i = x)) as [-> | Hne]; [| apply H3; lia].
        apply Bool.eqb_false_iff in He. destruct (on x), stop; simpl; congruence.
    + split; [lia |]. split; [right; reflexivity |]. split; intros; lia.
Qed.

Lemma row_runs_spec fuel on w : forall x,
  (Z.to_nat (w - x) <= fuel)%nat ->
  (forall i, Exists (fun run => fst run <= i < fst run + snd run) (row_runs fuel on w x)
             <-> x <= i < w /\ on i = true) /\
  Forall (fun run => 0 < snd run /\ x <= fst run /\ fst run + snd run <= w)
    (row_runs fuel on w x).
Proof.
  induction fuel as [| fuel IH]; intros x Hf; simpl.
  - split; [| constructor]. intros i. rewrite Exists_nil. lia.
  - destruct (Z.ltb_spec x w) as [Hlt | Hge];
      [| split; [intros i; rewrite Exists_nil; lia | constructor]].
    destruct (scan_until_spec (Z.to_nat (w - x)) on true w x ltac:(lia))
      as (Ha1 & Ha2 & Ha3 & Ha4).
    set (x1 := scan_until (Z.to_nat (w - x)) on true w x) in *.
    destruct (Z.leb_spec w x1) as [Hend | Hmore].
    + split; [| constructor]. intros i. rewrite Exists_nil. split; [tauto |].
      intros [Hi Hon]. rewrite (Ha3 i) in Hon by lia. discriminate.
    + destruct (scan_until_spec (Z.to_nat (w - x1)) on false w x1 ltac:(lia))
        as (Hb1 & Hb2 & Hb3 & Hb4).
      set (x2 := scan_until (Z.to_nat (w - x1)) on false w x1) in *.
      assert (Hgt : x1 < x2).
      { destruct (decide (x2 = x1)) as [Heq | Hne]; [| lia].
        rewrite Heq in Hb4. rewrite (Ha4 Hmore) in Hb4. specialize (Hb4 Hmore).
        discriminate. }
      destruct (IH x2 ltac:(lia)) as [Hmem Hall]. split.
      * intros i. rewrite Exists_cons, Hmem. simpl. split.
        -- intros [Hi | [Hi Hon]]; [| split; [lia | exact Hon]].
           split; [lia |]. apply (Hb3 i). lia.
        -- intros [Hi Hon].
           destruct (Z.lt_ge_cases i x1) as [Hl | Hg].
           ++ rewrite (Ha3 i) in Hon by lia. discriminate.
           ++ destruct (Z.lt_ge_cases i x2); [left; lia | right; split; [lia | exact Hon]].
      * constructor; [simpl; lia |].
        eapply Forall_impl; [exact Hall |]. simpl. intros run. lia.
Qed.

Lemma land_bit b n :
  0 <= n -> (Z.land b (Z.shiftl 1 n) =? 0) = negb (Z.testbit b n).
Proof.
  intros Hn. rewrite Z.shiftl_1_l.
  assert (H : Z.land b (2 ^ n) = if Z.testbit b n then 2 ^ n else 0).
  { apply Z.bits_inj'. intros m Hm. rewrite Z.land_spec, Z.pow2_bits_eqb by lia.
    destruct (Z.eqb_spec n m) as [-> | Hne].
    - destruct (Z.testbit b m) eqn:Hb; simpl.
      + rewrite Z.pow2_bits_true by lia. reflexivity.
      + rewrite Z.bits_0. reflexivity.
    - rewrite andb_false_r. destruct (Z.testbit b n).
      + rewrite Z.pow2_bits_false by lia. reflexivity.
      + rewrite Z.bits_0. reflexivity. }
  rewrite H. destruct (Z.testbit b n); simpl.
  - apply Z.eqb_neq. pose proof (Z.pow_pos_nonneg 2 n ltac:(lia) Hn). lia.
  - reflexivity.
Qed.

Lemma mask_bit_testbit mask stride x y :
  0 <= x ->
  mask_bit mask stride x y = Z.testbit (mask (y * stride + x / 8)) (7 - x mod 8).
Proof.
  intros Hx. unfold mask_bit.
  rewrite Z.shiftr_div_pow2 by lia. change (2 ^ 3) with 8.
  replace (Z.land x 7) with (x mod 8)
    by (change 7 with (Z.ones 3); rewrite Z.land_ones by lia; reflexivity).
  pose proof (Z.mod_pos_bound x 8 ltac:(lia)).
  rewrite land_bit by lia. apply negb_involutive.
Qed.

(** X24: The rasteriser paints exactly the set bits of the mask: a pixel is
    covered by one of the horizontal lines it draws if and only if it is
    the pixel of a column [i] and a row [j] inside the [w] by [h] icon whose
    bit, bit [7 - i mod 8] of byte [j * stride + i / 8], is set. No line
    is empty, and no line leaves the icon's rectangle. *)
Theorem drawMask_paints_set_bits (x0 y0 : Z) (mask : Z -> Z) (w h stride : Z)
    (c : tft_color) :
  (forall px py,
     Exists (hline_paints px py) (drawMask1bit_PROGMEM x0 y0 mask w h stride c) <->
     exists i j, px = x0 + i /\ py = y0 + j /\ 0 <= i < w /\ 0 <= j < h /\
                 Z.testbit (mask (j * stride + i / 8)) (7 - i mod 8) = true) /\
  Forall (fun l => match l with
                   | DrawFastHLine x y lw c' =>
                       0 < lw /\ x0 <= x /\ x + lw <= x0 + w /\ y0 <= y < y0 + h /\ c' = c
                   end)
    (drawMask1bit_PROGMEM x0 y0 mask w h stride c).
Proof.
  assert (Hrow : forall y : Z,
            (Z.to_nat (w - 0) <= Z.to_nat w)%nat) by (intros; lia).
  split.
  - intros px py. unfold drawMask1bit_PROGMEM. rewrite Exists_exists. split.
    + intros (l & Hin & Hp).
      apply list_elem_of_bind in Hin as (y & Hin & Hy).
      apply elem_of_seqZ in Hy.
      apply list_elem_of_fmap in Hin as ([xs len] & -> & Hrun).
      destruct (row_runs_spec (Z.to_nat w) (fun x => mask_bit mask stride x y) w 0 (Hrow y))
        as [Hmem _].
      simpl in Hp. destruct Hp as [-> Hpx].
      assert (Hex : Exists (fun run => fst run <= px - x0 < fst run + snd run)
                      (row_runs (Z.to_nat w) (fun x => mask_bit mask stride x y) w 0)).
      { apply Exists_exists. exists (xs, len). split; [exact Hrun | simpl; lia]. }
      apply Hmem in Hex as [Hi Hon].
      exists (px - x0), y. rewrite <- mask_bit_testbit by lia.
      repeat split; try lia. exact Hon.
    + intros (i & j & -> & -> & Hi & Hj & Hbit).
      rewrite <- mask_bit_testbit in Hbit by lia.
      destruct (row_runs_spec (Z.to_nat w) (fun x => mask_bit mask stride x j) w 0 (Hrow j))
        as [Hmem _].
      pose proof (proj2 (Hmem i) (conj Hi Hbit)) as Hex.
      apply Exists_exists in Hex as ([xs len] & Hrun & Hr). simpl in Hr.
      exists (DrawFastHLine (x0 + xs) (y0 + j) len c). split; [| simpl; lia].
      apply list_elem_of_bind. exists j. split; [| apply elem_of_seqZ; lia].
      apply list_elem_of_fmap. exists (xs, len). split; [reflexivity | exact Hrun].
  - apply Forall_forall. intros l Hin. unfold drawMask1bit_PROGMEM in Hin.
    apply list_elem_of_bind in Hin as (y & Hin & Hy).
    apply elem_of_seqZ in Hy.
    apply list_elem_of_fmap in Hin as ([xs len] & -> & Hrun).
    destruct (row_runs_spec (Z.to_nat w) (fun x => mask_bit mask stride x y) w 0 (Hrow y))
      as [_ Hall].
    rewrite Forall_forall in Hall. specialize (Hall _ Hrun). simpl in Hall |- *.
    split; [lia |]. split; [lia |]. split; [lia |]. split; [lia | reflexivity].
Qed.

(** The 2-row example: bits 0, 1 and 3 of the first row give a run of
    two and a run of one, bit 7 of the second row a run of one. *)
Example drawMask_tiny :
  drawMask1bit_PROGMEM 10 20 tiny_mask 8 2 1 TFT_RED =
  [DrawFastHLine 10 20 2 TFT_RED; DrawFastHLine 13 20 1 TFT_RED;
   DrawFastHLine 17 21 1 TFT_RED].
Proof. vm_compute. reflexivity. Qed.

(** X25: Painting a plane: for a 360-entry offset table the mask is always
    found, whatever the heading passed, and every pixel painted lies inside
    the icon's rectangle at the given top-left corner, the rectangle that
    the dirty-rectangle bookkeeping assumes. *)
Theorem drawPlane_inside_icon (plane32_offset : list Z) (plane32_masks : Z -> Z)
    (stride x0 y0 heading : Z) (c : tft_color) :
  length plane32_offset = 360%nat ->
  exists lines,
    drawPlaneAtTopLeft plane32_offset plane32_masks stride x0 y0 heading c = Some lines /\
    forall px py, Exists (hline_paints px py) lines ->
                  in_rect px py (mkRect x0 y0 PW PH).
Proof.
  intros Hlen.
  destruct (planeMaskForHeading_in_bounds plane32_offset heading Hlen) as [off Hoff].
  unfold drawPlaneAtTopLeft. rewrite Hoff. simpl. eexists. split; [reflexivity |].
  intros px py Hex. apply Exists_exists in Hex as (l & Hin & Hp).
  destruct (drawMask_paints_set_bits x0 y0 (fun k => plane32_masks (off + k)) PW PH stride c)
    as [_ Hall].
  rewrite Forall_forall in Hall. specialize (Hall l Hin).
  destruct l as [x y lw c']. simpl in Hp. unfold in_rect. simpl. lia.
Qed.

Lemma drawPlane_inside_icon_witness :
  length (replicate 360 0) = 360%nat /\
  exists lines,
    drawPlaneAtTopLeft (replicate 360 0) (fun _ => 255) 4 100 100 (-725) TFT_GREEN
      = Some lines /\
    forall px py, Exists (hline_paints px py) lines ->
                  in_rect px py (mkRect 100 100 PW PH).
Proof.
  split; [reflexivity |].
  apply (drawPlane_inside_icon (replicate 360 0) (fun _ => 255) 4 100 100 (-725) TFT_GREEN).
  reflexivity.
Defined.

(** ** Wi-Fi connection *)

Lemma wifiTryConnectOne_tried link c st :
  wifiCandidateEnabled c = true ->
  tried_in_order link [c] st (wifiTryConnectOne link c st).
Proof.
  intros He. unfold wifiTryConnectOne. rewrite He. simpl.
  destruct (link (length (wifi_begun st)) c) eqn:Hl; exists [c]; simpl.
  - split; [reflexivity|]. split; [reflexivity|]. split.
    + intros [|i] c' Hi; simpl in Hi; [|destruct i; discriminate].
      injection Hi as <-. rewrite Nat.add_0_r. exact Hl.
    + split; [discriminate|]. intros _. exists c. split; reflexivity.
  - split; [reflexivity|]. split; [reflexivity|]. split.
    + intros [|i] c' Hi; simpl in Hi; [|destruct i; discriminate].
      injection Hi as <-. rewrite Nat.add_0_r. exact Hl.
    + split; [intros _; split; reflexivity|discriminate].
Qed.

Lemma tried_in_order_nil link st : tried_in_order link [] st (false, st).
Proof.
  exists []. simpl. rewrite app_nil_r.
  split; [reflexivity|]. split; [reflexivity|]. split; [intros i c Hi; discriminate|].
  split; [intros _; split; reflexivity|discriminate].
Qed.

Lemma tried_in_order_stop link s1 s2 st r :
  tried_in_order link s1 st r -> fst r = true -> tried_in_order link (s1 ++ s2) st r.
Proof.
  intros (new & Hb & Hp & Hl & Hf & Ht) Hr. exists new.
  split; [exact Hb|]. split; [apply prefix_app_r; exact Hp|]. split; [exact Hl|].
  split; [rewrite Hr; discriminate|exact Ht].
Qed.

Lemma tried_in_order_app link s1 s2 st r1 r2 :
  tried_in_order link s1 st r1 -> fst r1 = false ->
  tried_in_order link s2 (snd r1) r2 ->
  tried_in_order link (s1 ++ s2) st r2.
Proof.
  intros (n1 & Hb1 & Hp1 & Hl1 & Hf1 & _) Hr1 (n2 & Hb2 & Hp2 & Hl2 & Hf2 & Ht2).
  destruct (Hf1 Hr1) as [-> Hg1].
  exists (s1 ++ n2).
  split; [rewrite Hb2, Hb1, app_assoc; reflexivity|].
  split; [apply prefix_app; exact Hp2|].
  split.
  - intros i c Hi. rewrite length_app.
    destruct (decide (i < length s1)%nat) as [Hlt|Hge].
    + rewrite lookup_app_l in Hi by exact Hlt.
      rewrite (Hl1 i c Hi), Hr1. simpl.
      destruct (fst r2) eqn:Hr2; [|reflexivity]. simpl.
      destruct (Ht2 eq_refl) as (c2 & Hc2 & _).
      assert (length n2 <> 0)%nat by (destruct n2; [discriminate|simpl; lia]).
      symmetry. apply bool_decide_eq_false. lia.
    + rewrite lookup_app_r in Hi by lia.
      pose proof (Hl2 _ _ Hi) as Hl. rewrite Hb1, length_app in Hl.
      replace (length (wifi_begun st) + i)%nat
        with (length (wifi_begun st) + length s1 + (i - length s1))%nat by lia.
      rewrite Hl. f_equal. apply bool_decide_ext. lia.
  - split.
    + intros Hr2. destruct (Hf2 Hr2) as [-> Hg2]. split; [reflexivity|].
      rewrite Hg2. exact Hg1.
    + intros Hr2. destruct (Ht2 Hr2) as (c & Hc & Hg). exists c. split; [|exact Hg].
      rewrite last_app, Hc. reflexivity.
Qed.

Lemma try_each_tried link sf cs st :
  tried_in_order link (filter (fun c => eligible sf c = true) cs) st
    (try_each link sf cs st).
Proof.
  revert st. induction cs as [|c cs IH]; intros st.
  - apply tried_in_order_nil.
  - simpl. destruct (wifiCandidateEnabled c) eqn:He; simpl.
    + destruct (sf && present c && (rssi c <? WIFI_MIN_RSSI_TO_TRY_DBM)) eqn:Hs.
      * rewrite filter_cons_False; [apply IH|].
        unfold eligible. rewrite He, Hs. discriminate.
      * rewrite filter_cons_True by (unfold eligible; rewrite He, Hs; reflexivity).
        pose proof (wifiTryConnectOne_tried link c st He) as H1.
        destruct (wifiTryConnectOne link c st) as [ok st'] eqn:Ht.
        destruct ok.
        -- apply (tried_in_order_stop link [c] _ st (true, st') H1). reflexivity.
        -- apply (tried_in_order_app link [c] _ st (false, st') _ H1); [reflexivity|].
           apply IH.
    + rewrite filter_cons_False; [apply IH|].
      unfold eligible. rewrite He. discriminate.
Qed.

Lemma connect_cycles_tried link sf n cs st :
  tried_in_order link
    (filter (fun c => eligible sf c = true) (mjoin (replicate n cs))) st
    (connect_cycles link sf n cs st).
Proof.
  revert st. induction n as [|n IH]; intros st.
  - apply tried_in_order_nil.
  - simpl. rewrite filter_app.
    pose proof (try_each_tried link sf cs st) as H1.
    destruct (try_each link sf cs st) as [ok st'] eqn:Ht.
    destruct ok.
    + apply (tried_in_order_stop link _ _ st (true, st') H1). reflexivity.
    + apply (tried_in_order_app link _ _ st (false, st') _ H1); [reflexivity|].
      apply IH.
Qed.

(** Scanning changes neither the name nor the password of a candidate. *)
Lemma scan_mark_network net c :
  ssid (scan_mark net c) = ssid c /\ pass (scan_mark net c) = pass c.
Proof.
  unfold scan_mark. destruct (negb (wifiCandidateEnabled c)); [split; reflexivity|].
  destruct (bool_decide _); split; reflexivity.
Qed.

Lemma scan_update_pair nets c0 c1 :
  scan_update nets (c0, c1) =
  (foldl (fun c net => scan_mark net c) c0 nets,
   foldl (fun c net => scan_mark net c) c1 nets).
Proof.
  unfold scan_update. revert c0 c1. induction nets as [|net nets IH]; intros c0 c1.
  - reflexivity.
  - simpl. apply IH.
Qed.

Lemma scan_fold_network nets c :
  ssid (foldl (fun c net => scan_mark net c) c nets) = ssid c /\
  pass (foldl (fun c net => scan_mark net c) c nets) = pass c.
Proof.
  revert c. induction nets as [|net nets IH]; intros c.
  - split; reflexivity.
  - simpl. destruct (IH (scan_mark net c)) as [-> ->]. apply scan_mark_network.
Qed.

(** The two candidates of a cycle are the two configured networks, in
    one order or the other; under a scan the second never scores higher
    than the first. *)
Lemma attempt_order_networks nets sd pd sa pa sf :
  let cd := attempt_order nets sd pd sa pa sf in
  ((ssid (fst cd) = sd /\ pass (fst cd) = pd /\ ssid (snd cd) = sa /\ pass (snd cd) = pa) \/
   (ssid (fst cd) = sa /\ pass (fst cd) = pa /\ ssid (snd cd) = sd /\ pass (snd cd) = pd)) /\
  (sf = true -> score (snd cd) <= score (fst cd)) /\
  (sf = false -> cd = (mkWifiCandidate sd pd (-999) false, mkWifiCandidate sa pa (-999) false)).
Proof.
  unfold attempt_order. destruct sf.
  - rewrite scan_update_pair. unfold order_candidates. cbn [fst snd].
    set (c0 := foldl _ (mkWifiCandidate sd pd (-999) false) nets).
    set (c1 := foldl _ (mkWifiCandidate sa pa (-999) false) nets).
    destruct (scan_fold_network nets (mkWifiCandidate sd pd (-999) false)) as [H0 H0'].
    destruct (scan_fold_network nets (mkWifiCandidate sa pa (-999) false)) as [H1 H1'].
    fold c0 in H0, H0'. fold c1 in H1, H1'. simpl in H0, H0', H1, H1'.
    destruct (score c1 >? score c0) eqn:Hs; cbn [fst snd].
    + split; [right; repeat split; assumption|]. split; [intros _; lia|discriminate].
    + split; [left; repeat split; assumption|]. split; [intros _; lia|discriminate].
  - cbn [fst snd]. split; [left; repeat split; reflexivity|].
    split; [discriminate|reflexivity].
Qed.

(** A call of [connectWiFiRobust] goes through the candidates of the
    three cycles that are not skipped, in order, from a state with the
    connected name cleared. *)
Lemma connectWiFiRobust_tried link nets sd pd sa pa sf st :
  tried_in_order link (attempt_schedule sf (attempt_order nets sd pd sa pa sf))
    (mkWifiState [] (wifi_begun st))
    (connectWiFiRobust link nets sd pd sa pa sf st).
Proof.
  unfold connectWiFiRobust. cbn [fst snd].
  fold (attempt_order nets sd pd sa pa sf).
  unfold wifiCandidateEnabled at 1 2. cbn [ssid].
  destruct (negb (wifiIsEnabledSSID sd) && negb (wifiIsEnabledSSID sa)) eqn:Hd.
  - apply andb_true_iff in Hd as [Hd Ha].
    apply negb_true_iff in Hd, Ha.
    assert (Hs : attempt_schedule sf (attempt_order nets sd pd sa pa sf) = []).
    { destruct (attempt_order_networks nets sd pd sa pa sf) as (Hn & _).
      cbv zeta in Hn. unfold attempt_schedule.
      assert (H0 : forall c, (ssid c = sd \/ ssid c = sa) -> eligible sf c = false).
      { intros c [Hc|Hc]; unfold eligible, wifiCandidateEnabled; rewrite Hc.
        - rewrite Hd. reflexivity.
        - rewrite Ha. reflexivity. }
      assert (Hf : eligible sf (fst (attempt_order nets sd pd sa pa sf)) = false)
        by (apply H0; tauto).
      assert (Hg : eligible sf (snd (attempt_order nets sd pd sa pa sf)) = false)
        by (apply H0; tauto).
      cbn [app].
      repeat (rewrite filter_cons_False by (rewrite ?Hf, ?Hg; discriminate)).
      reflexivity. }
    rewrite Hs. apply tried_in_order_nil.
  - pose proof (connect_cycles_tried link sf WIFI_CYCLES
      [fst (attempt_order nets sd pd sa pa sf); snd (attempt_order nets sd pd sa pa sf)]
      (mkWifiState [] (wifi_begun st))) as H.
    unfold attempt_schedule.
    replace (mjoin (replicate WIFI_CYCLES
      [fst (attempt_order nets sd pd sa pa sf); snd (attempt_order nets sd pd sa pa sf)]))
      with ([fst (attempt_order nets sd pd sa pa sf); snd (attempt_order nets sd pd sa pa sf)] ++
            [fst (attempt_order nets sd pd sa pa sf); snd (attempt_order nets sd pd sa pa sf)] ++
            [fst (attempt_order nets sd pd sa pa sf); snd (attempt_order nets sd pd sa pa sf)])
      in H by reflexivity.
    exact H.
Qed.

Lemma tried_in_order_new link sched st0 st r :
  wifi_begun st0 = wifi_begun st ->
  tried_in_order link sched st0 r ->
  wifi_begun (snd r) = wifi_begun st ++ new_attempts st (snd r) /\
  new_attempts st (snd r) `prefix_of` sched /\
  (forall i c, new_attempts st (snd r) !! i = Some c ->
     link (length (wifi_begun st) + i)%nat c =
     fst r && bool_decide (S i = length (new_attempts st (snd r)))) /\
  (fst r = false ->
     new_attempts st (snd r) = sched /\ g_connectedSSID (snd r) = g_connectedSSID st0) /\
  (fst r = true ->
     exists c, last (new_attempts st (snd r)) = Some c /\
               g_connectedSSID (snd r) = default [] (ssid c)).
Proof.
  intros Hw (new & Hb & Hp & Hl & Hf & Ht). rewrite Hw in Hb, Hl.
  assert (Hn : new_attempts st (snd r) = new).
  { unfold new_attempts. rewrite Hb. apply drop_app_length. }
  rewrite Hn. split; [exact Hb|]. split; [exact Hp|]. split; [exact Hl|].
  split; [exact Hf|exact Ht].
Qed.

Lemma attempt_schedule_facts sf cd :
  (length (attempt_schedule sf cd) <= 6)%nat /\
  forall c, c ∈ attempt_schedule sf cd ->
    eligible sf c = true /\ (c = fst cd \/ c = snd cd).
Proof.
  unfold attempt_schedule. split.
  - etransitivity; [apply length_filter|]. simpl. lia.
  - intros c Hc. apply list_elem_of_filter in Hc as [He Hc]. split; [exact He|].
    cbn [app] in Hc. rewrite !elem_of_cons, elem_of_nil in Hc. tauto.
Qed.

Lemma filter_eligible_cons sf c l :
  filter (fun c => eligible sf c = true) (c :: l) =
  if eligible sf c then c :: filter (fun c => eligible sf c = true) l
  else filter (fun c => eligible sf c = true) l.
Proof.
  destruct (eligible sf c) eqn:E.
  - apply filter_cons_True. exact E.
  - apply filter_cons_False. rewrite E. discriminate.
Qed.

Lemma eligible_spec sf c :
  eligible sf c = true ->
  wifiCandidateEnabled c = true /\
  (sf = true -> present c = true -> WIFI_MIN_RSSI_TO_TRY_DBM <= rssi c).
Proof.
  unfold eligible. intros H. apply andb_true_iff in H as [He Hs].
  split; [exact He|]. intros -> Hp. rewrite Hp in Hs. simpl in Hs.
  apply negb_true_iff, Z.ltb_ge in Hs. exact Hs.
Qed.

Lemma enabled_ssid_nonempty c :
  wifiCandidateEnabled c = true -> default [] (ssid c) <> [].
Proof.
  unfold wifiCandidateEnabled, wifiIsEnabledSSID.
  destruct (ssid c) as [[|x s]|]; discriminate.
Qed.

(** X26: the attempts of one [connectWiFiRobust] call are appended to the
    log, there are at most six of them, and each is made with one of the
    two configured networks, which is enabled (its name is neither null
    nor empty); in a scan-based call no attempt goes to a network that
    was seen below -95 dBm, and in a call without scan no candidate is
    marked as seen. *)
Theorem connect_attempts_eligible link nets sd pd sa pa sf st :
  let st' := snd (connectWiFiRobust link nets sd pd sa pa sf st) in
  wifi_begun st' = wifi_begun st ++ new_attempts st st' /\
  (length (new_attempts st st') <= 6)%nat /\
  forall c, c ∈ new_attempts st st' ->
    wifiCandidateEnabled c = true /\
    (sf = true -> present c = true -> WIFI_MIN_RSSI_TO_TRY_DBM <= rssi c) /\
    (sf = false -> present c = false) /\
    ((ssid c = sd /\ pass c = pd) \/ (ssid c = sa /\ pass c = pa)).
Proof.
  intros st'. subst st'.
  destruct (tried_in_order_new link _ (mkWifiState [] (wifi_begun st)) st _ eq_refl
              (connectWiFiRobust_tried link nets sd pd sa pa sf st))
    as (Hb & Hp & _).
  destruct (attempt_schedule_facts sf (attempt_order nets sd pd sa pa sf)) as [Hlen Hin].
  destruct (attempt_order_networks nets sd pd sa pa sf) as (Hn & _ & Hns).
  cbv zeta in Hn, Hns.
  split; [exact Hb|]. split.
  - etransitivity; [apply prefix_length, Hp|exact Hlen].
  - intros c Hc. destruct Hp as [k Hk].
    assert (Hc' : c ∈ attempt_schedule sf (attempt_order nets sd pd sa pa sf))
      by (rewrite Hk; apply elem_of_app; left; exact Hc).
    destruct (Hin c Hc') as [He Hor].
    destruct (eligible_spec sf c He) as [Hen Hweak].
    split; [exact Hen|]. split; [exact Hweak|]. split.
    + intros Hsf. rewrite (Hns Hsf) in Hor. cbn [fst snd] in Hor.
      destruct Hor as [-> | ->]; reflexivity.
    + destruct Hor as [-> | ->]; tauto.
Qed.

(** X27: in one [connectWiFiRobust] call every attempt but the last has
    failed, and the call returns true exactly when the last attempt
    succeeded; then the connected name is the (non-empty) name of the
    network of that attempt.  A call that returns false has gone through
    every candidate of the three cycles that is not skipped, and leaves
    the connected name empty. *)
Theorem connect_result_last_attempt link nets sd pd sa pa sf st :
  let r := connectWiFiRobust link nets sd pd sa pa sf st in
  let new := new_attempts st (snd r) in
  (forall i c, new !! i = Some c ->
     link (length (wifi_begun st) + i)%nat c = fst r && bool_decide (S i = length new)) /\
  (fst r = true ->
     exists c, last new = Some c /\
               getConnectedSSID (snd r) = default [] (ssid c) /\
               getConnectedSSID (snd r) <> []) /\
  (fst r = false ->
     getConnectedSSID (snd r) = [] /\
     new = attempt_schedule sf (attempt_order nets sd pd sa pa sf)).
Proof.
  intros r new. subst r new.
  destruct (tried_in_order_new link _ (mkWifiState [] (wifi_begun st)) st _ eq_refl
              (connectWiFiRobust_tried link nets sd pd sa pa sf st))
    as (Hb & Hp & Hl & Hf & Ht).
  split; [exact Hl|]. split.
  - intros Hr. destruct (Ht Hr) as (c & Hc & Hg). exists c.
    split; [exact Hc|]. split; [exact Hg|].
    unfold getConnectedSSID. rewrite Hg. apply enabled_ssid_nonempty.
    destruct (attempt_schedule_facts sf (attempt_order nets sd pd sa pa sf)) as [_ Hin].
    assert (Hc' : c ∈ attempt_schedule sf (attempt_order nets sd pd sa pa sf)).
    { destruct Hp as [k Hk]. rewrite Hk. apply elem_of_app. left.
      apply last_Some in Hc as [l' ->]. apply elem_of_app. right. apply list_elem_of_singleton.
      reflexivity. }
    apply (eligible_spec sf c). apply Hin. exact Hc'.
  - intros Hr. destruct (Hf Hr) as [Hn Hg]. split; [exact Hg|exact Hn].
Qed.

Lemma scan_fold_last_match post c :
  wifiCandidateEnabled c = true ->
  forall s, ssid c = Some s -> s ∉ post.*1 ->
  foldl (fun c net => scan_mark net c) c post = c.
Proof.
  intros He s Hs. induction post as [|[s' r'] post IH]; intros Hn.
  - reflexivity.
  - simpl. rewrite fmap_cons, not_elem_of_cons in Hn. destruct Hn as [Hne Hn].
    assert (Hm : scan_mark (s', r') c = c).
    { unfold scan_mark. rewrite He. simpl. rewrite Hs.
      rewrite bool_decide_eq_false_2; [reflexivity|]. simpl in Hne. congruence. }
    rewrite Hm. apply IH. exact Hn.
Qed.

Lemma scan_fold_records nets c s :
  ssid c = Some s -> s <> [] ->
  (s ∉ nets.*1 -> foldl (fun c net => scan_mark net c) c nets = c) /\
  (forall pre r post, nets = pre ++ (s, r) :: post -> s ∉ post.*1 ->
     foldl (fun c net => scan_mark net c) c nets = mkWifiCandidate (ssid c) (pass c) r true).
Proof.
  intros Hs Hne.
  assert (He : wifiCandidateEnabled c = true).
  { unfold wifiCandidateEnabled. rewrite Hs. destruct s; [congruence|reflexivity]. }
  split.
  - intros Hn. apply (scan_fold_last_match nets c He s Hs Hn).
  - intros pre r post -> Hn. rewrite foldl_app. simpl.
    set (c1 := foldl _ c pre).
    destruct (scan_fold_network pre c) as [H1 H2]. fold c1 in H1, H2.
    assert (He1 : wifiCandidateEnabled c1 = true)
      by (unfold wifiCandidateEnabled; rewrite H1; exact He).
    assert (Hm : scan_mark (s, r) c1 = mkWifiCandidate (ssid c) (pass c) r true).
    { unfold scan_mark. rewrite He1. simpl. rewrite H1, Hs.
      rewrite bool_decide_eq_true_2 by reflexivity. rewrite H2. reflexivity. }
    rewrite Hm. apply (scan_fold_last_match post (mkWifiCandidate (ssid c) (pass c) r true) He s); [exact Hs|exact Hn].
Qed.

(** X28: the scan records, for an enabled candidate, the signal strength of
    the LAST scanned network that carries its name (not of the strongest
    one) and marks it as seen; a candidate whose name is in no scanned
    network is left as it was.  This holds for either of the two
    candidates. *)
Theorem scan_records_last_match nets c c' s :
  ssid c = Some s -> s <> [] ->
  (s ∉ nets.*1 ->
     fst (scan_update nets (c, c')) = c /\ snd (scan_update nets (c', c)) = c) /\
  (forall pre r post, nets = pre ++ (s, r) :: post -> s ∉ post.*1 ->
     fst (scan_update nets (c, c')) = mkWifiCandidate (ssid c) (pass c) r true /\
     snd (scan_update nets (c', c)) = mkWifiCandidate (ssid c) (pass c) r true).
Proof.
  intros Hs Hne. rewrite !scan_update_pair. cbn [fst snd].
  destruct (scan_fold_records nets c s Hs Hne) as [H1 H2]. split.
  - intros Hn. split; apply H1; exact Hn.
  - intros pre r post Hnets Hn. split; apply (H2 pre r post Hnets Hn).
Qed.

Lemma scan_records_last_match_witness :
  ssid (mkWifiCandidate config_alt None (-999) false) = Some (list_ascii_of_string "MESH") /\
  list_ascii_of_string "MESH" <> [] /\
  fst (scan_update scan_two_mesh
         (mkWifiCandidate config_alt None (-999) false,
          mkWifiCandidate config_default None (-999) false))
  = mkWifiCandidate config_alt None (-80) true.
Proof.
  split; [reflexivity|]. split; [discriminate|].
  refine (proj1 (proj2 (scan_records_last_match scan_two_mesh
    (mkWifiCandidate config_alt None (-999) false)
    (mkWifiCandidate config_default None (-999) false)
    (list_ascii_of_string "MESH") eq_refl _)
    [(list_ascii_of_string "MESH", -50); (list_ascii_of_string "other", -40)]
    (-80) [] eq_refl _)).
  - discriminate.
  - simpl. apply not_elem_of_nil.
Defined.

(** X29: in a scan-based [connectWiFiRobust] call, when the second attempt
    goes to a network that the scan has seen, the first attempt went to a
    network that was seen too, at a recorded signal strength that is not
    lower: a seen network is never tried after an unseen or a weaker
    one. *)
Theorem scan_connect_strongest_first link nets sd pd sa pa st a b :
  let new := new_attempts st (snd (connectWiFiRobust link nets sd pd sa pa true st)) in
  new !! 0%nat = Some a -> new !! 1%nat = Some b ->
  present b = true ->
  present a = true /\ rssi b <= rssi a.
Proof.
  intros new Ha Hb Hpb. subst new.
  destruct (tried_in_order_new link _ (mkWifiState [] (wifi_begun st)) st _ eq_refl
              (connectWiFiRobust_tried link nets sd pd sa pa true st))
    as (_ & Hp & _).
  destruct (attempt_order_networks nets sd pd sa pa true) as (_ & Hsc & _).
  cbv zeta in Hsc. specialize (Hsc eq_refl).
  pose proof (prefix_lookup_Some _ _ _ _ Ha Hp) as Ha'.
  pose proof (prefix_lookup_Some _ _ _ _ Hb Hp) as Hb'.
  clear Ha Hb Hp.
  set (x := fst (attempt_order nets sd pd sa pa true)) in *.
  set (y := snd (attempt_order nets sd pd sa pa true)) in *.
  unfold attempt_schedule in Ha', Hb'. fold x y in Ha', Hb'. cbn [app] in Ha', Hb'.
  rewrite !filter_eligible_cons in Ha', Hb'.
  destruct (eligible true x) eqn:Ex; destruct (eligible true y) eqn:Ey;
    simpl in Ha', Hb'; try discriminate.
  - injection Ha' as <-. injection Hb' as <-.
    destruct (eligible_spec true x Ex) as [Hex _].
    destruct (eligible_spec true y Ey) as [Hey Hwy].
    specialize (Hwy eq_refl Hpb).
    unfold score in Hsc. rewrite Hex, Hey, Hpb in Hsc. simpl in Hsc.
    unfold WIFI_MIN_RSSI_TO_TRY_DBM in Hwy.
    destruct (present x); simpl in Hsc; [split; [reflexivity|lia]|lia].
  - injection Ha' as <-. injection Hb' as <-. split; [exact Hpb|lia].
  - injection Ha' as <-. injection Hb' as <-. split; [exact Hpb|lia].
Qed.

Lemma scan_connect_strongest_first_witness :
  new_attempts wifi_start
    (snd (connectWiFiRobust link_never scan_both config_default None config_alt None
            true wifi_start)) !! 0%nat
  = Some (mkWifiCandidate config_alt None (-60) true) /\
  new_attempts wifi_start
    (snd (connectWiFiRobust link_never scan_both config_default None config_alt None
            true wifi_start)) !! 1%nat
  = Some (mkWifiCandidate config_default None (-70) true) /\
  present (mkWifiCandidate config_default None (-70) true) = true /\
  present (mkWifiCandidate config_alt None (-60) true) = true /\
  rssi (mkWifiCandidate config_default None (-70) true)
    <= rssi (mkWifiCandidate config_alt None (-60) true).
Proof.
  split; [vm_compute; reflexivity|]. split; [vm_compute; reflexivity|].
  split; [reflexivity|].
  apply (scan_connect_strongest_first link_never scan_both config_default None
           config_alt None wifi_start); [vm_compute; reflexivity .. | reflexivity].
Defined.

(** The two calls of [HB9IIUWifiConnection] behave as one run through
    the schedule of the call without scan followed by that of the
    scan-based call. *)
Lemma HB9IIUWifiConnection_tried link nets sd pd sa pa st :
  tried_in_order link
    (attempt_schedule false (attempt_order nets sd pd sa pa false) ++
     attempt_schedule true (attempt_order nets sd pd sa pa true))
    (mkWifiState [] (wifi_begun st))
    (HB9IIUWifiConnection link nets sd pd sa pa st).
Proof.
  unfold HB9IIUWifiConnection.
  pose proof (connectWiFiRobust_tried link nets sd pd sa pa false st) as H1.
  destruct (connectWiFiRobust link nets sd pd sa pa false st) as [ok st1] eqn:E1.
  destruct ok.
  - apply (tried_in_order_stop link _ _ _ (true, st1) H1). reflexivity.
  - apply (tried_in_order_app link _ _ _ (false, st1) _ H1); [reflexivity|].
    pose proof (connectWiFiRobust_tried link nets sd pd sa pa true st1) as H2.
    destruct H1 as (n1 & _ & _ & _ & Hf & _).
    destruct (Hf eq_refl) as [_ Hg]. cbn [fst snd] in Hg |- *.
    destruct st1 as [g b]. simpl in Hg. subst g. exact H2.
Qed.

(** X30: [HB9IIUWifiConnection] makes at most twelve connection attempts;
    every attempt but the last has failed, and its final [ok] is true
    exactly when the last attempt succeeded, with the connected name
    that of the network of this attempt; when it ends without a
    connection the connected name is empty.  When the default network is
    enabled, the very first attempt goes to it, as configured (not
    marked as seen, RSSI -999). *)
Theorem wifi_connection_outcome link nets sd pd sa pa st :
  let r := HB9IIUWifiConnection link nets sd pd sa pa st in
  let new := new_attempts st (snd r) in
  wifi_begun (snd r) = wifi_begun st ++ new /\
  (length new <= 12)%nat /\
  (forall i c, new !! i = Some c ->
     link (length (wifi_begun st) + i)%nat c = fst r && bool_decide (S i = length new)) /\
  (fst r = true ->
     exists c, last new = Some c /\ getConnectedSSID (snd r) = default [] (ssid c)) /\
  (fst r = false -> getConnectedSSID (snd r) = []) /\
  (wifiIsEnabledSSID sd = true ->
     forall c, new !! 0%nat = Some c -> c = mkWifiCandidate sd pd (-999) false).
Proof.
  intros r new. subst r new.
  destruct (tried_in_order_new link _ (mkWifiState [] (wifi_begun st)) st _ eq_refl
              (HB9IIUWifiConnection_tried link nets sd pd sa pa st))
    as (Hb & Hp & Hl & Hf & Ht).
  split; [exact Hb|]. split.
  - etransitivity; [apply prefix_length, Hp|]. rewrite length_app.
    pose proof (proj1 (attempt_schedule_facts false (attempt_order nets sd pd sa pa false))).
    pose proof (proj1 (attempt_schedule_facts true (attempt_order nets sd pd sa pa true))).
    lia.
  - split; [exact Hl|]. split; [exact Ht|]. split.
    + intros Hr. apply (Hf Hr).
    + intros Hd c Hc.
      pose proof (prefix_lookup_Some _ _ _ _ Hc Hp) as Hc'.
      unfold attempt_order at 1 in Hc'. unfold attempt_schedule at 1 in Hc'.
      cbn [fst snd app] in Hc'.
      rewrite filter_eligible_cons in Hc'.
      assert (He : eligible false (mkWifiCandidate sd pd (-999) false) = true).
      { unfold eligible, wifiCandidateEnabled. simpl. rewrite Hd. reflexivity. }
      rewrite He in Hc'. simpl in Hc'. congruence.
Qed.

Lemma wifi_connection_outcome_witness :
  wifiIsEnabledSSID config_default = true /\
  new_attempts wifi_start
    (snd (HB9IIUWifiConnection link_third scan_both config_default None config_alt None
            wifi_start)) !! 0%nat
  = Some (mkWifiCandidate config_default None (-999) false).
Proof.
  split; [reflexivity|].
  pose proof (proj2 (proj2 (proj2 (proj2 (proj2
    (wifi_connection_outcome link_third scan_both config_default None config_alt None
       wifi_start))))) eq_refl) as H.
  cbv zeta in H.
  destruct (new_attempts wifi_start
    (snd (HB9IIUWifiConnection link_third scan_both config_default None config_alt None
            wifi_start)) !! 0%nat) as [c|] eqn:E.
  - rewrite (H c eq_refl). reflexivity.
  - vm_compute in E. discriminate.
Defined.
